(** * VEX V5 host mode: hardware state store, transport framing, display
      bridge and mode orchestrator

    A shallow embedding of [src/host/hal.cpp], [src/host/ipc.cpp],
    [src/host/display.cpp] and the main loop of [src/main.cpp], followed by
    the wrappers built on them: [src/pros/motors.cpp],
    [src/pros/controller.cpp], [src/pros/llemu.cpp], [src/pros/rtos.cpp],
    [src/auton/selector.cpp], the LVGL stand-in of [display.cpp], the input
    handlers of [main.cpp], the receive thread beside the main loop, and
    the screen path and the JSON string reader of the user interface
    ([app.js]).

    Conventions used throughout:
    - [int32_t], [int16_t], [uint8_t], [size_t] values are integers in [Z];
      the range of the C++ type is a hypothesis where a statement needs it.
    - [double] values are IEEE 754 binary64 numbers in [Binary64] and
      [HAL64], where every operation of the physics tick rounds as the
      machine does (round to nearest, ties to even, one rounding per
      operation in source order).  The store in [HAL] keeps an exact
      rational in [Q] for each double; it serves the accessors and the
      facts about order and sign, which do not depend on rounding.
      [static_cast<int32_t>] of a double is truncation toward zero.
    - [std::array<T, n>] is a [list T] of length [n], read with [!!] and
      updated in place with [alter].
    - [std::string] is [string]; its bytes are the characters. *)

From Stdlib Require Import ZArith QArith Qabs Qround Qpower Lia Lqa.
From Stdlib Require Import String Ascii List DecimalString DecimalPos SpecFloat.
From stdpp Require Import base list list_numbers.
Import ListNotations.

Local Open Scope Z_scope.

(** ** Small helpers shared by all components *)

(** [std::clamp(v, lo, hi)] *)
Definition clamp (v lo hi : Z) : Z :=
  if v <? lo then lo else if hi <? v then hi else v.

(** [static_cast<int32_t>(d)] for a double [d]: the fractional part is
    discarded (truncation toward zero). *)
Definition static_cast_int32 (d : Q) : Z :=
  if Qle_bool 0 d then Qfloor d else Qceiling d.

(** * Hardware state store ([host::HAL]) *)

Module HAL.

(** [enum class RobotMode] *)
Inductive RobotMode : Type := DISABLED | AUTONOMOUS | OPCONTROL.

(** [pros::motor_gearset_e_t] *)
Inductive motor_gearset_e_t : Type :=
  | E_MOTOR_GEARSET_36
  | E_MOTOR_GEARSET_18
  | E_MOTOR_GEARSET_06
  | E_MOTOR_GEARSET_INVALID.

(** [struct MotorState] *)
Record MotorState : Type := mkMotorState {
  voltage : Z;
  velocity : Z;
  position : Q;
  actual_velocity : Q;
  current : Z;
  temperature : Q;
  gearset : motor_gearset_e_t;
  reversed : bool;
  connected : bool
}.

(** The default member initialisers of [MotorState]. *)
Definition MotorState_default : MotorState :=
  {| voltage := 0; velocity := 0; position := 0%Q; actual_velocity := 0%Q;
     current := 0; temperature := 25%Q; gearset := E_MOTOR_GEARSET_18;
     reversed := false; connected := false |}.

(** [struct ControllerState] *)
Record ControllerState : Type := mkControllerState {
  analog : list Z;
  digital : list bool;
  c_connected : bool;
  battery_capacity : Z;
  battery_level : Z;
  c_lcd_lines : list string
}.

Definition ControllerState_default : ControllerState :=
  {| analog := [0; 0; 0; 0]; digital := replicate 18 false;
     c_connected := false; battery_capacity := 100; battery_level := 100;
     c_lcd_lines := replicate 3 EmptyString |}.

(** [struct BatteryState] *)
Record BatteryState : Type := mkBatteryState {
  b_capacity : Q;
  b_current : Z;
  b_temperature : Q;
  b_voltage : Z
}.

Definition BatteryState_default : BatteryState :=
  {| b_capacity := 100%Q; b_current := 0; b_temperature := 25%Q;
     b_voltage := 12600 |}.

(** The private members of [class HAL].  [_state_callback] records whether
    a callback is registered; the callback body lives outside the store. *)
Record HAL : Type := mkHAL {
  _motors : list MotorState;
  _controllers : list ControllerState;
  _battery : BatteryState;
  _robot_mode : RobotMode;
  _competition_connected : bool;
  _lcd_lines : list string;
  _lcd_buttons : Z;
  _lcd_bg_color : Z;
  _lcd_text_color : Z;
  _lcd_initialized : bool;
  _state_callback : bool
}.

Definition with_motors (h : HAL) (ms : list MotorState) : HAL :=
  mkHAL ms (_controllers h) (_battery h) (_robot_mode h)
        (_competition_connected h) (_lcd_lines h) (_lcd_buttons h)
        (_lcd_bg_color h) (_lcd_text_color h) (_lcd_initialized h)
        (_state_callback h).

Definition with_controllers (h : HAL) (cs : list ControllerState) : HAL :=
  mkHAL (_motors h) cs (_battery h) (_robot_mode h)
        (_competition_connected h) (_lcd_lines h) (_lcd_buttons h)
        (_lcd_bg_color h) (_lcd_text_color h) (_lcd_initialized h)
        (_state_callback h).

Definition with_robot_mode (h : HAL) (m : RobotMode) : HAL :=
  mkHAL (_motors h) (_controllers h) (_battery h) m
        (_competition_connected h) (_lcd_lines h) (_lcd_buttons h)
        (_lcd_bg_color h) (_lcd_text_color h) (_lcd_initialized h)
        (_state_callback h).

Definition with_lcd (h : HAL) (ls : list string) (initialized : bool) : HAL :=
  mkHAL (_motors h) (_controllers h) (_battery h) (_robot_mode h)
        (_competition_connected h) ls (_lcd_buttons h)
        (_lcd_bg_color h) (_lcd_text_color h) initialized
        (_state_callback h).

(** The state of a freshly constructed store: the member initialisers of
    the class, then [HAL::HAL()] running [init()]. *)
Definition init (h : HAL) : HAL :=
  mkHAL (map (fun _ => MotorState_default) (_motors h))
        (map (fun _ => mkControllerState [0; 0; 0; 0] (replicate 18 false)
                         true 100 100 (replicate 3 EmptyString))
             (_controllers h))
        BatteryState_default (_robot_mode h) (_competition_connected h)
        (map (fun _ => EmptyString) (_lcd_lines h)) 0
        (_lcd_bg_color h) (_lcd_text_color h) false (_state_callback h).

Definition constructed : HAL :=
  init (mkHAL (replicate 21 MotorState_default)
              (replicate 2 ControllerState_default)
              BatteryState_default DISABLED false
              (replicate 8 EmptyString) 0 0 65535 false false).

Definition shutdown (h : HAL) : HAL := with_robot_mode h DISABLED.

(** *** The physics tick *)

Definition max_velocity_of (g : motor_gearset_e_t) : Q :=
  match g with
  | E_MOTOR_GEARSET_36 => 100
  | E_MOTOR_GEARSET_18 => 200
  | E_MOTOR_GEARSET_06 => 600
  | _ => 200
  end%Q.

(** The body of the [for (auto& motor : _motors)] loop of [HAL::update]
    over exact rationals: the operations of the source without their
    rounding.  The tick as the machine computes it is
    [HAL64.update_motor]. *)
Definition update_motor (motor : MotorState) : MotorState :=
  if negb (connected motor) then motor
  else
    let max_velocity := max_velocity_of (gearset motor) in
    let target_velocity := (inject_Z (voltage motor) / 127 * max_velocity)%Q in
    let alpha := 0.1%Q in
    let actual_velocity' :=
      (actual_velocity motor * (1 - alpha) + target_velocity * alpha)%Q in
    let position' :=
      (position motor + actual_velocity' * (10 / 60000) * 360)%Q in
    let current' :=
      static_cast_int32 (Qabs (actual_velocity' / max_velocity) * 2000)%Q in
    let temperature' := (25 + inject_Z (Z.abs current') / 2500 * 30)%Q in
    {| voltage := voltage motor; velocity := velocity motor;
       position := position'; actual_velocity := actual_velocity';
       current := current'; temperature := temperature';
       gearset := gearset motor; reversed := reversed motor;
       connected := connected motor |}.

(** [HAL::update]: the sweep over all motors.  The registered callback, if
    any, is invoked after the sweep; see [update_notifies]. *)
Definition update (h : HAL) : HAL := with_motors h (map update_motor (_motors h)).

Definition update_notifies (h : HAL) : bool := _state_callback h.

(** The target velocity of a motor and one step of the first-order filter,
    as written in [HAL::update], over exact rationals; used to state the
    order and sign facts of the tick. *)
Definition target_velocity (m : MotorState) : Q :=
  (inject_Z (voltage m) / 127 * max_velocity_of (gearset m))%Q.


(** *** Motor accessors *)

Definition bad_port (port : Z) : bool := (port <? 1) || (21 <? port).

Definition motor_at (h : HAL) (port : Z) : MotorState :=
  default MotorState_default (_motors h !! Z.to_nat (port - 1)).

Definition modify_motor (h : HAL) (port : Z) (f : MotorState -> MotorState) : HAL :=
  with_motors h (alter f (Z.to_nat (port - 1)) (_motors h)).

Definition set_voltage (v : Z) (m : MotorState) : MotorState :=
  mkMotorState v (velocity m) (position m) (actual_velocity m) (current m)
               (temperature m) (gearset m) (reversed m) (connected m).
Definition set_velocity (v : Z) (m : MotorState) : MotorState :=
  mkMotorState (voltage m) v (position m) (actual_velocity m) (current m)
               (temperature m) (gearset m) (reversed m) (connected m).
Definition set_position (p : Q) (m : MotorState) : MotorState :=
  mkMotorState (voltage m) (velocity m) p (actual_velocity m) (current m)
               (temperature m) (gearset m) (reversed m) (connected m).
Definition set_gearset (g : motor_gearset_e_t) (m : MotorState) : MotorState :=
  mkMotorState (voltage m) (velocity m) (position m) (actual_velocity m)
               (current m) (temperature m) g (reversed m) (connected m).
Definition set_reversed (r : bool) (m : MotorState) : MotorState :=
  mkMotorState (voltage m) (velocity m) (position m) (actual_velocity m)
               (current m) (temperature m) (gearset m) r (connected m).
Definition set_connected (c : bool) (m : MotorState) : MotorState :=
  mkMotorState (voltage m) (velocity m) (position m) (actual_velocity m)
               (current m) (temperature m) (gearset m) (reversed m) c.

Definition set_motor (h : HAL) (port voltage : Z) : HAL :=
  if bad_port port then h
  else modify_motor h port (set_voltage (clamp voltage (-127) 127)).

Definition set_motor_velocity (h : HAL) (port velocity : Z) : HAL :=
  if bad_port port then h else modify_motor h port (set_velocity velocity).

Definition set_motor_position (h : HAL) (port : Z) (position : Q) : HAL :=
  if bad_port port then h else modify_motor h port (set_position position).

Definition set_motor_gearset (h : HAL) (port : Z) (g : motor_gearset_e_t) : HAL :=
  if bad_port port then h else modify_motor h port (set_gearset g).

Definition set_motor_reversed (h : HAL) (port : Z) (r : bool) : HAL :=
  if bad_port port then h else modify_motor h port (set_reversed r).

Definition set_motor_connected (h : HAL) (port : Z) (c : bool) : HAL :=
  if bad_port port then h else modify_motor h port (set_connected c).

Definition get_motor_voltage (h : HAL) (port : Z) : Z :=
  if bad_port port then 0 else voltage (motor_at h port).

Definition get_motor_velocity (h : HAL) (port : Z) : Z :=
  if bad_port port then 0 else velocity (motor_at h port).

Definition get_motor_position (h : HAL) (port : Z) : Q :=
  if bad_port port then 0%Q else position (motor_at h port).

Definition get_motor_actual_velocity (h : HAL) (port : Z) : Q :=
  if bad_port port then 0%Q else actual_velocity (motor_at h port).

Definition get_motor_current (h : HAL) (port : Z) : Z :=
  if bad_port port then 0 else current (motor_at h port).

Definition get_motor_temperature (h : HAL) (port : Z) : Q :=
  if bad_port port then 0%Q else temperature (motor_at h port).

Definition get_motor_gearset (h : HAL) (port : Z) : motor_gearset_e_t :=
  if bad_port port then E_MOTOR_GEARSET_INVALID else gearset (motor_at h port).

Definition get_motor_reversed (h : HAL) (port : Z) : bool :=
  if bad_port port then false else reversed (motor_at h port).

Definition is_motor_connected (h : HAL) (port : Z) : bool :=
  if bad_port port then false else connected (motor_at h port).

(** *** Controller accessors

    [controller_id_e_t], [controller_analog_e_t] and
    [controller_digital_e_t] are unscoped enumerations without negative
    enumerators; their values are compared as unsigned integers, so an
    identifier is an integer [0 <= id]. *)

Definition controller_at (h : HAL) (id : Z) : ControllerState :=
  default ControllerState_default (_controllers h !! Z.to_nat id).

Definition modify_controller (h : HAL) (id : Z)
    (f : ControllerState -> ControllerState) : HAL :=
  with_controllers h (alter f (Z.to_nat id) (_controllers h)).

Definition set_analog (channel value : Z) (c : ControllerState) : ControllerState :=
  mkControllerState (<[Z.to_nat channel := value]> (analog c)) (digital c)
                    (c_connected c) (battery_capacity c) (battery_level c)
                    (c_lcd_lines c).
Definition set_digital (button : Z) (value : bool) (c : ControllerState)
    : ControllerState :=
  mkControllerState (analog c) (<[Z.to_nat button := value]> (digital c))
                    (c_connected c) (battery_capacity c) (battery_level c)
                    (c_lcd_lines c).
Definition set_c_connected (value : bool) (c : ControllerState) : ControllerState :=
  mkControllerState (analog c) (digital c) value (battery_capacity c)
                    (battery_level c) (c_lcd_lines c).

Definition set_controller_analog (h : HAL) (id channel value : Z) : HAL :=
  if (1 <? id) || (3 <? channel) then h
  else modify_controller h id (set_analog channel (clamp value (-127) 127)).

Definition set_controller_digital (h : HAL) (id button : Z) (value : bool) : HAL :=
  if (1 <? id) || (18 <=? button) then h
  else modify_controller h id (set_digital button value).

Definition set_controller_connected (h : HAL) (id : Z) (value : bool) : HAL :=
  if 1 <? id then h else modify_controller h id (set_c_connected value).

Definition get_controller_analog (h : HAL) (id channel : Z) : Z :=
  if (1 <? id) || (3 <? channel) then 0
  else default 0 (analog (controller_at h id) !! Z.to_nat channel).

Definition get_controller_digital (h : HAL) (id button : Z) : bool :=
  if (1 <? id) || (18 <=? button) then false
  else default false (digital (controller_at h id) !! Z.to_nat button).

Definition is_controller_connected (h : HAL) (id : Z) : bool :=
  if 1 <? id then false else c_connected (controller_at h id).

Definition get_controller_battery_capacity (h : HAL) (id : Z) : Z :=
  if 1 <? id then 0 else battery_capacity (controller_at h id).

Definition get_controller_battery_level (h : HAL) (id : Z) : Z :=
  if 1 <? id then 0 else battery_level (controller_at h id).

(** *** Competition mode *)

Definition set_robot_mode (h : HAL) (mode : RobotMode) : HAL :=
  with_robot_mode h mode.

Definition get_robot_mode (h : HAL) : RobotMode := _robot_mode h.

(** *** Text display (LLEMU) *)

Definition bad_line (line : Z) : bool := (line <? 0) || (7 <? line).

Definition lcd_set_text (h : HAL) (line : Z) (text : string) : HAL :=
  if bad_line line then h
  else with_lcd h (<[Z.to_nat line := text]> (_lcd_lines h)) true.

Definition lcd_get_text (h : HAL) (line : Z) : string :=
  if bad_line line then EmptyString
  else default EmptyString (_lcd_lines h !! Z.to_nat line).

Definition lcd_clear (h : HAL) : HAL :=
  with_lcd h (map (fun _ => EmptyString) (_lcd_lines h)) (_lcd_initialized h).

Definition lcd_clear_line (h : HAL) (line : Z) : HAL :=
  if bad_line line then h
  else with_lcd h (<[Z.to_nat line := EmptyString]> (_lcd_lines h))
                (_lcd_initialized h).

(** *** State access for the transport *)

Definition get_motor_state (h : HAL) (port : Z) : MotorState :=
  if bad_port port then MotorState_default else motor_at h port.

Definition get_controller_state (h : HAL) (id : Z) : ControllerState :=
  if 1 <? id then ControllerState_default else controller_at h id.

(** Well-formedness: the arrays have their declared sizes. *)
Definition wf (h : HAL) : Prop :=
  length (_motors h) = 21%nat /\ length (_controllers h) = 2%nat /\
  length (_lcd_lines h) = 8%nat.

(** A store as the [pros::Motor] constructor leaves it for port 1: the
    motor is marked connected. *)
Definition bench_motor : HAL := set_motor_connected constructed 1 true.


(** *** Remaining accessors of the store *)

Definition get_battery_capacity (h : HAL) : Q := b_capacity (_battery h).
Definition get_battery_current (h : HAL) : Z := b_current (_battery h).
Definition get_battery_temperature (h : HAL) : Q := b_temperature (_battery h).
Definition get_battery_voltage (h : HAL) : Z := b_voltage (_battery h).

Definition is_autonomous (h : HAL) : bool :=
  match _robot_mode h with AUTONOMOUS => true | _ => false end.

Definition is_disabled (h : HAL) : bool :=
  match _robot_mode h with DISABLED => true | _ => false end.

Definition is_connected (h : HAL) : bool := _competition_connected h.

Definition with_lcd_buttons (h : HAL) (b : Z) : HAL :=
  mkHAL (_motors h) (_controllers h) (_battery h) (_robot_mode h)
        (_competition_connected h) (_lcd_lines h) b
        (_lcd_bg_color h) (_lcd_text_color h) (_lcd_initialized h)
        (_state_callback h).

(** [HAL::lcd_set_button]: [_lcd_buttons |= button] or
    [_lcd_buttons &= ~button] on an 8-bit unsigned value; the operands are
    promoted to [int] and the result is converted back to 8 bits. *)
Definition lcd_set_button (h : HAL) (button : Z) (pressed : bool) : HAL :=
  if pressed then with_lcd_buttons h (Z.lor (_lcd_buttons h) button mod 256)
  else with_lcd_buttons h (Z.land (_lcd_buttons h) (Z.lnot button) mod 256).

Definition lcd_get_buttons (h : HAL) : Z := _lcd_buttons h.

(** The arrays inside every controller have their declared sizes. *)
Definition wf_controllers (h : HAL) : Prop :=
  forall c, c ∈ _controllers h ->
    length (analog c) = 4%nat /\ length (digital c) = 18%nat.


End HAL.

(** * Transport channel ([host::IPCClient]) *)

Module IPC.

Local Open Scope string_scope.
Local Open Scope Z_scope.

(** [struct ScreenUpdate] *)
Record ScreenUpdate : Type := mkScreenUpdate {
  x1 : Z; y1 : Z; x2 : Z; y2 : Z;
  pixels : list Z
}.

(** [struct TouchInput].  The parser declares it without an initialiser, so
    a field that is never assigned holds no defined value: [None]. *)
Record TouchInput : Type := mkTouchInput {
  x : option Z;
  y : option Z;
  pressed : option bool
}.

(** [struct ControllerInput] *)
Record ControllerInput : Type := mkControllerInput {
  lx : Z; ly : Z; rx : Z; ry : Z; buttons : Z
}.

(** The connection flags and the frames written to the socket so far,
    oldest first. *)
Record IPCClient : Type := mkIPCClient {
  _connected : bool;
  _running : bool;
  wire : list string
}.

(** *** Characters and bytes *)

(** The double-quote character. *)
Definition dq : ascii := Eval cbv in ascii_of_nat 34.

(** [static_cast<char>(n)]: the low eight bits of [n]. *)
Definition to_char (n : Z) : ascii := ascii_of_N (Z.to_N (n mod 256)).

(** The value of a byte, [0..255]. *)
Definition byte_val (c : ascii) : Z := Z.of_N (N_of_ascii c).

(** [json.size()] *)
Definition size (s : string) : Z := Z.of_nat (String.length s).

(** *** Outbound framing *)

(** The length prefix chosen by [send_message] for a payload of [n] bytes. *)
Definition length_prefix (n : Z) : string :=
  if n <=? 125 then String (to_char n) EmptyString
  else if n <=? 65535 then
    String (to_char 126)
      (String (to_char (Z.land (Z.shiftr n 8) 255))
         (String (to_char (Z.land n 255)) EmptyString))
  else
    String (to_char 127)
      (string_of_list_ascii
         (map (fun i => to_char (Z.land (Z.shiftr n (i * 8)) 255))
              [7; 6; 5; 4; 3; 2; 1; 0]%Z)).

(** The frame assembled by [send_message]. *)
Definition frame (json : string) : string :=
  String (to_char 129) (length_prefix (size json) ++ json).

(** [IPCClient::send_message] *)
Definition send_message (c : IPCClient) (json : string) : IPCClient :=
  if negb (_connected c) then c
  else mkIPCClient (_connected c) (_running c) (wire c ++ [frame json])%list.

(** A payload of [n] bytes. *)
Fixpoint payload (n : nat) : string :=
  match n with
  | O => EmptyString
  | S n' => String "a" (payload n')
  end.

(** *** Text of numbers

    [operator<<] for an [int] prints its decimal digits, with a leading
    minus sign for a negative value. *)
Definition show_int (n : Z) : string := NilZero.string_of_int (Z.to_int n).

(** The text [operator<<] prints for a double is produced by the standard
    library; the record builders take it as the parameter [show_double].
    [show_double_integral] is that text on doubles without a fractional
    part and of magnitude below one million. *)
Definition show_double_integral (d : Q) : string := show_int (Qfloor d).

(** [key k] is the text [k] between double quotes. *)
Definition quoted (k : string) : string := String dq (k ++ String dq EmptyString).

(** *** Outbound records *)

Section Records.
Variable show_double : Q -> string.

(** The text assembled by [send_motor_telemetry]. *)
Definition motor_telemetry_text (port voltage : Z) (velocity position : Q) : string :=
  "{" ++ quoted "type" ++ ":" ++ quoted "motor" ++ "," ++ quoted "port" ++ ":"
      ++ show_int port
      ++ "," ++ quoted "voltage" ++ ":" ++ show_int voltage
      ++ "," ++ quoted "velocity" ++ ":" ++ show_double velocity
      ++ "," ++ quoted "position" ++ ":" ++ show_double position ++ "}".

(** [IPCClient::send_motor_telemetry] *)
Definition send_motor_telemetry (c : IPCClient) (port voltage : Z)
    (velocity position : Q) : IPCClient :=
  send_message c (motor_telemetry_text port voltage velocity position).

End Records.

(** *** Inbound decoding *)

(** [s.find(needle, pos)]; [None] is [std::string::npos]. *)
Definition find (s needle : string) (pos : nat) : option nat := index pos needle s.

(** [s.substr(pos)] and [s.substr(pos, len)] for [pos <= s.size()]. *)
Definition substr_from (s : string) (pos : nat) : string :=
  substring pos (String.length s - pos) s.
Definition substr (s : string) (pos len : nat) : string := substring pos len s.

(** [s.substr(start, end - start)] where [end] is the result of a search:
    when the search failed, [end] is [npos] and the count reaches past the
    end of the string. *)
Definition substr_until (s : string) (start : nat) (stop : option nat) : string :=
  match stop with
  | Some e => substr s start (e - start)
  | None => substr_from s start
  end.

Inductive exn : Type := invalid_argument | out_of_range.

Inductive result (A : Type) : Type :=
  | Ok (a : A)
  | Throw (e : exn).
Arguments Ok {A} a.
Arguments Throw {A} e.

Definition bind {A B : Type} (r : result A) (k : A -> result B) : result B :=
  match r with
  | Ok a => k a
  | Throw e => Throw e
  end.

(** [std::isspace] in the C locale. *)
Definition isspace (c : ascii) : bool :=
  let n := nat_of_ascii c in
  (n =? 32)%nat || ((9 <=? n)%nat && (n <=? 13)%nat).

Definition digit_of (c : ascii) : option Z :=
  let n := nat_of_ascii c in
  if ((48 <=? n)%nat && (n <=? 57)%nat)%bool then Some (Z.of_nat n - 48) else None.

Fixpoint skip_spaces (s : string) : string :=
  match s with
  | String c s' => if isspace c then skip_spaces s' else s
  | EmptyString => s
  end.

(** The value of the longest prefix of decimal digits; [None] when the text
    does not start with a digit. *)
Fixpoint read_digits (acc : option Z) (s : string) : option Z :=
  match s with
  | String c s' =>
      match digit_of c with
      | Some d => read_digits (Some (default 0 acc * 10 + d)) s'
      | None => acc
      end
  | EmptyString => acc
  end.

(** [std::stoi(s)]: leading white space, an optional sign, decimal digits.
    It throws [invalid_argument] when no digit is found and [out_of_range]
    when the value does not fit an [int]. *)
Definition stoi (s : string) : result Z :=
  let s := skip_spaces s in
  let '(negative, s) :=
    match s with
    | String "-" s' => (true, s')
    | String "+" s' => (false, s')
    | _ => (false, s)
    end in
  match read_digits None s with
  | None => Throw invalid_argument
  | Some v =>
      let v := if negative then - v else v in
      if ((-2147483648 <=? v) && (v <=? 2147483647))%bool then Ok v
      else Throw out_of_range
  end.

(** Conversion of an [int] to [int16_t]. *)
Definition to_int16 (v : Z) : Z := (v + 32768) mod 65536 - 32768.

(** The callback a decode pass invokes, with its arguments. *)
Inductive Dispatch : Type :=
  | touch_callback (input : TouchInput)
  | controller_callback (input : ControllerInput)
  | mode_callback (mode : string)
  | auto_select_callback (category : string) (index : Z).

(** Which callbacks are registered. *)
Record Callbacks : Type := mkCallbacks {
  _touch_callback : bool;
  _controller_callback : bool;
  _mode_callback : bool;
  _auto_select_callback : bool
}.

Definition all_callbacks : Callbacks := mkCallbacks true true true true.

Definition found (o : option nat) : bool :=
  match o with Some _ => true | None => false end.

Definition probe_touch : string := quoted "type" ++ ":" ++ quoted "touch".
Definition probe_controller : string := quoted "type" ++ ":" ++ quoted "controller".
Definition probe_mode : string := quoted "type" ++ ":" ++ quoted "mode".
Definition probe_select_auto : string := quoted "type" ++ ":" ++ quoted "select_auto".

(** [IPCClient::parse_message]: the callback invoked for [json], if any, or
    the exception that escapes. *)
Definition parse_message (cb : Callbacks) (json : string) : result (option Dispatch) :=
  if found (find json probe_touch 0) then
    if _touch_callback cb then
      let xpos := find json (quoted "x" ++ ":") 0 in
      let ypos := find json (quoted "y" ++ ":") 0 in
      let ppos := find json (quoted "pressed" ++ ":") 0 in
      bind (match xpos with
            | Some p => bind (stoi (substr_from json (p + 4)))
                             (fun v => Ok (Some (to_int16 v)))
            | None => Ok None
            end) (fun ix =>
      bind (match ypos with
            | Some p => bind (stoi (substr_from json (p + 4)))
                             (fun v => Ok (Some (to_int16 v)))
            | None => Ok None
            end) (fun iy =>
      let ip := match ppos with
                | Some p => Some (String.eqb (substr json (p + 10) 4) "true")
                | None => None
                end in
      Ok (Some (touch_callback (mkTouchInput ix iy ip)))))
    else Ok None
  else if found (find json probe_controller 0) then
    if _controller_callback cb then
      Ok (Some (controller_callback (mkControllerInput 0 0 0 0 0)))
    else Ok None
  else if found (find json probe_mode 0) then
    if _mode_callback cb then
      match find json (quoted "value" ++ ":" ++ String dq EmptyString) 0 with
      | Some vpos =>
          let start := (vpos + 9)%nat in
          let stop := find json (String dq EmptyString) start in
          Ok (Some (mode_callback (substr_until json start stop)))
      | None => Ok None
      end
    else Ok None
  else if found (find json probe_select_auto 0) then
    if _auto_select_callback cb then
      match find json (quoted "category" ++ ":" ++ String dq EmptyString) 0,
            find json (quoted "index" ++ ":") 0 with
      | Some cpos, Some ipos =>
          let cstart := (cpos + 12)%nat in
          let cend := find json (String dq EmptyString) cstart in
          let category := substr_until json cstart cend in
          bind (stoi (substr_from json (ipos + 8))) (fun index =>
          Ok (Some (auto_select_callback category index)))
      | _, _ => Ok None
      end
    else Ok None
  else Ok None.

(** A decode pass recovers a record from [json]: a callback is invoked. *)
Definition decodes (cb : Callbacks) (json : string) : Prop :=
  exists d : Dispatch, parse_message cb json = Ok (Some d).

(** The bytes of a text, as numbers. *)
Definition bytes (s : string) : list Z := map byte_val (list_ascii_of_string s).

(** The characters of a text are all different from the double quote. *)
Fixpoint quote_free (s : string) : bool :=
  match s with
  | EmptyString => true
  | String c s' => negb (Ascii.eqb c dq) && quote_free s'
  end.


(** *** Base64 and JSON text helpers *)

Definition base64_chars : string :=
  "ABCDEFGHIJKLMNOPQRSTUVWXYZabcdefghijklmnopqrstuvwxyz0123456789+/".

(** [base64_chars[i]] *)
Definition base64_char (i : Z) : ascii :=
  match String.get (Z.to_nat i) base64_chars with
  | Some c => c
  | None => "="%char
  end.

(** [base64_encode]: each pass of the loop consumes up to three bytes,
    packs them in a 32-bit word [n] and emits four characters. *)
Fixpoint base64_encode (data : list Z) : string :=
  match data with
  | [] => EmptyString
  | [a] =>
      let n := Z.shiftl a 16 in
      String (base64_char (Z.land (Z.shiftr n 18) 63))
        (String (base64_char (Z.land (Z.shiftr n 12) 63))
           (String "=" (String "=" EmptyString)))
  | [a; b] =>
      let n := Z.lor (Z.shiftl a 16) (Z.shiftl b 8) in
      String (base64_char (Z.land (Z.shiftr n 18) 63))
        (String (base64_char (Z.land (Z.shiftr n 12) 63))
           (String (base64_char (Z.land (Z.shiftr n 6) 63))
              (String "=" EmptyString)))
  | a :: b :: c :: rest =>
      let n := Z.lor (Z.lor (Z.shiftl a 16) (Z.shiftl b 8)) c in
      String (base64_char (Z.land (Z.shiftr n 18) 63))
        (String (base64_char (Z.land (Z.shiftr n 12) 63))
           (String (base64_char (Z.land (Z.shiftr n 6) 63))
              (String (base64_char (Z.land n 63)) (base64_encode rest))))
  end.

(** The position of a character in [base64_chars]. *)
Fixpoint position_in (c : ascii) (s : string) : option Z :=
  match s with
  | EmptyString => None
  | String d s' =>
      if Ascii.eqb c d then Some 0
      else match position_in c s' with
           | Some i => Some (i + 1)
           | None => None
           end
  end.

Definition sextet (c : ascii) : option Z := position_in c base64_chars.

(** The standard decoder for Base64 text (RFC 4648), which the user
    interface applies to the pixel data with [atob] ([app.js]): four
    characters give three bytes, one or two bytes when the group ends with
    padding.  It is not part of [ipc.cpp]; it states what the receiver of
    [base64_encode]'s text computes. *)
Fixpoint base64_decode (s : string) : option (list Z) :=
  match s with
  | EmptyString => Some []
  | String c0 (String c1 (String c2 (String c3 rest))) =>
      match sextet c0, sextet c1 with
      | Some s0, Some s1 =>
          if Ascii.eqb c2 "=" then
            if Ascii.eqb c3 "=" then
              match rest with
              | EmptyString => Some [(s0 * 64 + s1) / 16]
              | _ => None
              end
            else None
          else
            match sextet c2 with
            | None => None
            | Some s2 =>
                if Ascii.eqb c3 "=" then
                  match rest with
                  | EmptyString =>
                      let n := (s0 * 64 + s1) * 64 + s2 in
                      Some [n / 1024; (n / 4) mod 256]
                  | _ => None
                  end
                else
                  match sextet c3, base64_decode rest with
                  | Some s3, Some tail =>
                      let n := ((s0 * 64 + s1) * 64 + s2) * 64 + s3 in
                      Some (n / 65536 :: (n / 256) mod 256 :: n mod 256 :: tail)
                  | _, _ => None
                  end
            end
      | _, _ => None
      end
  | _ => None
  end.

Definition backslash : ascii := Eval cbv in ascii_of_nat 92.
Definition newline : ascii := Eval cbv in ascii_of_nat 10.
Definition carriage_return : ascii := Eval cbv in ascii_of_nat 13.
Definition tab : ascii := Eval cbv in ascii_of_nat 9.

(** What [json_escape] appends for one character. *)
Definition escape_char (c : ascii) : string :=
  if Ascii.eqb c dq then String backslash (String dq EmptyString)
  else if Ascii.eqb c backslash then String backslash (String backslash EmptyString)
  else if Ascii.eqb c newline then String backslash (String "n" EmptyString)
  else if Ascii.eqb c carriage_return then String backslash (String "r" EmptyString)
  else if Ascii.eqb c tab then String backslash (String "t" EmptyString)
  else String c EmptyString.

(** [json_escape] *)
Fixpoint json_escape (s : string) : string :=
  match s with
  | EmptyString => EmptyString
  | String c s' => escape_char c ++ json_escape s'
  end.

(** A left inverse of [json_escape], used to show that [json_escape] is
    one-to-one: it undoes the five escapes and copies every other character.
    It is not part of [ipc.cpp] and it is not a JSON reader: it copies raw
    control characters, which a JSON reader rejects. *)
Fixpoint undo_escape (s : string) : option string :=
  match s with
  | EmptyString => Some EmptyString
  | String c s' =>
      if Ascii.eqb c backslash then
        match s' with
        | String e s'' =>
            let r :=
              if Ascii.eqb e dq then Some dq
              else if Ascii.eqb e backslash then Some backslash
              else if Ascii.eqb e "n" then Some newline
              else if Ascii.eqb e "r" then Some carriage_return
              else if Ascii.eqb e "t" then Some tab
              else None in
            match r, undo_escape s'' with
            | Some d, Some t => Some (String d t)
            | _, _ => None
            end
        | EmptyString => None
        end
      else if Ascii.eqb c dq then None
      else match undo_escape s' with
           | Some t => Some (String c t)
           | None => None
           end
  end.

(** *** The reader of the escaped text

    The records are read by [JSON.parse] ([app.js], [server.js]).  What it
    makes of the text between the quotes of one string literal, by the JSON
    grammar: a quote or a character below U+0020 is a syntax error, a
    backslash starts an escape (of a quote, a backslash, a slash, of the
    letters b, f, n, r, t, or of u with four hexadecimal digits), and every
    other character stands for
    itself.  Characters outside ASCII are not modelled (they take part in
    the UTF-8 decoding of the frame): a text holding one reads as
    [NotAscii] unless it has a syntax error. *)
Inductive string_value : Type :=
  | Text (s : string)
  | SyntaxError
  | NotAscii.

Definition is_control (c : ascii) : bool := (N_of_ascii c <? 32)%N.

Definition is_ascii7 (c : ascii) : bool := (N_of_ascii c <? 128)%N.

Definition hex_value (c : ascii) : option N :=
  let n := N_of_ascii c in
  if (48 <=? n)%N && (n <=? 57)%N then Some (n - 48)%N
  else if (65 <=? n)%N && (n <=? 70)%N then Some (n - 55)%N
  else if (97 <=? n)%N && (n <=? 102)%N then Some (n - 87)%N
  else None.

Definition backspace : ascii := Eval cbv in ascii_of_nat 8.
Definition form_feed : ascii := Eval cbv in ascii_of_nat 12.

Definition simple_escape (e : ascii) : option ascii :=
  if Ascii.eqb e dq then Some dq
  else if Ascii.eqb e backslash then Some backslash
  else if Ascii.eqb e "/" then Some "/"%char
  else if Ascii.eqb e "b" then Some backspace
  else if Ascii.eqb e "f" then Some form_feed
  else if Ascii.eqb e "n" then Some newline
  else if Ascii.eqb e "r" then Some carriage_return
  else if Ascii.eqb e "t" then Some tab
  else None.

Definition push (c : ascii) (r : string_value) : string_value :=
  match r with
  | Text t => Text (String c t)
  | SyntaxError => SyntaxError
  | NotAscii => NotAscii
  end.

Definition not_ascii (r : string_value) : string_value :=
  match r with
  | SyntaxError => SyntaxError
  | _ => NotAscii
  end.

Fixpoint json_string_value (s : string) : string_value :=
  match s with
  | EmptyString => Text EmptyString
  | String c s' =>
      if Ascii.eqb c backslash then
        match s' with
        | String e s'' =>
            if Ascii.eqb e "u" then
              match s'' with
              | String h1 (String h2 (String h3 (String h4 s5))) =>
                  match hex_value h1, hex_value h2, hex_value h3, hex_value h4 with
                  | Some n1, Some n2, Some n3, Some n4 =>
                      let n := (((n1 * 16 + n2) * 16 + n3) * 16 + n4)%N in
                      if (n <? 128)%N then push (ascii_of_N n) (json_string_value s5)
                      else not_ascii (json_string_value s5)
                  | _, _, _, _ => SyntaxError
                  end
              | _ => SyntaxError
              end
            else
              match simple_escape e with
              | Some d => push d (json_string_value s'')
              | None => SyntaxError
              end
        | EmptyString => SyntaxError
        end
      else if Ascii.eqb c dq then SyntaxError
      else if is_control c then SyntaxError
      else if is_ascii7 c then push c (json_string_value s')
      else not_ascii (json_string_value s')
  end.

(** A text of ASCII characters that are printable, a newline, a carriage
    return or a tab. *)
Fixpoint ascii_text (s : string) : bool :=
  match s with
  | EmptyString => true
  | String c s' =>
      is_ascii7 c
      && (negb (is_control c) || Ascii.eqb c newline
          || Ascii.eqb c carriage_return || Ascii.eqb c tab)
      && ascii_text s'
  end.

(** A text without any character that [json_escape] rewrites. *)
Fixpoint plain (s : string) : bool :=
  match s with
  | EmptyString => true
  | String c s' =>
      negb (Ascii.eqb c dq) && negb (Ascii.eqb c backslash)
      && negb (Ascii.eqb c newline) && negb (Ascii.eqb c carriage_return)
      && negb (Ascii.eqb c tab) && plain s'
  end.

(** *** The remaining outbound records *)

(** The text assembled by [send_log]. *)
Definition log_text (level message : string) : string :=
  "{" ++ quoted "type" ++ ":" ++ quoted "log" ++ "," ++ quoted "level" ++ ":"
      ++ String dq (json_escape level) ++ String dq EmptyString
      ++ "," ++ quoted "msg" ++ ":"
      ++ String dq (json_escape message) ++ String dq EmptyString ++ "}".

(** The text assembled by [send_mode]. *)
Definition mode_text (mode : string) : string :=
  "{" ++ quoted "type" ++ ":" ++ quoted "mode" ++ "," ++ quoted "value" ++ ":"
      ++ String dq (json_escape mode) ++ String dq EmptyString ++ "}".

(** The loop of [send_lcd_update]: the lines between double quotes,
    separated by commas. *)
Fixpoint lcd_items (first : bool) (lines : list string) : string :=
  match lines with
  | [] => EmptyString
  | l :: ls =>
      (if first then EmptyString else ",")
        ++ String dq (json_escape l) ++ String dq EmptyString
        ++ lcd_items false ls
  end.

(** The text assembled by [send_lcd_update]. *)
Definition lcd_text (lines : list string) : string :=
  "{" ++ quoted "type" ++ ":" ++ quoted "lcd" ++ "," ++ quoted "lines" ++ ":["
      ++ lcd_items true lines ++ "]}".

(** The loops of [send_auton_list]. *)
Fixpoint auton_items (first : bool) (names : list string) : string :=
  match names with
  | [] => EmptyString
  | n :: ns =>
      (if first then EmptyString else ",")
        ++ "{" ++ quoted "name" ++ ":"
        ++ String dq (json_escape n) ++ String dq EmptyString ++ "}"
        ++ auton_items false ns
  end.

(** The text assembled by [send_auton_list]. *)
Definition auton_list_text (match_autos skills_autos : list string) : string :=
  "{" ++ quoted "type" ++ ":" ++ quoted "autons" ++ "," ++ quoted "match" ++ ":["
      ++ auton_items true match_autos
      ++ "]," ++ quoted "skills" ++ ":["
      ++ auton_items true skills_autos ++ "]}".

Definition send_log (c : IPCClient) (level message : string) : IPCClient :=
  send_message c (log_text level message).
Definition send_mode (c : IPCClient) (mode : string) : IPCClient :=
  send_message c (mode_text mode).
Definition send_lcd_update (c : IPCClient) (lines : list string) : IPCClient :=
  send_message c (lcd_text lines).
Definition send_auton_list (c : IPCClient) (match_autos skills_autos : list string)
    : IPCClient :=
  send_message c (auton_list_text match_autos skills_autos).

(** *** Reading a frame back

    The receiver of a frame written by [send_message], a reader of unmasked
    WebSocket text frames (RFC 6455): the first byte is 0x81, the second
    announces the payload length or one of the two extended forms, and the
    payload is what follows, all of it.  It is not part of [ipc.cpp]; it
    states what the peer of [send_message] computes. *)
Definition exactly (n : Z) (s : string) : option string :=
  if size s =? n then Some s else None.

Definition read_frame (f : string) : option string :=
  match f with
  | String op (String l rest) =>
      if byte_val op =? 129 then
        if byte_val l <=? 125 then exactly (byte_val l) rest
        else if byte_val l =? 126 then
          match rest with
          | String b1 (String b0 body) =>
              exactly (byte_val b1 * 256 + byte_val b0) body
          | _ => None
          end
        else if byte_val l =? 127 then
          match rest with
          | String b7 (String b6 (String b5 (String b4 (String b3 (String b2
              (String b1 (String b0 body))))))) =>
              exactly
                (((((((byte_val b7 * 256 + byte_val b6) * 256 + byte_val b5) * 256
                     + byte_val b4) * 256 + byte_val b3) * 256 + byte_val b2) * 256
                  + byte_val b1) * 256 + byte_val b0) body
          | _ => None
          end
        else None
      else None
  | _ => None
  end.

(** *** Messages of the user interface

    The texts [JSON.stringify] prints for the objects the user interface
    sends ([app.js]): [{type: 'touch', x, y, pressed}] and
    [{type: 'select_auto', category, index}].  A mode change
    [{type: 'mode', value}] has the text of [mode_text]. *)
Definition show_bool (b : bool) : string := if b then "true" else "false".

Definition ui_touch_text (x y : Z) (pressed : bool) : string :=
  "{" ++ quoted "type" ++ ":" ++ quoted "touch" ++ "," ++ quoted "x" ++ ":"
      ++ show_int x ++ "," ++ quoted "y" ++ ":" ++ show_int y
      ++ "," ++ quoted "pressed" ++ ":" ++ show_bool pressed ++ "}".

Definition ui_select_auto_text (category : string) (index : Z) : string :=
  "{" ++ quoted "type" ++ ":" ++ quoted "select_auto" ++ ","
      ++ quoted "category" ++ ":" ++ String dq (json_escape category)
      ++ String dq EmptyString ++ "," ++ quoted "index" ++ ":"
      ++ show_int index ++ "}".

Definition no_callbacks : Callbacks := mkCallbacks false false false false.

(** The value of a decimal numeral read from the left, starting from
    [acc]. *)
Fixpoint horner (u : Decimal.uint) (acc : Z) : Z :=
  match u with
  | Decimal.Nil => acc
  | Decimal.D0 l => horner l (acc * 10 + 0)
  | Decimal.D1 l => horner l (acc * 10 + 1)
  | Decimal.D2 l => horner l (acc * 10 + 2)
  | Decimal.D3 l => horner l (acc * 10 + 3)
  | Decimal.D4 l => horner l (acc * 10 + 4)
  | Decimal.D5 l => horner l (acc * 10 + 5)
  | Decimal.D6 l => horner l (acc * 10 + 6)
  | Decimal.D7 l => horner l (acc * 10 + 7)
  | Decimal.D8 l => horner l (acc * 10 + 8)
  | Decimal.D9 l => horner l (acc * 10 + 9)
  end.

(** The text does not start with a decimal digit. *)
Definition no_leading_digit (s : string) : bool :=
  match s with
  | EmptyString => true
  | String c _ => match digit_of c with Some _ => false | None => true end
  end.

(** Character [i] of the alphabet is at position [i] and is not the padding
    character. *)
Definition alphabet_check (i : Z) : bool :=
  match sextet (base64_char i) with
  | Some j => (i =? j) && negb (Ascii.eqb (base64_char i) "=")
  | None => false
  end.


(** The character [c] does not occur in the text. *)
Fixpoint char_free (c : ascii) (s : string) : bool :=
  match s with
  | EmptyString => true
  | String d s' => negb (Ascii.eqb d c) && char_free c s'
  end.

(** The range test of [stoi]. *)
Definition in_int_range (v : Z) : bool :=
  (-2147483648 <=? v) && (v <=? 2147483647).

(** The head of a mode message, up to the opening quote of the value. *)
Definition mode_head : string :=
  Eval cbv in
    ("{" ++ quoted "type" ++ ":" ++ quoted "mode" ++ "," ++ quoted "value" ++ ":"
         ++ String dq EmptyString).

(** The head of a selection message, up to the opening quote of the
    category. *)
Definition select_auto_head : string :=
  Eval cbv in
    ("{" ++ quoted "type" ++ ":" ++ quoted "select_auto" ++ ","
         ++ quoted "category" ++ ":" ++ String dq EmptyString).

(** *** The screen record

    [send_screen_update] passes [update.pixels.data()] to [base64_encode]
    through [reinterpret_cast<const uint8_t*>]: on a little-endian host
    each 16-bit pixel contributes its low byte, then its high byte. *)
Definition pixel_bytes (px : list Z) : list Z :=
  flat_map (fun p => [Z.land p 255; Z.land (Z.shiftr p 8) 255]) px.

(** The text assembled by [send_screen_update]. *)
Definition screen_text (u : ScreenUpdate) : string :=
  "{" ++ quoted "type" ++ ":" ++ quoted "screen"
      ++ "," ++ quoted "x1" ++ ":" ++ show_int (x1 u)
      ++ "," ++ quoted "y1" ++ ":" ++ show_int (y1 u)
      ++ "," ++ quoted "x2" ++ ":" ++ show_int (x2 u)
      ++ "," ++ quoted "y2" ++ ":" ++ show_int (y2 u)
      ++ "," ++ quoted "data" ++ ":"
      ++ String dq (base64_encode (pixel_bytes (pixels u)))
      ++ String dq "}".

Definition send_screen_update (c : IPCClient) (u : ScreenUpdate) : IPCClient :=
  send_message c (screen_text u).

(** *** Further messages of the user interface

    [sendControllerState] sends
    [{type: 'controller', analog: {lx, ly, rx, ry}, digital: buttons}] and
    [sendLCDButton] sends [{type: 'lcd_button', button, pressed}]
    ([app.js]). *)
Definition ui_controller_text (lx ly rx ry digital : Z) : string :=
  "{" ++ quoted "type" ++ ":" ++ quoted "controller" ++ ","
      ++ quoted "analog" ++ ":{"
      ++ quoted "lx" ++ ":" ++ show_int lx ++ ","
      ++ quoted "ly" ++ ":" ++ show_int ly ++ ","
      ++ quoted "rx" ++ ":" ++ show_int rx ++ ","
      ++ quoted "ry" ++ ":" ++ show_int ry ++ "},"
      ++ quoted "digital" ++ ":" ++ show_int digital ++ "}".

Definition ui_lcd_button_text (button : Z) (pressed : bool) : string :=
  "{" ++ quoted "type" ++ ":" ++ quoted "lcd_button" ++ ","
      ++ quoted "button" ++ ":" ++ show_int button ++ ","
      ++ quoted "pressed" ++ ":" ++ show_bool pressed ++ "}".

End IPC.

(** * Display bridge ([host::Display]) *)

Module LVGL.

(** [lv_area_t]; the coordinates are [lv_coord_t], a 16-bit signed integer. *)
Record lv_area_t : Type := mk_area {
  x1 : Z; y1 : Z; x2 : Z; y2 : Z
}.

End LVGL.

Module Display.

Definition WIDTH : Z := 480.
Definition HEIGHT : Z := 272.
Definition BUFFER_SIZE : Z := WIDTH * HEIGHT.

(** The members of [class Display] that the flush and touch paths use. *)
Record Display : Type := mkDisplay {
  _initialized : bool;
  _framebuffer : list Z;
  _touch_x : Z;
  _touch_y : Z;
  _touch_pressed : bool
}.

(** [Display::Display()]: the framebuffer is zero-filled. *)
Definition constructed : Display :=
  mkDisplay false (replicate (Z.to_nat BUFFER_SIZE) 0) 0 0 false.

(** [Display::set_touch] *)
Definition set_touch (self : Display) (x y : Z) (pressed : bool) : Display :=
  mkDisplay (_initialized self) (_framebuffer self) x y pressed.

(** A store to, and a load from, element [i] of an array.  An index outside
    the array has no defined behaviour: the result is [None]. *)
Definition store (a : list Z) (i v : Z) : option (list Z) :=
  if (0 <=? i) && (i <? Z.of_nat (length a)) then Some (<[Z.to_nat i := v]> a)
  else None.

Definition load (a : list Z) (i : Z) : option Z :=
  if (0 <=? i) && (i <? Z.of_nat (length a)) then a !! Z.to_nat i else None.

(** [for (v = lo; v <= hi; v++)]: the values the loop variable takes. *)
Definition range (lo hi : Z) : list Z := seqZ lo (hi - lo + 1).

(** Running a loop body over the values of the loop variable, threading the
    state; the loop stops at the first undefined step. *)
Fixpoint for_each {S : Type} (vs : list Z) (body : Z -> S -> option S) (st : S)
    : option S :=
  match vs with
  | [] => Some st
  | v :: vs' =>
      match body v st with
      | Some st' => for_each vs' body st'
      | None => None
      end
  end.

(** The bounds test of both loops of [disp_flush_cb]. *)
Definition in_canvas (x y : Z) : bool :=
  (0 <=? x) && (x <? WIDTH) && (0 <=? y) && (y <? HEIGHT).

(** [color_p->full] at offset [p] of the caller's pixel buffer. *)
Definition color_at (color_p : list Z) (p : nat) : Z := default 0 (color_p !! p).

(** The body of the inner copy loop: the state is the framebuffer and the
    offset reached by [color_p]. *)
Definition copy_cell (color_p : list Z) (y x : Z) (st : list Z * nat)
    : option (list Z * nat) :=
  let '(fb, p) := st in
  if in_canvas x y then
    match store fb (y * WIDTH + x) (color_at color_p p) with
    | Some fb' => Some (fb', S p)
    | None => None
    end
  else Some (fb, S p).

(** The first pair of loops of [disp_flush_cb]. *)
Definition copy_to_framebuffer (area : LVGL.lv_area_t) (color_p : list Z)
    (fb : list Z) : option (list Z * nat) :=
  for_each (range (LVGL.y1 area) (LVGL.y2 area))
    (fun y st =>
       for_each (range (LVGL.x1 area) (LVGL.x2 area)) (copy_cell color_p y) st)
    (fb, 0%nat).

(** The body of the inner loop that fills [update.pixels]. *)
Definition gather_cell (fb : list Z) (y x : Z) (px : list Z) : option (list Z) :=
  if in_canvas x y then
    match load fb (y * WIDTH + x) with
    | Some v => Some (px ++ [v])
    | None => None
    end
  else Some px.

(** The second pair of loops of [disp_flush_cb]. *)
Definition gather_pixels (area : LVGL.lv_area_t) (fb : list Z) : option (list Z) :=
  for_each (range (LVGL.y1 area) (LVGL.y2 area))
    (fun y px =>
       for_each (range (LVGL.x1 area) (LVGL.x2 area)) (gather_cell fb y) px)
    [].

(** [Display::disp_flush_cb]: the display after the flush and the record
    handed to [IPCClient::send_screen_update], if the transport is
    connected.  [None] stands for an access outside the framebuffer. *)
Definition disp_flush_cb (self : Display) (ipc_connected : bool)
    (area : LVGL.lv_area_t) (color_p : list Z)
    : option (Display * option IPC.ScreenUpdate) :=
  match copy_to_framebuffer area color_p (_framebuffer self) with
  | None => None
  | Some (fb', _) =>
      let self' := mkDisplay (_initialized self) fb' (_touch_x self)
                             (_touch_y self) (_touch_pressed self) in
      if ipc_connected then
        match gather_pixels area fb' with
        | Some px =>
            Some (self', Some (IPC.mkScreenUpdate (LVGL.x1 area) (LVGL.y1 area)
                                                  (LVGL.x2 area) (LVGL.y2 area) px))
        | None => None
        end
      else Some (self', None)
  end.

(** [IPCClient::send_full_screen]: the record it builds from a full
    framebuffer. *)
Definition full_screen_update (pixels : list Z) : IPC.ScreenUpdate :=
  IPC.mkScreenUpdate 0 0 479 271 (take (Z.to_nat (480 * 272)) pixels).

(** The ScreenDamageRecord invariant: the rectangle lies within the canvas
    and carries one pixel per covered cell. *)
Definition record_ok (u : IPC.ScreenUpdate) : Prop :=
  0 <= IPC.x1 u /\ IPC.x1 u <= IPC.x2 u /\ IPC.x2 u < WIDTH /\
  0 <= IPC.y1 u /\ IPC.y1 u <= IPC.y2 u /\ IPC.y2 u < HEIGHT /\
  Z.of_nat (length (IPC.pixels u)) =
    (IPC.x2 u - IPC.x1 u + 1) * (IPC.y2 u - IPC.y1 u + 1).

(** The cell [(x, y)] is covered by the rectangle. *)
Definition covers (area : LVGL.lv_area_t) (x y : Z) : Prop :=
  LVGL.x1 area <= x <= LVGL.x2 area /\ LVGL.y1 area <= y <= LVGL.y2 area.

(** The framebuffer slot of cell [(x, y)]. *)
Definition cell_index (x y : Z) : nat := Z.to_nat (y * WIDTH + x).

(** The offset of the source pixel of cell [(x, y)] in row-major order. *)
Definition source_offset (area : LVGL.lv_area_t) (x y : Z) : nat :=
  Z.to_nat ((y - LVGL.y1 area) * (LVGL.x2 area - LVGL.x1 area + 1)
            + (x - LVGL.x1 area)).

(** A flush that reaches two columns past the right edge of the canvas, with
    its eight source pixels. *)
Definition edge_area : LVGL.lv_area_t := LVGL.mk_area 478 0 481 1.
Definition edge_colors : list Z := [1; 2; 3; 4; 5; 6; 7; 8].

(** The record handed to the transport by a flush, if any. *)
Definition emitted (r : option (Display * option IPC.ScreenUpdate))
    : option IPC.ScreenUpdate :=
  match r with
  | Some (_, Some u) => Some u
  | _ => None
  end.

(** [lv_indev_state_t] *)
Inductive lv_indev_state_t : Type := LV_INDEV_STATE_REL | LV_INDEV_STATE_PR.

(** [Display::touch_read_cb]: the point and the state written to the input
    device data. *)
Definition touch_read_cb (self : Display) : Z * Z * lv_indev_state_t :=
  (_touch_x self, _touch_y self,
   if _touch_pressed self then LV_INDEV_STATE_PR else LV_INDEV_STATE_REL).

(** The source pixels of the covered cells, row by row. *)
Definition source_pixels (area : LVGL.lv_area_t) (color_p : list Z) : list Z :=
  flat_map
    (fun y => map (fun x => color_at color_p (source_offset area x y))
                  (range (LVGL.x1 area) (LVGL.x2 area)))
    (range (LVGL.y1 area) (LVGL.y2 area)).

End Display.

(** * Mode orchestrator (the main loop of [main.cpp]) *)

Module Orchestrator.
Import HAL.

Local Open Scope string_scope.
Local Open Scope Z_scope.

(** The function a mode-execution thread runs. *)
Inductive routine : Type := autonomous | opcontrol.

(** An operating-system thread started by [new std::thread(f)]: it is
    [Running] until its function returns. *)
Inductive thread_status : Type := Running | Returned.

Record os_thread : Type := mkThread {
  entry : routine;
  status : thread_status
}.

(** The state of the process as the main loop sees it.
    - [hal] is the store, [current_mode] the atomic global of [main.cpp];
    - [last_mode] and [mode_thread] are the locals of [main]; [mode_thread]
      is [None] for [nullptr], otherwise the index in [threads] of the
      thread owned by the [std::thread] object it points to;
    - [threads] lists every mode-execution thread started so far;
    - [disabled_calls] counts the inline calls of [disabled()];
    - [terminated] records that [std::terminate] was called.  The loop never
      joins or detaches the object behind [mode_thread], so it is joinable
      whenever it exists, and destroying a joinable [std::thread] calls
      [std::terminate]. *)
Record state : Type := mkState {
  hal : HAL;
  current_mode : RobotMode;
  last_mode : RobotMode;
  mode_thread : option nat;
  threads : list os_thread;
  disabled_calls : nat;
  terminated : bool
}.

Definition initial (h : HAL) : state :=
  mkState h DISABLED DISABLED None [] 0 false.

(** [on_mode_change], the mode callback of the transport, taken as one
    step: both writes happen with nothing in between.  [Receiver] splits
    the two writes. *)
Definition on_mode_change (mode : string) (st : state) : state :=
  if terminated st then st
  else if String.eqb mode "disabled" then
    mkState (set_robot_mode (hal st) DISABLED) DISABLED (last_mode st)
            (mode_thread st) (threads st) (disabled_calls st) (terminated st)
  else if String.eqb mode "autonomous" then
    mkState (set_robot_mode (hal st) AUTONOMOUS) AUTONOMOUS (last_mode st)
            (mode_thread st) (threads st) (disabled_calls st) (terminated st)
  else if String.eqb mode "opcontrol" then
    mkState (set_robot_mode (hal st) OPCONTROL) OPCONTROL (last_mode st)
            (mode_thread st) (threads st) (disabled_calls st) (terminated st)
  else st.

Definition RobotMode_eqb (a b : RobotMode) : bool :=
  match a, b with
  | DISABLED, DISABLED | AUTONOMOUS, AUTONOMOUS | OPCONTROL, OPCONTROL => true
  | _, _ => false
  end.

(** [if (mode_thread) delete mode_thread; mode_thread = new std::thread(f);] *)
Definition respawn (f : routine) (st : state) : state :=
  match mode_thread st with
  | Some _ =>
      mkState (hal st) (current_mode st) (last_mode st) (mode_thread st)
              (threads st) (disabled_calls st) true
  | None =>
      mkState (hal st) (current_mode st) (last_mode st)
              (Some (length (threads st)))
              (threads st ++ [mkThread f Running]) (disabled_calls st)
              (terminated st)
  end.

Definition set_last_mode (mode : RobotMode) (st : state) : state :=
  if terminated st then st
  else mkState (hal st) (current_mode st) mode (mode_thread st) (threads st)
               (disabled_calls st) (terminated st).

(** One iteration of [while (running)]. *)
Definition tick (st : state) : state :=
  if terminated st then st
  else
    let st := mkState (update (hal st)) (current_mode st) (last_mode st)
                      (mode_thread st) (threads st) (disabled_calls st)
                      (terminated st) in
    let mode := current_mode st in
    if negb (RobotMode_eqb mode (last_mode st)) then
      let st :=
        match mode with
        | DISABLED =>
            mkState (hal st) (current_mode st) (last_mode st) (mode_thread st)
                    (threads st) (S (disabled_calls st)) (terminated st)
        | AUTONOMOUS => respawn autonomous st
        | OPCONTROL => respawn opcontrol st
        end in
      set_last_mode mode st
    else st.

(** The function of thread [i] returns. *)
Definition thread_returns (i : nat) (st : state) : state :=
  if terminated st then st
  else mkState (hal st) (current_mode st) (last_mode st) (mode_thread st)
               (alter (fun t => mkThread (entry t) Returned) i (threads st))
               (disabled_calls st) (terminated st).

(** What can happen to the process, in any order. *)
Inductive event : Type :=
  | ModeMessage (mode : string)
  | Tick
  | ThreadReturns (i : nat).

Definition step (st : state) (e : event) : state :=
  match e with
  | ModeMessage mode => on_mode_change mode st
  | Tick => tick st
  | ThreadReturns i => thread_returns i st
  end.

Definition run (st : state) (es : list event) : state := fold_left step es st.

Definition is_running (t : os_thread) : bool :=
  match status t with Running => true | Returned => false end.

(** The number of mode-execution threads alive: none once the process is
    gone, otherwise those whose function has not returned. *)
Definition alive (st : state) : nat :=
  if terminated st then 0%nat else length (filter (fun t => is_running t = true) (threads st)).

(** The loop owns at most one thread object, and creates a thread only when
    it owns none: either the process is gone, or no thread was ever started,
    or exactly one was and [mode_thread] points to it. *)
Definition single_owner (st : state) : Prop :=
  terminated st = true \/
  (mode_thread st = None /\ threads st = []) \/
  (mode_thread st = Some 0%nat /\ length (threads st) = 1%nat).

End Orchestrator.

(** * The receive thread beside the main loop

    [on_mode_change] is called by [parse_message] on the receive thread of
    the transport ([IPCClient::receive_thread]); [process_messages] in the
    main loop does nothing.  The two writes of [on_mode_change], the store
    to the atomic [current_mode] and the call of [HAL::set_robot_mode], are
    separate steps with no lock in common with the main loop, so iterations
    of the loop can run between them.  An iteration reads [current_mode]
    once and never reads the mode kept by the store, so it is one step
    here. *)

Module Receiver.
Import HAL.

Local Open Scope string_scope.

(** The process: the state the main loop sees, and the mode the receive
    thread has stored in [current_mode] but not yet passed to
    [set_robot_mode] ([None] between two messages). *)
Record state : Type := mkState {
  main : Orchestrator.state;
  pending : option RobotMode
}.

Definition initial (h : HAL) : state := mkState (Orchestrator.initial h) None.

(** The mode a message names; [on_mode_change] ignores any other name. *)
Definition mode_of_name (mode : string) : option RobotMode :=
  if String.eqb mode "disabled" then Some DISABLED
  else if String.eqb mode "autonomous" then Some AUTONOMOUS
  else if String.eqb mode "opcontrol" then Some OPCONTROL
  else None.

(** The first write of [on_mode_change]: [current_mode = X].  The receive
    thread handles one message at a time, so it takes up a message only
    when no call is pending. *)
Definition store_current_mode (mode : string) (st : state) : state :=
  if Orchestrator.terminated (main st) then st
  else
    match pending st, mode_of_name mode with
    | None, Some X =>
        mkState
          (Orchestrator.mkState
             (Orchestrator.hal (main st)) X
             (Orchestrator.last_mode (main st))
             (Orchestrator.mode_thread (main st))
             (Orchestrator.threads (main st))
             (Orchestrator.disabled_calls (main st))
             (Orchestrator.terminated (main st)))
          (Some X)
    | _, _ => st
    end.

(** The second write of [on_mode_change]:
    [HAL::instance().set_robot_mode(X)]. *)
Definition call_set_robot_mode (st : state) : state :=
  if Orchestrator.terminated (main st) then st
  else
    match pending st with
    | Some X =>
        mkState
          (Orchestrator.mkState
             (set_robot_mode (Orchestrator.hal (main st)) X)
             (Orchestrator.current_mode (main st))
             (Orchestrator.last_mode (main st))
             (Orchestrator.mode_thread (main st))
             (Orchestrator.threads (main st))
             (Orchestrator.disabled_calls (main st))
             (Orchestrator.terminated (main st)))
          None
    | None => st
    end.

(** What can happen to the process, in any order. *)
Inductive event : Type :=
  | StoreCurrentMode (mode : string)
  | CallSetRobotMode
  | Tick
  | ThreadReturns (i : nat).

Definition step (st : state) (e : event) : state :=
  match e with
  | StoreCurrentMode mode => store_current_mode mode st
  | CallSetRobotMode => call_set_robot_mode st
  | Tick => mkState (Orchestrator.tick (main st)) (pending st)
  | ThreadReturns i => mkState (Orchestrator.thread_returns i (main st)) (pending st)
  end.

Definition run (st : state) (es : list event) : state := fold_left step es st.

(** The two modes agree between messages; while a call is pending the mode
    to be passed is already in [current_mode]. *)
Definition modes_in_step (st : state) : Prop :=
  match pending st with
  | None =>
      get_robot_mode (Orchestrator.hal (main st))
      = Orchestrator.current_mode (main st)
  | Some X => Orchestrator.current_mode (main st) = X
  end.

End Receiver.

(** * The motor wrapper ([pros::Motor], [motors.cpp]) *)

Module Motor.
Import HAL.

Local Open Scope Z_scope.

Inductive motor_brake_mode_e_t : Type :=
  | E_MOTOR_BRAKE_COAST
  | E_MOTOR_BRAKE_BRAKE
  | E_MOTOR_BRAKE_HOLD
  | E_MOTOR_BRAKE_INVALID.

Inductive motor_encoder_units_e_t : Type :=
  | E_MOTOR_ENCODER_DEGREES
  | E_MOTOR_ENCODER_ROTATIONS
  | E_MOTOR_ENCODER_COUNTS
  | E_MOTOR_ENCODER_INVALID.

(** The members of [class Motor]. *)
Record Motor : Type := mkMotor {
  _port : Z;
  _gearset : motor_gearset_e_t;
  _reversed : bool;
  _brake_mode : motor_brake_mode_e_t;
  _encoder_units : motor_encoder_units_e_t;
  _current_limit : Z;
  _voltage_limit : Z;
  _zero_position : Q
}.

(** Conversion of an [int] to [int8_t]. *)
Definition to_int8 (v : Z) : Z := (v + 128) mod 256 - 128.

(** The value fits an [int32_t]. *)
Definition in_int32 (v : Z) : bool := (-2147483648 <=? v) && (v <=? 2147483647).

(** [Motor::Motor(port, gearset, reverse)]: the object and the store after
    the three registrations.  [port] is an [int8_t]. *)
Definition new (h : HAL) (port : Z) (gearset : motor_gearset_e_t) (reverse : bool)
    : Motor * HAL :=
  let p := if port <? 0 then to_int8 (- port) else port in
  let r := if port <? 0 then negb reverse else reverse in
  let p := if p <? 1 then 1 else p in
  let p := if 21 <? p then 21 else p in
  let h := set_motor_gearset h p gearset in
  let h := set_motor_reversed h p r in
  let h := set_motor_connected h p true in
  (mkMotor p gearset r E_MOTOR_BRAKE_COAST E_MOTOR_ENCODER_DEGREES 2500 12000 0,
   h).

(** [Motor::move]; it always returns 1. *)
Definition move (self : Motor) (h : HAL) (voltage : Z) : HAL :=
  let voltage := clamp voltage (-127) 127 in
  let voltage := if _reversed self then - voltage else voltage in
  set_motor h (_port self) voltage.

(** [Motor::move_voltage]: the integer division truncates towards zero. *)
Definition move_voltage (self : Motor) (h : HAL) (voltage : Z) : HAL :=
  let voltage := clamp voltage (-12000) 12000 in
  let scaled := Z.quot (voltage * 127) 12000 in
  move self h scaled.

(** [Motor::get_voltage]; [None] when the product overflows an
    [int32_t]. *)
Definition get_voltage (self : Motor) (h : HAL) : option Z :=
  let voltage := get_motor_voltage h (_port self) in
  if in_int32 (voltage * 12000) then Some (Z.quot (voltage * 12000) 127)
  else None.

(** [Motor::get_actual_velocity] *)
Definition get_actual_velocity (self : Motor) (h : HAL) : Q :=
  let vel := get_motor_actual_velocity h (_port self) in
  if _reversed self then (- vel)%Q else vel.

(** [a < b] on doubles. *)
Definition Qlt_bool (a b : Q) : bool := negb (Qle_bool b a).

(** [Motor::get_direction] *)
Definition get_direction (self : Motor) (h : HAL) : Z :=
  let vel := get_actual_velocity self h in
  if Qlt_bool 0.1 vel then 1
  else if Qlt_bool vel (-0.1) then -1
  else 0.

(** [Motor::is_stopped] *)
Definition is_stopped (self : Motor) (h : HAL) : bool :=
  Qlt_bool (Qabs (get_actual_velocity self h)) 0.1.

(** [Motor::get_position] *)
Definition get_position (self : Motor) (h : HAL) : Q :=
  (get_motor_position h (_port self) - _zero_position self)%Q.

(** [Motor::get_target_position] *)
Definition get_target_position (self : Motor) (h : HAL) : Q :=
  get_motor_position h (_port self).

(** [Motor::get_target_velocity] *)
Definition get_target_velocity (self : Motor) (h : HAL) : Z :=
  get_motor_velocity h (_port self).

Definition with_zero_position (self : Motor) (z : Q) : Motor :=
  mkMotor (_port self) (_gearset self) (_reversed self) (_brake_mode self)
          (_encoder_units self) (_current_limit self) (_voltage_limit self) z.

(** [Motor::set_zero_position] *)
Definition set_zero_position (self : Motor) (position : Q) : Motor :=
  with_zero_position self position.

(** [Motor::tare_position] *)
Definition tare_position (self : Motor) (h : HAL) : Motor :=
  with_zero_position self (get_motor_position h (_port self)).

(** [std::abs] on an [int32_t]; it has no defined result for the smallest
    value. *)
Definition abs_int32 (v : Z) : option Z :=
  if v =? -2147483648 then None else Some (Z.abs v).

(** [Motor::move_absolute]: the store after the call, [None] when
    [std::abs(velocity)] has no defined result.  The target position is
    written to the position of the simulated motor. *)
Definition move_absolute (self : Motor) (h : HAL) (position : Q) (velocity : Z)
    : option HAL :=
  let current := get_position self h in
  let diff := (position - current)%Q in
  if Qlt_bool (Qabs diff) 0.1 then Some (set_motor_velocity h (_port self) 0)
  else
    match abs_int32 velocity with
    | None => None
    | Some a =>
        let vel := if Qlt_bool 0 diff then a else - a in
        let vel := if _reversed self then - vel else vel in
        let h := set_motor_velocity h (_port self) vel in
        Some (set_motor_position h (_port self) position)
    end.

(** [Motor::move_relative] *)
Definition move_relative (self : Motor) (h : HAL) (position : Q) (velocity : Z)
    : option HAL :=
  move_absolute self h (get_position self h + position)%Q velocity.

(** [Motor::set_voltage_limit] *)
Definition set_voltage_limit (self : Motor) (limit : Z) : Motor :=
  mkMotor (_port self) (_gearset self) (_reversed self) (_brake_mode self)
          (_encoder_units self) (_current_limit self) (clamp limit 0 12000)
          (_zero_position self).

(** [Motor::get_current_draw] *)
Definition get_current_draw (self : Motor) (h : HAL) : Z :=
  get_motor_current h (_port self).

(** [Motor::is_over_current] *)
Definition is_over_current (self : Motor) (h : HAL) : bool :=
  _current_limit self <? get_current_draw self h.

(** [Motor::is_over_temp] *)
Definition is_over_temp (self : Motor) (h : HAL) : bool :=
  Qlt_bool 55 (get_motor_temperature h (_port self)).

End Motor.

(** * IEEE 754 binary64 arithmetic *)

Module Binary64.

Local Open Scope Z_scope.

(** A C++ [double]: 53 bits of precision, exponents below 1024.  The
    operations are those of the standard library's specification of
    floating-point arithmetic, which round to nearest, ties to even. *)
Definition prec : Z := 53.
Definition emax : Z := 1024.
Definition double : Type := spec_float.

Definition add : double -> double -> double := SFadd prec emax.
Definition sub : double -> double -> double := SFsub prec emax.
Definition mul : double -> double -> double := SFmul prec emax.
Definition div : double -> double -> double := SFdiv prec emax.
Definition neg : double -> double := SFopp.
Definition fabs : double -> double := SFabs.

(** Conversion of an integer to [double]; exact below [2 ^ 53].  A literal
    such as [127.0] is [of_int 127]. *)
Definition of_int (v : Z) : double := binary_normalize prec emax v 0 false.

(** The literal [0.1]: the double nearest to one tenth. *)
Definition one_tenth : double := div (of_int 1) (of_int 10).

(** Neither a NaN nor an infinity. *)
Definition is_finite (x : double) : bool :=
  match x with
  | S754_zero _ | S754_finite _ _ _ => true
  | _ => false
  end.

(** The real number a finite double stands for (0 for a zero of either
    sign; an infinity or a NaN stands for no number and is given 0). *)
Definition value (x : double) : Q :=
  match x with
  | S754_finite s m e => (inject_Z (cond_Zopp s (Zpos m)) * 2 ^ e)%Q
  | _ => 0%Q
  end.

(** [static_cast<int32_t>(x)]: the fractional part is discarded; the
    conversion has no defined result ([None]) for a NaN, an infinity or a
    value whose integer part is not an [int32_t]. *)
Definition static_cast_int32 (x : double) : option Z :=
  match x with
  | S754_zero _ => Some 0
  | S754_finite s m e =>
      let z := cond_Zopp s (if 0 <=? e then Zpos m * 2 ^ e
                            else Zpos m / 2 ^ (- e)) in
      if (-2147483648 <=? z) && (z <=? 2147483647) then Some z else None
  | _ => None
  end.

(** [x == 0.0] *)
Definition is_zero (x : double) : bool :=
  match x with S754_zero _ => true | _ => false end.

(** Two doubles that are opposite numbers: one is the negation of the
    other, or both are zeros (of any sign). *)
Definition opposite (x y : double) : Prop :=
  y = neg x \/ (is_zero x = true /\ is_zero y = true).

(** Two doubles that compare equal ([x == y] in C++) or are the same NaN:
    identical, or both zeros (of any sign). *)
Definition same_number (x y : double) : Prop :=
  x = y \/ (is_zero x = true /\ is_zero y = true).

(** The sign of a double as a factor. *)
Definition sign_of (s : bool) : Q := if s then (-1)%Q else 1%Q.

(** What the rounding function returns for the integer [m2] at exponent
    [e1]: the double of value [m2 * 2 ^ e1] with sign [s], the exponent
    raised by one when the mantissa has reached [2 ^ 53]. *)
Definition represents (s : bool) (m2 e1 : Z) (y : double) : Prop :=
  (m2 = 0 /\ y = S754_zero s) \/
  (exists m3 e3, e1 <= e3 <= e1 + 1 /\ Zpos m3 * 2 ^ (e3 - e1) = m2 /\
     y = if e3 <=? emax - prec then S754_finite s m3 e3 else S754_infinity s).

(** The double is zero or its magnitude is at most [2 ^ k]. *)
Definition at_most (k : Z) (x : double) : bool :=
  match x with
  | S754_zero _ => true
  | S754_finite _ m e => Zpos m <=? 2 ^ (k - e)
  | _ => false
  end.

End Binary64.

(** * The motor array of [host::HAL] in binary64

    The members of [MotorState] with their C++ types: [position],
    [actual_velocity] and [temperature] are doubles, and every operation of
    the physics tick rounds as the machine does. *)

Module HAL64.
Import Binary64.

Local Open Scope Z_scope.

(** [struct MotorState] *)
Record MotorState : Type := mkMotorState {
  voltage : Z;
  velocity : Z;
  position : double;
  actual_velocity : double;
  current : Z;
  temperature : double;
  gearset : HAL.motor_gearset_e_t;
  reversed : bool;
  connected : bool
}.

(** The default member initialisers of [MotorState]. *)
Definition MotorState_default : MotorState :=
  {| voltage := 0; velocity := 0; position := S754_zero false;
     actual_velocity := S754_zero false; current := 0;
     temperature := of_int 25; gearset := HAL.E_MOTOR_GEARSET_18;
     reversed := false; connected := false |}.

Definition max_velocity_of (g : HAL.motor_gearset_e_t) : double :=
  match g with
  | HAL.E_MOTOR_GEARSET_36 => of_int 100
  | HAL.E_MOTOR_GEARSET_18 => of_int 200
  | HAL.E_MOTOR_GEARSET_06 => of_int 600
  | _ => of_int 200
  end.

(** The body of the [for (auto& motor : _motors)] loop of [HAL::update],
    one rounding per operation, in source order.  [None] when the cast to
    [int32_t] has no defined result. *)
Definition update_motor (motor : MotorState) : option MotorState :=
  if negb (connected motor) then Some motor
  else
    let max_velocity := max_velocity_of (gearset motor) in
    let target_velocity :=
      mul (div (of_int (voltage motor)) (of_int 127)) max_velocity in
    let alpha := one_tenth in
    let actual_velocity' :=
      add (mul (actual_velocity motor) (sub (of_int 1) alpha))
          (mul target_velocity alpha) in
    let position' :=
      add (position motor)
          (mul (mul actual_velocity' (div (of_int 10) (of_int 60000)))
               (of_int 360)) in
    match static_cast_int32
            (mul (fabs (div actual_velocity' max_velocity)) (of_int 2000)) with
    | Some current' =>
        let temperature' :=
          add (of_int 25)
              (mul (div (of_int (Z.abs current')) (of_int 2500)) (of_int 30)) in
        Some {| voltage := voltage motor; velocity := velocity motor;
                position := position'; actual_velocity := actual_velocity';
                current := current'; temperature := temperature';
                gearset := gearset motor; reversed := reversed motor;
                connected := connected motor |}
    | None => None
    end.

(** [HAL::update]: the sweep over the motor array, in order. *)
Fixpoint update (motors : list MotorState) : option (list MotorState) :=
  match motors with
  | [] => Some []
  | motor :: rest =>
      match update_motor motor with
      | Some motor' =>
          match update rest with
          | Some rest' => Some (motor' :: rest')
          | None => None
          end
      | None => None
      end
  end.

(** [n] consecutive calls of [HAL::update]. *)
Fixpoint updates (n : nat) (motors : list MotorState) : option (list MotorState) :=
  match n with
  | O => Some motors
  | S k =>
      match update motors with
      | Some motors' => updates k motors'
      | None => None
      end
  end.

(** The array after [HAL::HAL()]. *)
Definition constructed : list MotorState := replicate 21 MotorState_default.

Definition motor_at (motors : list MotorState) (port : Z) : MotorState :=
  default MotorState_default (motors !! Z.to_nat (port - 1)).

Definition set_voltage (v : Z) (m : MotorState) : MotorState :=
  mkMotorState v (velocity m) (position m) (actual_velocity m) (current m)
               (temperature m) (gearset m) (reversed m) (connected m).
Definition set_gearset (g : HAL.motor_gearset_e_t) (m : MotorState) : MotorState :=
  mkMotorState (voltage m) (velocity m) (position m) (actual_velocity m)
               (current m) (temperature m) g (reversed m) (connected m).
Definition set_connected (c : bool) (m : MotorState) : MotorState :=
  mkMotorState (voltage m) (velocity m) (position m) (actual_velocity m)
               (current m) (temperature m) (gearset m) (reversed m) c.

(** [HAL::set_motor] *)
Definition set_motor (motors : list MotorState) (port voltage : Z) : list MotorState :=
  if HAL.bad_port port then motors
  else alter (set_voltage (clamp voltage (-127) 127)) (Z.to_nat (port - 1)) motors.

(** [HAL::set_motor_gearset] *)
Definition set_motor_gearset (motors : list MotorState) (port : Z)
    (g : HAL.motor_gearset_e_t) : list MotorState :=
  if HAL.bad_port port then motors
  else alter (set_gearset g) (Z.to_nat (port - 1)) motors.

(** [HAL::set_motor_connected] *)
Definition set_motor_connected (motors : list MotorState) (port : Z) (c : bool)
    : list MotorState :=
  if HAL.bad_port port then motors
  else alter (set_connected c) (Z.to_nat (port - 1)) motors.

(** [HAL::get_motor_actual_velocity] *)
Definition get_motor_actual_velocity (motors : list MotorState) (port : Z) : double :=
  if HAL.bad_port port then S754_zero false
  else actual_velocity (motor_at motors port).

(** The real-valued quantities the filter is described with: the maximum
    velocity of a gearset, the target velocity [voltage / 127 * max_velocity]
    of a motor, and the distance of its actual velocity to that target. *)
Definition max_velocity_Q (g : HAL.motor_gearset_e_t) : Q :=
  match g with
  | HAL.E_MOTOR_GEARSET_36 => 100
  | HAL.E_MOTOR_GEARSET_18 => 200
  | HAL.E_MOTOR_GEARSET_06 => 600
  | _ => 200
  end%Q.

Definition target (m : MotorState) : Q :=
  (inject_Z (voltage m) / 127 * max_velocity_Q (gearset m))%Q.

Definition distance (m : MotorState) : Q :=
  Qabs (value (actual_velocity m) - target m).

(** A motor holding a voltage that [set_motor] can store and a velocity of
    magnitude at most 1024. *)
Definition in_range (m : MotorState) : Prop :=
  -127 <= voltage m <= 127 /\ at_most 10 (actual_velocity m) = true.

(** The double [target_velocity * alpha] of the tick is finite and within
    [10 ^ -14] of a tenth of the real target. *)
Definition target_ok (g : HAL.motor_gearset_e_t) (v : Z) : bool :=
  let tc := mul (mul (div (of_int v) (of_int 127)) (max_velocity_of g)) one_tenth in
  is_finite tc &&
  Qle_bool (Qabs (value tc - inject_Z v / 127 * max_velocity_Q g / 10))
           (1 # 100000000000000).

Definition targets_ok (g : HAL.motor_gearset_e_t) : bool :=
  forallb (target_ok g) (seqZ (-127) 255).

(** Two motor states that mirror each other: opposite voltages and
    velocities, the same gearset and connection. *)
Definition mirrored (m m' : MotorState) : Prop :=
  voltage m' = - voltage m /\
  opposite (actual_velocity m) (actual_velocity m') /\
  gearset m' = gearset m /\
  connected m' = connected m.

(** Two arrays that are equal except at one index, where the motors mirror
    each other. *)
Inductive mirrored_at : nat -> list MotorState -> list MotorState -> Prop :=
  | mirrored_here m m' rest :
      mirrored m m' -> mirrored_at 0 (m :: rest) (m' :: rest)
  | mirrored_later i m rest rest' :
      mirrored_at i rest rest' -> mirrored_at (S i) (m :: rest) (m :: rest').

(** [Motor::move] on the binary64 array. *)
Definition move (self : Motor.Motor) (motors : list MotorState) (voltage : Z)
    : list MotorState :=
  let voltage := clamp voltage (-127) 127 in
  let voltage := if Motor._reversed self then - voltage else voltage in
  set_motor motors (Motor._port self) voltage.

(** [Motor::get_actual_velocity] on the binary64 array. *)
Definition get_actual_velocity (self : Motor.Motor) (motors : list MotorState)
    : double :=
  let vel := get_motor_actual_velocity motors (Motor._port self) in
  if Motor._reversed self then neg vel else vel.

(** The array with a connected 18:1 motor at rest on port 1. *)
Definition bench_motor : list MotorState := set_motor_connected constructed 1 true.

End HAL64.

(** * The controller wrapper ([pros::Controller], [controller.cpp]) *)

Module Controller.
Import HAL.

Local Open Scope Z_scope.

(** The members of [class Controller]. *)
Record Controller : Type := mkController {
  _id : Z;
  _last_digital_state : list Z
}.

(** [Controller::Controller(id)] *)
Definition new (id : Z) : Controller := mkController id (replicate 18 0).

(** [Controller::get_analog] *)
Definition get_analog (self : Controller) (h : HAL) (channel : Z) : Z :=
  get_controller_analog h (_id self) channel.

(** [Controller::get_digital] *)
Definition get_digital (self : Controller) (h : HAL) (button : Z) : Z :=
  if get_controller_digital h (_id self) button then 1 else 0.

(** [Controller::get_digital_new_press]: the result and the object with
    the remembered state of the button. *)
Definition get_digital_new_press (self : Controller) (h : HAL) (button : Z)
    : Z * Controller :=
  let button_idx := button in
  if (button_idx <? 0) || (18 <=? button_idx) then (0, self)
  else
    let current := get_digital self h button in
    let last := default 0 (_last_digital_state self !! Z.to_nat button_idx) in
    let self' :=
      mkController (_id self)
        (<[Z.to_nat button_idx := current]> (_last_digital_state self)) in
    (if negb (current =? 0) && (last =? 0) then 1 else 0, self').

End Controller.

(** * The legacy LCD emulator ([pros::lcd], [llemu.cpp]) *)

Module LLEMU.
Import HAL.

Local Open Scope Z_scope.

(** The static state of [llemu.cpp]: the flag, the three callbacks (a
    registered function is named by a number) and the [last_buttons] of
    [lcd_check_buttons]. *)
Record state : Type := mkLLEMU {
  lcd_initialized : bool;
  btn0_callback : option nat;
  btn1_callback : option nat;
  btn2_callback : option nat;
  last_buttons : Z
}.

Definition start : state := mkLLEMU false None None None 0.

Definition LCD_BTN_LEFT : Z := 4.
Definition LCD_BTN_CENTER : Z := 2.
Definition LCD_BTN_RIGHT : Z := 1.

(** [lcd::initialize]; it returns [true]. *)
Definition initialize (s : state) (h : HAL) : state * HAL :=
  (mkLLEMU true (btn0_callback s) (btn1_callback s) (btn2_callback s)
           (last_buttons s),
   lcd_clear h).

(** [lcd::is_initialized] *)
Definition is_initialized (s : state) : bool := lcd_initialized s.

(** [lcd::shutdown]; it returns [true]. *)
Definition shutdown (s : state) : state :=
  mkLLEMU false None None None (last_buttons s).

(** The guard of [print], [set_text] and [clear_line]. *)
Definition refused (s : state) (line : Z) : bool :=
  negb (lcd_initialized s) || (line <? 0) || (7 <? line).

(** [lcd::set_text]: the result and the store. *)
Definition set_text (s : state) (h : HAL) (line : Z) (text : string) : bool * HAL :=
  if refused s line then (false, h) else (true, lcd_set_text h line text).

(** [lcd::print], given the text that [vsnprintf] formats: at most 255
    characters of it fit the buffer. *)
Definition print (s : state) (h : HAL) (line : Z) (formatted : string) : bool * HAL :=
  if refused s line then (false, h)
  else (true, lcd_set_text h line (substring 0 255 formatted)).

(** [lcd::clear] *)
Definition clear (s : state) (h : HAL) : bool * HAL :=
  if negb (lcd_initialized s) then (false, h) else (true, lcd_clear h).

(** [lcd::clear_line] *)
Definition clear_line (s : state) (h : HAL) (line : Z) : bool * HAL :=
  if refused s line then (false, h) else (true, lcd_clear_line h line).

(** [lcd::register_btn0_cb] and its siblings. *)
Definition register_btn0_cb (s : state) (cb : option nat) : state :=
  mkLLEMU (lcd_initialized s) cb (btn1_callback s) (btn2_callback s)
          (last_buttons s).
Definition register_btn1_cb (s : state) (cb : option nat) : state :=
  mkLLEMU (lcd_initialized s) (btn0_callback s) cb (btn2_callback s)
          (last_buttons s).
Definition register_btn2_cb (s : state) (cb : option nat) : state :=
  mkLLEMU (lcd_initialized s) (btn0_callback s) (btn1_callback s) cb
          (last_buttons s).

(** [lcd::read_buttons] *)
Definition read_buttons (s : state) (h : HAL) : Z :=
  if negb (lcd_initialized s) then 0 else lcd_get_buttons h.

(** One [if ((new_presses & mask) && callback) callback();] of
    [lcd_check_buttons]: the calls it makes. *)
Definition fire (new_presses mask : Z) (callback : option nat) : list nat :=
  if negb (Z.land new_presses mask =? 0) then
    match callback with
    | Some f => [f]
    | None => []
    end
  else [].

(** [lcd_check_buttons]: the callbacks called, in order, and the state with
    the remembered buttons.  [buttons & ~last_buttons] is computed on [int]
    and converted to 8 bits. *)
Definition lcd_check_buttons (s : state) (h : HAL) : list nat * state :=
  let buttons := read_buttons s h in
  let new_presses := (Z.land buttons (Z.lnot (last_buttons s))) mod 256 in
  (fire new_presses LCD_BTN_LEFT (btn0_callback s)
     ++ fire new_presses LCD_BTN_CENTER (btn1_callback s)
     ++ fire new_presses LCD_BTN_RIGHT (btn2_callback s),
   mkLLEMU (lcd_initialized s) (btn0_callback s) (btn1_callback s)
           (btn2_callback s) buttons).

End LLEMU.

(** * Tasks ([pros::Task], [rtos.cpp]) *)

Module Task.

Local Open Scope Z_scope.

Inductive task_state_e_t : Type :=
  | E_TASK_STATE_RUNNING
  | E_TASK_STATE_READY
  | E_TASK_STATE_BLOCKED
  | E_TASK_STATE_SUSPENDED
  | E_TASK_STATE_DELETED
  | E_TASK_STATE_INVALID.

Inductive notify_action_e_t : Type :=
  | E_NOTIFY_ACTION_NONE
  | E_NOTIFY_ACTION_BITS
  | E_NOTIFY_ACTION_INCR
  | E_NOTIFY_ACTION_OWRITE
  | E_NOTIFY_ACTION_NO_OWRITE.

(** The members of [class Task] that the notification and state functions
    use. *)
Record Task : Type := mkTask {
  _priority : Z;
  _state : task_state_e_t;
  _running : bool;
  _notification_value : Z;
  _notification_pending : bool
}.

(** Arithmetic on [uint32_t]. *)
Definition to_uint32 (v : Z) : Z := v mod 2 ^ 32.

Definition with_notification (t : Task) (value : Z) (pending : bool) : Task :=
  mkTask (_priority t) (_state t) (_running t) value pending.

(** [Task::notify]; it returns 1. *)
Definition notify (t : Task) : Task :=
  with_notification t (to_uint32 (_notification_value t + 1)) true.

(** [Task::notify_ext]: the previous value and the task. *)
Definition notify_ext (t : Task) (value : Z) (action : notify_action_e_t)
    : Z * Task :=
  let prev := _notification_value t in
  let value' :=
    match action with
    | E_NOTIFY_ACTION_NONE => prev
    | E_NOTIFY_ACTION_BITS => Z.lor prev value
    | E_NOTIFY_ACTION_INCR => to_uint32 (prev + value)
    | E_NOTIFY_ACTION_OWRITE => value
    | E_NOTIFY_ACTION_NO_OWRITE =>
        if negb (_notification_pending t) then value else prev
    end in
  (prev, with_notification t value' true).

(** [Task::notify_clear]: whether a notification was pending, and the
    task. *)
Definition notify_clear (t : Task) : bool * Task :=
  (_notification_pending t, with_notification t 0 false).

Definition with_state (t : Task) (s : task_state_e_t) (running : bool) : Task :=
  mkTask (_priority t) s running (_notification_value t)
         (_notification_pending t).

(** [Task::suspend], [Task::resume] and [Task::remove]. *)
Definition suspend (t : Task) : Task := with_state t E_TASK_STATE_SUSPENDED (_running t).

Definition resume (t : Task) : Task :=
  match _state t with
  | E_TASK_STATE_SUSPENDED => with_state t E_TASK_STATE_READY (_running t)
  | _ => t
  end.

Definition remove (t : Task) : Task := with_state t E_TASK_STATE_DELETED false.

(** [Task::delay_until(prev_time, delta)] when the clock reads [elapsed]
    milliseconds: the time slept and the new [*prev_time].  [target] is a
    [uint32_t]; it is compared with, and subtracted from, the 64-bit
    signed clock reading. *)
Definition delay_until (prev_time delta elapsed : Z) : Z * Z :=
  let target := to_uint32 (prev_time + delta) in
  ((if elapsed <? target then target - elapsed else 0), target).

End Task.

(** * Objects and colours of the LVGL stand-in ([display.cpp], [api.h]) *)

Module Widgets.
Import LVGL.

Local Open Scope Z_scope.

(** Conversion of an [int] to [lv_coord_t], a 16-bit signed integer. *)
Definition to_coord (v : Z) : Z := (v + 32768) mod 65536 - 32768.

Definition LV_OBJ_FLAG_CLICKABLE : Z := 2.
Definition LV_OBJ_FLAG_SCROLLABLE : Z := 16.
Definition LV_STATE_CHECKED : Z := 1.

(** [struct _lv_obj_t], without the parent and style pointers. *)
Record lv_obj_t : Type := mk_obj {
  coords : lv_area_t;
  user_data : Z;
  state : Z;
  flags : Z
}.

(** [lv_obj_create]: a zero-filled object, clickable and scrollable. *)
Definition lv_obj_create : lv_obj_t :=
  mk_obj (mk_area 0 0 0 0) 0 0 (Z.lor LV_OBJ_FLAG_CLICKABLE LV_OBJ_FLAG_SCROLLABLE).

(** [lv_obj_set_pos] *)
Definition lv_obj_set_pos (obj : lv_obj_t) (x y : Z) : lv_obj_t :=
  let w := to_coord (x2 (coords obj) - x1 (coords obj)) in
  let h := to_coord (y2 (coords obj) - y1 (coords obj)) in
  mk_obj (mk_area x y (to_coord (x + w)) (to_coord (y + h)))
         (user_data obj) (state obj) (flags obj).

(** [lv_obj_set_size] *)
Definition lv_obj_set_size (obj : lv_obj_t) (w h : Z) : lv_obj_t :=
  mk_obj (mk_area (x1 (coords obj)) (y1 (coords obj))
                  (to_coord (x1 (coords obj) + w))
                  (to_coord (y1 (coords obj) + h)))
         (user_data obj) (state obj) (flags obj).

Definition lv_obj_get_x (obj : lv_obj_t) : Z := x1 (coords obj).
Definition lv_obj_get_y (obj : lv_obj_t) : Z := y1 (coords obj).
Definition lv_obj_get_width (obj : lv_obj_t) : Z :=
  to_coord (x2 (coords obj) - x1 (coords obj)).
Definition lv_obj_get_height (obj : lv_obj_t) : Z :=
  to_coord (y2 (coords obj) - y1 (coords obj)).

(** [lv_obj_set_user_data] *)
Definition lv_obj_set_user_data (obj : lv_obj_t) (d : Z) : lv_obj_t :=
  mk_obj (coords obj) d (state obj) (flags obj).

(** [lv_obj_add_state]: [obj->state |= state] on a [uint32_t]. *)
Definition lv_obj_add_state (obj : lv_obj_t) (s : Z) : lv_obj_t :=
  mk_obj (coords obj) (user_data obj) (Z.lor (state obj) s) (flags obj).

(** [lv_obj_has_state] *)
Definition lv_obj_has_state (obj : lv_obj_t) (s : Z) : bool :=
  negb (Z.land (state obj) s =? 0).

(** [lv_btn_create]: a fresh object of size 100 by 40. *)
Definition lv_btn_create : lv_obj_t :=
  let btn := lv_obj_create in
  let btn := mk_obj (coords btn) (user_data btn) (state btn)
                    (Z.lor (flags btn) LV_OBJ_FLAG_CLICKABLE) in
  lv_obj_set_size btn 100 40.

(** [lv_color_make(r, g, b)] for 8-bit channels: the [full] value of the
    colour, blue in the low five bits, green in the next six, red in the
    top five. *)
Definition lv_color_make (r g b : Z) : Z :=
  Z.lor (Z.lor (Z.shiftl (Z.shiftr r 3) 11) (Z.shiftl (Z.shiftr g 2) 5))
        (Z.shiftr b 3).

(** [lv_color_hex(c)] *)
Definition lv_color_hex (c : Z) : Z :=
  lv_color_make (Z.land (Z.shiftr c 16) 255) (Z.land (Z.shiftr c 8) 255)
                (Z.land c 255).

End Widgets.

(** * The user interface ([app.js]) *)

Module UI.

Local Open Scope Z_scope.

(** The body of the conversion loop of [updateScreen]: the four bytes
    written for one 16-bit pixel. *)
Definition rgba_of_pixel (pixel : Z) : list Z :=
  [Z.shiftl (Z.land (Z.shiftr pixel 11) 31) 3;
   Z.shiftl (Z.land (Z.shiftr pixel 5) 63) 2;
   Z.shiftl (Z.land pixel 31) 3;
   255].

(** [ImageData]: the size of an image and its bytes, four per pixel, row
    by row. *)
Record ImageData : Type := mkImageData {
  image_width : Z;
  image_height : Z;
  image_data : list Z
}.

(** [screenCtx.createImageData(sw, sh)]: an exception ([None]) when either
    size is zero, otherwise a transparent black image of [|sw|] by [|sh|]
    pixels. *)
Definition createImageData (sw sh : Z) : option ImageData :=
  if (sw =? 0) || (sh =? 0) then None
  else Some (mkImageData (Z.abs sw) (Z.abs sh)
               (replicate (Z.to_nat (4 * Z.abs sw * Z.abs sh)) 0)).

(** One round of the conversion loop: the four stores at [j], ..., [j + 3].
    A store past the end of the typed array is ignored. *)
Definition store_pixel (j : nat) (pixel : Z) (data : list Z) : list Z :=
  let r := Z.shiftl (Z.land (Z.shiftr pixel 11) 31) 3 in
  let g := Z.shiftl (Z.land (Z.shiftr pixel 5) 63) 2 in
  let b := Z.shiftl (Z.land pixel 31) 3 in
  <[(j + 3)%nat := 255]> (<[(j + 2)%nat := b]> (<[(j + 1)%nat := g]> (<[j := r]> data))).

(** The conversion loop of [updateScreen] over the decoded bytes: two bytes
    give one pixel, low byte first; a missing last byte reads as 0. *)
Fixpoint convert (bytes : list Z) (j : nat) (data : list Z) : list Z :=
  match bytes with
  | [] => data
  | [b0] => store_pixel j (Z.lor b0 (Z.shiftl 0 8)) data
  | b0 :: b1 :: rest =>
      convert rest (j + 4) (store_pixel j (Z.lor b0 (Z.shiftl b1 8)) data)
  end.

(** [updateScreen] with a drawing context present: the position and the
    image handed to [putImageData]; [None] when [atob] or
    [createImageData] throws. *)
Definition updateScreen (x1 y1 x2 y2 : Z) (data : string)
    : option (Z * Z * ImageData) :=
  match IPC.base64_decode data with
  | Some bytes =>
      match createImageData (x2 - x1 + 1) (y2 - y1 + 1) with
      | Some image =>
          Some (x1, y1,
                mkImageData (image_width image) (image_height image)
                            (convert bytes 0 (image_data image)))
      | None => None
      end
  | None => None
  end.

End UI.

(** * The autonomous selector ([auton::Selector], [selector.cpp]) *)

Module Selector.
Import Widgets.

Local Open Scope Z_scope.

(** [struct AutonRoutine]; the function is named by a number. *)
Record AutonRoutine : Type := mkAutonRoutine {
  name : string;
  description : string;
  func : nat
}.

(** The members of [class Selector]; the LVGL objects other than the
    buttons are kept as the texts of the two description labels and the
    active tab of the tabview ([None] while there is no tabview). *)
Record Selector : Type := mkSelector {
  _initialized : bool;
  _tabview : option Z;
  _match_label : string;
  _skills_label : string;
  _match_buttons : list lv_obj_t;
  _skills_buttons : list lv_obj_t;
  _match_autos : list AutonRoutine;
  _skills_autos : list AutonRoutine;
  _selected_match : Z;
  _selected_skills : Z
}.

(** [Selector::Selector()] *)
Definition constructed : Selector :=
  mkSelector false None EmptyString EmptyString [] [] [] [] (-1) (-1).

(** One pass of a button loop of [update_buttons] for the routine of index
    [i], an index that fits an [int], at position [(x, y)]: the button, and
    the position of the next one. *)
Definition place_button (selected i x y : Z) : lv_obj_t * (Z * Z) :=
  let btn := lv_btn_create in
  let btn := lv_obj_set_pos btn (to_coord x) (to_coord y) in
  let btn := lv_obj_set_size btn 140 40 in
  let btn := lv_obj_set_user_data btn i in
  let btn := if i =? selected then lv_obj_add_state btn LV_STATE_CHECKED else btn in
  let x := x + 140 + 10 in
  if 470 <? x + 140 then (btn, (10, y + 40 + 10)) else (btn, (x, y)).

(** A button loop of [update_buttons], from index [i] and position
    [(x, y)]. *)
Fixpoint place_buttons (selected : Z) (autos : list AutonRoutine) (i x y : Z)
    : list lv_obj_t :=
  match autos with
  | [] => []
  | _ :: rest =>
      let '(btn, (x', y')) := place_button selected i x y in
      btn :: place_buttons selected rest (i + 1) x' y'
  end.

(** [Selector::update_buttons]: the selector with its new buttons and the
    transport after [send_auton_list]. *)
Definition update_buttons (self : Selector) (ipc : IPC.IPCClient)
    : Selector * IPC.IPCClient :=
  (mkSelector (_initialized self) (_tabview self) (_match_label self)
              (_skills_label self)
              (place_buttons (_selected_match self) (_match_autos self) 0 10 10)
              (place_buttons (_selected_skills self) (_skills_autos self) 0 10 10)
              (_match_autos self) (_skills_autos self)
              (_selected_match self) (_selected_skills self),
   IPC.send_auton_list ipc (map name (_match_autos self))
                           (map name (_skills_autos self))).

(** [Selector::register_match_auto] *)
Definition register_match_auto (self : Selector) (ipc : IPC.IPCClient)
    (r : AutonRoutine) : Selector * IPC.IPCClient :=
  let self :=
    mkSelector (_initialized self) (_tabview self) (_match_label self)
               (_skills_label self) (_match_buttons self) (_skills_buttons self)
               (_match_autos self ++ [r]) (_skills_autos self)
               (_selected_match self) (_selected_skills self) in
  if _initialized self then update_buttons self ipc else (self, ipc).

(** [Selector::register_skills_auto] *)
Definition register_skills_auto (self : Selector) (ipc : IPC.IPCClient)
    (r : AutonRoutine) : Selector * IPC.IPCClient :=
  let self :=
    mkSelector (_initialized self) (_tabview self) (_match_label self)
               (_skills_label self) (_match_buttons self) (_skills_buttons self)
               (_match_autos self) (_skills_autos self ++ [r])
               (_selected_match self) (_selected_skills self) in
  if _initialized self then update_buttons self ipc else (self, ipc).

(** [Selector::init]: [create_ui] makes the tabview, with tab 0 active, and
    the two labels, then calls [update_buttons]. *)
Definition init (self : Selector) (ipc : IPC.IPCClient)
    : Selector * IPC.IPCClient :=
  if _initialized self then (self, ipc)
  else
    let self :=
      mkSelector (_initialized self) (Some 0) "Select a match autonomous"
                 "Select a skills autonomous" (_match_buttons self)
                 (_skills_buttons self) (_match_autos self) (_skills_autos self)
                 (_selected_match self) (_selected_skills self) in
    let '(self, ipc) := update_buttons self ipc in
    (mkSelector true (_tabview self) (_match_label self) (_skills_label self)
                (_match_buttons self) (_skills_buttons self)
                (_match_autos self) (_skills_autos self)
                (_selected_match self) (_selected_skills self),
     ipc).

(** The routine at an [int] index, if the index is within the list. *)
Definition routine_at (autos : list AutonRoutine) (index : Z) : option AutonRoutine :=
  if (0 <=? index) && (index <? Z.of_nat (length autos))
  then autos !! Z.to_nat index else None.

(** [Selector::match_btn_event_cb] for a clicked event whose user data is
    [index]. *)
Definition match_btn_event_cb (self : Selector) (ipc : IPC.IPCClient) (index : Z)
    : Selector * IPC.IPCClient :=
  let label :=
    match routine_at (_match_autos self) index with
    | Some r => description r
    | None => _match_label self
    end in
  update_buttons
    (mkSelector (_initialized self) (_tabview self) label (_skills_label self)
                (_match_buttons self) (_skills_buttons self)
                (_match_autos self) (_skills_autos self)
                index (_selected_skills self))
    ipc.

(** [Selector::skills_btn_event_cb] *)
Definition skills_btn_event_cb (self : Selector) (ipc : IPC.IPCClient) (index : Z)
    : Selector * IPC.IPCClient :=
  let label :=
    match routine_at (_skills_autos self) index with
    | Some r => description r
    | None => _skills_label self
    end in
  update_buttons
    (mkSelector (_initialized self) (_tabview self) (_match_label self) label
                (_match_buttons self) (_skills_buttons self)
                (_match_autos self) (_skills_autos self)
                (_selected_match self) index)
    ipc.

(** [Selector::is_skills_mode] *)
Definition is_skills_mode (self : Selector) : bool :=
  match _tabview self with
  | None => false
  | Some active => active =? 1
  end.

(** [Selector::run_selected_match] and [run_selected_skills]: the function
    that is run, if any. *)
Definition run_selected_match (self : Selector) : option nat :=
  option_map func (routine_at (_match_autos self) (_selected_match self)).

Definition run_selected_skills (self : Selector) : option nat :=
  option_map func (routine_at (_skills_autos self) (_selected_skills self)).

(** [Selector::run_selected] *)
Definition run_selected (self : Selector) : option nat :=
  if is_skills_mode self then run_selected_skills self
  else run_selected_match self.

End Selector.

(** * The input handlers of [main.cpp] *)

Module Main.
Import HAL.

Local Open Scope Z_scope.

(** [on_touch]: a field of the input that the parser left unassigned has no
    defined value, and the result is [None]. *)
Definition on_touch (input : IPC.TouchInput) (d : Display.Display)
    : option Display.Display :=
  match IPC.x input, IPC.y input, IPC.pressed input with
  | Some x, Some y, Some pressed => Some (Display.set_touch d x y pressed)
  | _, _, _ => None
  end.

Definition E_CONTROLLER_MASTER : Z := 0.
Definition E_CONTROLLER_ANALOG_LEFT_X : Z := 0.
Definition E_CONTROLLER_ANALOG_LEFT_Y : Z := 1.
Definition E_CONTROLLER_ANALOG_RIGHT_X : Z := 2.
Definition E_CONTROLLER_ANALOG_RIGHT_Y : Z := 3.
Definition E_CONTROLLER_DIGITAL_L1 : Z := 6.
Definition E_CONTROLLER_DIGITAL_L2 : Z := 7.
Definition E_CONTROLLER_DIGITAL_R1 : Z := 8.
Definition E_CONTROLLER_DIGITAL_R2 : Z := 9.
Definition E_CONTROLLER_DIGITAL_UP : Z := 10.
Definition E_CONTROLLER_DIGITAL_DOWN : Z := 11.
Definition E_CONTROLLER_DIGITAL_LEFT : Z := 12.
Definition E_CONTROLLER_DIGITAL_RIGHT : Z := 13.
Definition E_CONTROLLER_DIGITAL_X : Z := 14.
Definition E_CONTROLLER_DIGITAL_B : Z := 15.
Definition E_CONTROLLER_DIGITAL_Y : Z := 16.
Definition E_CONTROLLER_DIGITAL_A : Z := 17.

(** [(input.buttons & mask) != 0] *)
Definition button_bit (buttons mask : Z) : bool := negb (Z.land buttons mask =? 0).

(** [on_controller] *)
Definition on_controller (input : IPC.ControllerInput) (hal : HAL) : HAL :=
  let buttons := IPC.buttons input in
  let hal := set_controller_analog hal E_CONTROLLER_MASTER
               E_CONTROLLER_ANALOG_LEFT_X (IPC.lx input) in
  let hal := set_controller_analog hal E_CONTROLLER_MASTER
               E_CONTROLLER_ANALOG_LEFT_Y (IPC.ly input) in
  let hal := set_controller_analog hal E_CONTROLLER_MASTER
               E_CONTROLLER_ANALOG_RIGHT_X (IPC.rx input) in
  let hal := set_controller_analog hal E_CONTROLLER_MASTER
               E_CONTROLLER_ANALOG_RIGHT_Y (IPC.ry input) in
  let hal := set_controller_digital hal E_CONTROLLER_MASTER
               E_CONTROLLER_DIGITAL_A (button_bit buttons 1) in
  let hal := set_controller_digital hal E_CONTROLLER_MASTER
               E_CONTROLLER_DIGITAL_B (button_bit buttons 2) in
  let hal := set_controller_digital hal E_CONTROLLER_MASTER
               E_CONTROLLER_DIGITAL_X (button_bit buttons 4) in
  let hal := set_controller_digital hal E_CONTROLLER_MASTER
               E_CONTROLLER_DIGITAL_Y (button_bit buttons 8) in
  let hal := set_controller_digital hal E_CONTROLLER_MASTER
               E_CONTROLLER_DIGITAL_UP (button_bit buttons 16) in
  let hal := set_controller_digital hal E_CONTROLLER_MASTER
               E_CONTROLLER_DIGITAL_DOWN (button_bit buttons 32) in
  let hal := set_controller_digital hal E_CONTROLLER_MASTER
               E_CONTROLLER_DIGITAL_LEFT (button_bit buttons 64) in
  let hal := set_controller_digital hal E_CONTROLLER_MASTER
               E_CONTROLLER_DIGITAL_RIGHT (button_bit buttons 128) in
  let hal := set_controller_digital hal E_CONTROLLER_MASTER
               E_CONTROLLER_DIGITAL_L1 (button_bit buttons 256) in
  let hal := set_controller_digital hal E_CONTROLLER_MASTER
               E_CONTROLLER_DIGITAL_L2 (button_bit buttons 512) in
  let hal := set_controller_digital hal E_CONTROLLER_MASTER
               E_CONTROLLER_DIGITAL_R1 (button_bit buttons 1024) in
  set_controller_digital hal E_CONTROLLER_MASTER
    E_CONTROLLER_DIGITAL_R2 (button_bit buttons 2048).

(** The button that [on_controller] writes from bit [k] of the mask. *)
Definition button_of_bit (k : Z) : Z :=
  nth (Z.to_nat k)
      [E_CONTROLLER_DIGITAL_A; E_CONTROLLER_DIGITAL_B; E_CONTROLLER_DIGITAL_X;
       E_CONTROLLER_DIGITAL_Y; E_CONTROLLER_DIGITAL_UP; E_CONTROLLER_DIGITAL_DOWN;
       E_CONTROLLER_DIGITAL_LEFT; E_CONTROLLER_DIGITAL_RIGHT;
       E_CONTROLLER_DIGITAL_L1; E_CONTROLLER_DIGITAL_L2;
       E_CONTROLLER_DIGITAL_R1; E_CONTROLLER_DIGITAL_R2] 0.

End Main.

(** * Properties of the hardware state store *)

Section HAL_properties.
Import HAL.

Lemma clamp_range v lo hi : lo <= hi -> lo <= clamp v lo hi <= hi.
Proof.
  intros Hle. unfold clamp.
  destruct (v <? lo) eqn:E1; [lia|].
  destruct (hi <? v) eqn:E2; lia.
Qed.

Lemma clamp_cases v lo hi :
  lo <= hi ->
  (v < lo /\ clamp v lo hi = lo) \/
  (hi < v /\ clamp v lo hi = hi) \/
  (lo <= v <= hi /\ clamp v lo hi = v).
Proof.
  intros Hle. unfold clamp.
  destruct (v <? lo) eqn:E1; [left; lia|].
  destruct (hi <? v) eqn:E2; [right; left; lia | right; right; lia].
Qed.

Lemma bad_port_false port : 1 <= port <= 21 -> bad_port port = false.
Proof. unfold bad_port. intros. apply orb_false_iff. lia. Qed.

Lemma bad_port_true port : ~ (1 <= port <= 21) -> bad_port port = true.
Proof.
  unfold bad_port. intros. apply orb_true_iff.
  destruct (port <? 1) eqn:E; [now left | right; lia].
Qed.

Lemma motor_slot_lt h port :
  wf h -> 1 <= port <= 21 -> (Z.to_nat (port - 1) < length (_motors h))%nat.
Proof. intros (Hm & _) Hp. rewrite Hm. lia. Qed.

Lemma motor_at_lookup h port :
  wf h -> 1 <= port <= 21 ->
  _motors h !! Z.to_nat (port - 1) = Some (motor_at h port).
Proof.
  intros Hwf Hp. unfold motor_at.
  destruct (lookup_lt_is_Some_2 _ _ (motor_slot_lt h port Hwf Hp)) as [m Hm].
  now rewrite Hm.
Qed.

Lemma motor_at_modify h port f :
  wf h -> 1 <= port <= 21 ->
  motor_at (modify_motor h port f) port = f (motor_at h port).
Proof.
  intros Hwf Hp. unfold motor_at at 1, modify_motor. simpl.
  rewrite list_lookup_alter_eq, (motor_at_lookup h port Hwf Hp). reflexivity.
Qed.

Lemma motor_at_modify_ne h port port' f :
  1 <= port <= 21 -> 1 <= port' <= 21 -> port <> port' ->
  motor_at (modify_motor h port f) port' = motor_at h port'.
Proof.
  intros Hp Hp' Hne. unfold motor_at, modify_motor. simpl.
  rewrite list_lookup_alter_ne by lia. reflexivity.
Qed.

Lemma wf_modify_motor h port f : wf h -> wf (modify_motor h port f).
Proof.
  intros (Hm & Hc & Hl). unfold wf, modify_motor. simpl.
  rewrite length_alter. auto.
Qed.

Lemma wf_update h : wf h -> wf (update h).
Proof.
  intros (Hm & Hc & Hl). unfold wf, update. simpl.
  rewrite length_map. auto.
Qed.

Lemma wf_iter_update n h : wf h -> wf (Nat.iter n update h).
Proof. intros Hwf. induction n; simpl; auto using wf_update. Qed.

Lemma wf_constructed : wf constructed.
Proof. repeat split. Qed.

Lemma motor_at_update h port :
  wf h -> 1 <= port <= 21 ->
  motor_at (update h) port = update_motor (motor_at h port).
Proof.
  intros Hwf Hp. unfold motor_at at 1, update. simpl.
  rewrite list_lookup_fmap, (motor_at_lookup h port Hwf Hp). reflexivity.
Qed.

Lemma motor_at_iter_update n h port :
  wf h -> 1 <= port <= 21 ->
  motor_at (Nat.iter n update h) port = Nat.iter n update_motor (motor_at h port).
Proof.
  intros Hwf Hp. induction n; simpl; [reflexivity|].
  rewrite motor_at_update by auto using wf_iter_update. now rewrite IHn.
Qed.

(** [C2] For every port in 1..21 and every voltage [v] (in particular every
    [v] in [-200, 200]), [set_motor port v] stores [clamp v (-127) 127] as
    the commanded voltage of that motor, that is [-127] below the range,
    [127] above it and [v] inside it; for every port outside 1..21,
    [set_motor] returns the store unchanged. *)
Theorem set_motor_stores_clamped_voltage :
  forall (h : HAL) (port v : Z),
    wf h ->
    (1 <= port <= 21 -> -200 <= v <= 200 ->
       voltage (motor_at (set_motor h port v) port) = clamp v (-127) 127 /\
       get_motor_voltage (set_motor h port v) port = clamp v (-127) 127 /\
       ((v < -127 /\ clamp v (-127) 127 = -127) \/
        (127 < v /\ clamp v (-127) 127 = 127) \/
        (-127 <= v <= 127 /\ clamp v (-127) 127 = v))) /\
    (~ (1 <= port <= 21) ->
       set_motor h port v = h /\ _motors (set_motor h port v) = _motors h).
Proof.
  intros h port v Hwf. split.
  - intros Hp Hv. unfold get_motor_voltage, set_motor.
    rewrite (bad_port_false port Hp).
    rewrite motor_at_modify by assumption. simpl.
    repeat split. apply clamp_cases. lia.
  - intros Hp. unfold set_motor. rewrite (bad_port_true port Hp). auto.
Qed.

(** The data invariant of [MotorState]: a commanded voltage written by
    [set_motor] lies in [-127, 127], and the other motors are not touched. *)
Lemma set_motor_voltage_in_range h port v :
  wf h -> 1 <= port <= 21 ->
  -127 <= voltage (motor_at (set_motor h port v) port) <= 127.
Proof.
  intros Hwf Hp. unfold set_motor. rewrite (bad_port_false port Hp).
  rewrite motor_at_modify by assumption. simpl. apply clamp_range. lia.
Qed.

Lemma set_motor_other_ports h port port' v :
  1 <= port' <= 21 -> port <> port' ->
  motor_at (set_motor h port v) port' = motor_at h port'.
Proof.
  intros Hp' Hne. unfold set_motor.
  destruct (bad_port port) eqn:Hb; [reflexivity|].
  apply motor_at_modify_ne; [|assumption|assumption].
  unfold bad_port in Hb. apply orb_false_iff in Hb. lia.
Qed.

Lemma set_motor_stores_clamped_voltage_witness :
  voltage (motor_at (set_motor constructed 3 200) 3) = 127 /\
  set_motor constructed 0 200 = constructed.
Proof.
  pose proof (set_motor_stores_clamped_voltage constructed 3 200 wf_constructed)
    as [Hin _].
  pose proof (set_motor_stores_clamped_voltage constructed 0 200 wf_constructed)
    as [_ Hout].
  split.
  - destruct Hin as (Hv & _); [lia | lia |]. rewrite Hv. reflexivity.
  - destruct Hout as (Hs & _); [lia |]. exact Hs.
Defined.


(** *** The physics tick *)

Lemma update_motor_disconnected m : connected m = false -> update_motor m = m.
Proof. intros H. unfold update_motor. now rewrite H. Qed.




Lemma wf_set_motor h port v : wf h -> wf (set_motor h port v).
Proof.
  intros Hwf. unfold set_motor. destruct (bad_port port); [assumption|].
  now apply wf_modify_motor.
Qed.

(** *** Motors that are not connected *)

Lemma motors_constructed : _motors constructed = replicate 21 MotorState_default.
Proof. reflexivity. Qed.

Lemma motor_at_constructed port :
  1 <= port <= 21 -> motor_at constructed port = MotorState_default.
Proof.
  intros Hp. unfold motor_at. rewrite motors_constructed.
  rewrite lookup_replicate_2 by lia. reflexivity.
Qed.

Lemma iter_update_motor_disconnected n m :
  connected m = false -> Nat.iter n update_motor m = m.
Proof.
  intros Hc. induction n; simpl; [reflexivity|].
  rewrite IHn. now apply update_motor_disconnected.
Qed.

(** [C10] A freshly initialised motor has [connected = false]; [update]
    leaves every field of a motor with [connected = false] unchanged, for
    any number of ticks; so after commanding a voltage on a port of a fresh
    store, that motor keeps the commanded voltage and its initial telemetry
    whatever the number of ticks. *)
Theorem disconnected_motor_is_frozen :
  connected MotorState_default = false /\
  (forall (h : HAL) (m : MotorState), m ∈ _motors (init h) -> m = MotorState_default) /\
  (forall (port : Z), 1 <= port <= 21 ->
     is_motor_connected constructed port = false) /\
  (forall (m : MotorState), connected m = false -> update_motor m = m) /\
  (forall (h : HAL) (port : Z) (n : nat),
     wf h -> 1 <= port <= 21 -> connected (motor_at h port) = false ->
     motor_at (Nat.iter n update h) port = motor_at h port) /\
  (forall (port v : Z) (n : nat),
     1 <= port <= 21 ->
     motor_at (Nat.iter n update (set_motor constructed port v)) port =
     set_voltage (clamp v (-127) 127) MotorState_default).
Proof.
  split; [reflexivity|]. split; [|split; [|split; [|split]]].
  - intros h m Hin. simpl in Hin.
    apply list_elem_of_fmap in Hin as (x & -> & _). reflexivity.
  - intros port Hp. unfold is_motor_connected.
    rewrite bad_port_false, motor_at_constructed by assumption. reflexivity.
  - exact update_motor_disconnected.
  - intros h port n Hwf Hp Hc.
    rewrite motor_at_iter_update by assumption.
    now apply iter_update_motor_disconnected.
  - intros port v n Hp.
    rewrite motor_at_iter_update by (try apply wf_set_motor; auto using wf_constructed).
    unfold set_motor. rewrite bad_port_false by assumption.
    rewrite motor_at_modify by (auto using wf_constructed).
    rewrite motor_at_constructed by assumption.
    now apply iter_update_motor_disconnected.
Qed.

Lemma disconnected_motor_is_frozen_witness :
  motor_at (Nat.iter 7 update (set_motor constructed 5 100)) 5 =
  set_voltage 100 MotorState_default.
Proof.
  destruct disconnected_motor_is_frozen as (_ & _ & _ & _ & _ & H).
  apply (H 5 100 7%nat). lia.
Defined.


(** *** Out-of-range addresses *)

Lemma bad_line_true line : ~ (0 <= line <= 7) -> bad_line line = true.
Proof.
  unfold bad_line. intros. apply orb_true_iff.
  destruct (line <? 0) eqn:E; [now left | right; lia].
Qed.

(** [C6] For every out-of-range address (a motor port outside 1..21, a
    controller id above 1, a text line outside 0..7) every getter returns
    its default ([0], [0.0], [false], the empty string, the invalid-gearset
    value, or a default-constructed record for the two state getters) and
    every setter returns the store unchanged.
    All accessors are total functions with a plain result: none of them has
    an error outcome. *)
Theorem out_of_range_addresses_are_noops :
  forall (h : HAL),
    (forall (port : Z), ~ (1 <= port <= 21) ->
       get_motor_voltage h port = 0 /\
       get_motor_velocity h port = 0 /\
       get_motor_position h port = 0%Q /\
       get_motor_actual_velocity h port = 0%Q /\
       get_motor_current h port = 0 /\
       get_motor_temperature h port = 0%Q /\
       get_motor_gearset h port = E_MOTOR_GEARSET_INVALID /\
       get_motor_reversed h port = false /\
       is_motor_connected h port = false /\
       get_motor_state h port = MotorState_default /\
       (forall v, set_motor h port v = h) /\
       (forall v, set_motor_velocity h port v = h) /\
       (forall p, set_motor_position h port p = h) /\
       (forall g, set_motor_gearset h port g = h) /\
       (forall r, set_motor_reversed h port r = h) /\
       (forall c, set_motor_connected h port c = h)) /\
    (forall (id : Z), 0 <= id -> id <> 0 -> id <> 1 ->
       (forall channel, get_controller_analog h id channel = 0) /\
       (forall button, get_controller_digital h id button = false) /\
       is_controller_connected h id = false /\
       get_controller_battery_capacity h id = 0 /\
       get_controller_battery_level h id = 0 /\
       get_controller_state h id = ControllerState_default /\
       (forall channel value, set_controller_analog h id channel value = h) /\
       (forall button value, set_controller_digital h id button value = h) /\
       (forall value, set_controller_connected h id value = h)) /\
    (forall (line : Z), ~ (0 <= line <= 7) ->
       lcd_get_text h line = EmptyString /\
       (forall text, lcd_set_text h line text = h) /\
       lcd_clear_line h line = h).
Proof.
  intros h. split; [|split].
  - intros port Hp. pose proof (bad_port_true port Hp) as Hb.
    unfold get_motor_voltage, get_motor_velocity, get_motor_position,
      get_motor_actual_velocity, get_motor_current, get_motor_temperature,
      get_motor_gearset, get_motor_reversed, is_motor_connected,
      get_motor_state, set_motor,
      set_motor_velocity, set_motor_position, set_motor_gearset,
      set_motor_reversed, set_motor_connected.
    rewrite Hb. repeat split.
  - intros id H0 Hn0 Hn1. assert (Hb : (1 <? id) = true) by lia.
    unfold get_controller_analog, get_controller_digital,
      is_controller_connected, get_controller_battery_capacity,
      get_controller_battery_level, get_controller_state,
      set_controller_analog,
      set_controller_digital, set_controller_connected.
    rewrite Hb. simpl. repeat split.
  - intros line Hl. pose proof (bad_line_true line Hl) as Hb.
    unfold lcd_get_text, lcd_set_text, lcd_clear_line.
    rewrite Hb. repeat split.
Qed.

Lemma out_of_range_addresses_are_noops_witness :
  get_motor_gearset bench_motor 22 = E_MOTOR_GEARSET_INVALID /\
  set_motor bench_motor 0 50 = bench_motor /\
  get_controller_battery_level bench_motor 2 = 0 /\
  lcd_set_text bench_motor 8 "late" = bench_motor /\
  lcd_get_text bench_motor (-1) = EmptyString.
Proof.
  destruct (out_of_range_addresses_are_noops bench_motor) as (Hm & Hc & Hl).
  destruct (Hm 22) as (_ & _ & _ & _ & _ & _ & Hg & _); [lia|].
  destruct (Hm 0) as (_ & _ & _ & _ & _ & _ & _ & _ & _ & _ & Hs & _); [lia|].
  destruct (Hc 2) as (_ & _ & _ & _ & Hb & _); [lia | lia | lia |].
  destruct (Hl 8) as (_ & Ht & _); [lia|].
  destruct (Hl (-1)) as (Hget & _); [lia|].
  repeat split; auto.
Defined.

End HAL_properties.

(** * Properties of binary64 arithmetic *)

(** ** Sign symmetry

    The rounding function does not look at the sign, so negating the
    arguments of an operation negates its result; only the sign of a zero
    can differ. *)

Section Binary64_symmetry.
Import Binary64.
Local Open Scope Z_scope.

Lemma binary_round_aux_negb s m e l :
  binary_round_aux prec emax (negb s) m e l
  = neg (binary_round_aux prec emax s m e l).
Proof.
  unfold binary_round_aux.
  destruct (shr_fexp prec emax m e l) as [mrs' e'].
  destruct (shr_fexp prec emax _ e' loc_Exact) as [mrs'' e''].
  destruct (shr_m mrs''); [reflexivity| |reflexivity].
  destruct (e'' <=? emax - prec); reflexivity.
Qed.

Lemma binary_round_negb s m e :
  binary_round prec emax (negb s) m e = neg (binary_round prec emax s m e).
Proof.
  unfold binary_round.
  destruct (shl_align m e _) as [mz ez]. apply binary_round_aux_negb.
Qed.

Lemma binary_normalize_opp m e :
  opposite (binary_normalize prec emax m e false)
           (binary_normalize prec emax (- m) e false).
Proof.
  destruct m as [|p|p]; cbn [Z.opp binary_normalize].
  - right. split; reflexivity.
  - left. apply (binary_round_negb false).
  - left. apply (binary_round_negb true).
Qed.

Lemma neg_involutive x : neg (neg x) = x.
Proof. destruct x as [s|s| |s m e]; cbn; try rewrite negb_involutive; reflexivity. Qed.

Lemma opposite_neg x : opposite x (neg x).
Proof. now left. Qed.

Lemma opposite_of_int v : opposite (of_int v) (of_int (- v)).
Proof. apply binary_normalize_opp. Qed.

Lemma negb_xorb_l a b : xorb (negb a) b = negb (xorb a b).
Proof. now destruct a, b. Qed.

Lemma opposite_mul x x' c :
  opposite x x' -> opposite (mul x c) (mul x' c).
Proof.
  intros [-> | [Hx Hx']].
  - left. destruct x as [s|s| |s m e], c as [t|t| |t n f]; cbn;
      rewrite ?negb_xorb_l; try reflexivity.
    apply binary_round_aux_negb.
  - destruct x as [s| | |]; try discriminate Hx.
    destruct x' as [s'| | |]; try discriminate Hx'.
    destruct c as [t|t| |t n f]; cbn; try (now left); right; split; reflexivity.
Qed.

Lemma opposite_div x x' c :
  opposite x x' -> opposite (div x c) (div x' c).
Proof.
  intros [-> | [Hx Hx']].
  - left. destruct x as [s|s| |s m e], c as [t|t| |t n f]; cbn;
      rewrite ?negb_xorb_l; try reflexivity.
    destruct (SFdiv_core_binary prec emax (Z.pos m) e (Z.pos n) f) as [[mz ez] lz].
    apply binary_round_aux_negb.
  - destruct x as [s| | |]; try discriminate Hx.
    destruct x' as [s'| | |]; try discriminate Hx'.
    destruct c as [t|t| |t n f]; cbn; try (now left); right; split; reflexivity.
Qed.

Lemma cond_Zopp_negb s z : cond_Zopp (negb s) z = - cond_Zopp s z.
Proof. destruct s; cbn; lia. Qed.

Lemma opposite_add x x' y y' :
  opposite x x' -> opposite y y' -> opposite (add x y) (add x' y').
Proof.
  intros [-> | [Hx Hx']] [-> | [Hy Hy']].
  - destruct x as [s|s| |s m e], y as [t|t| |t n f]; cbn;
      try (now left); try (destruct s, t; now (left + (right; split))).
    rewrite !cond_Zopp_negb, <- Z.opp_add_distr.
    apply binary_normalize_opp.
  - destruct y as [t| | |]; try discriminate Hy.
    destruct y' as [t'| | |]; try discriminate Hy'.
    destruct x as [s|s| |s m e]; cbn; try (now left).
    destruct s, t, t'; cbn; now (left + (right; split)).
  - destruct x as [s| | |]; try discriminate Hx.
    destruct x' as [s'| | |]; try discriminate Hx'.
    destruct y as [t|t| |t n f]; cbn; try (now left).
    destruct s, s', t; cbn; now (left + (right; split)).
  - destruct x as [s| | |]; try discriminate Hx.
    destruct x' as [s'| | |]; try discriminate Hx'.
    destruct y as [t| | |]; try discriminate Hy.
    destruct y' as [t'| | |]; try discriminate Hy'.
    right. destruct s, s', t, t'; split; reflexivity.
Qed.

Lemma fabs_opposite x x' : opposite x x' -> fabs x' = fabs x.
Proof.
  intros [-> | [Hx Hx']].
  - now destruct x.
  - destruct x as [s| | |]; try discriminate Hx.
    destruct x' as [s'| | |]; try discriminate Hx'. reflexivity.
Qed.

Lemma opposite_same_number x y : opposite x y -> same_number (neg y) x.
Proof.
  intros [-> | [Hx Hy]].
  - left. apply neg_involutive.
  - right. split; [|exact Hx]. now destruct y.
Qed.

End Binary64_symmetry.

(** ** One rounding: its result, its error and its magnitude

    [binary_round_aux] shifts the mantissa right until it has at most 53
    bits (or the exponent has reached -1074), rounds the shifted mantissa
    to itself or to its successor, and shifts once more when the successor
    is [2 ^ 53].  Hence a product or a sum of finite doubles is off from the
    exact result by at most [2 ^ -52] of it plus [2 ^ -1074], and a result
    whose exact value is below a power of two is at most that power. *)

Section Binary64_rounding.
Import Binary64.
Local Open Scope Z_scope.

Lemma digits2_pos_bounds p :
  2 ^ (Zpos (digits2_pos p) - 1) <= Zpos p < 2 ^ Zpos (digits2_pos p).
Proof.
  induction p as [p IH|p IH|]; cbn [digits2_pos]; [| |cbn; lia].
  - rewrite Pos2Z.inj_succ.
    replace (Z.succ (Zpos (digits2_pos p)) - 1) with (Z.succ (Zpos (digits2_pos p) - 1)) by lia.
    rewrite !Z.pow_succ_r by lia. lia.
  - rewrite Pos2Z.inj_succ.
    replace (Z.succ (Zpos (digits2_pos p)) - 1) with (Z.succ (Zpos (digits2_pos p) - 1)) by lia.
    rewrite !Z.pow_succ_r by lia. lia.
Qed.

Lemma Zdigits2_bounds m :
  0 < m -> 2 ^ (Zdigits2 m - 1) <= m < 2 ^ Zdigits2 m.
Proof. destruct m as [|p|p]; try lia. intros _. apply digits2_pos_bounds. Qed.

Lemma Zdigits2_nonneg m : 0 <= Zdigits2 m.
Proof. destruct m; cbn; lia. Qed.

(** A number below [2 ^ j] has at most [j] binary digits. *)
Lemma Zdigits2_le m j : 0 <= m < 2 ^ j -> 0 <= j -> Zdigits2 m <= j.
Proof.
  intros [H0 Hm] Hj. destruct (Z.eq_dec m 0) as [->|Hne]; [cbn; lia|].
  destruct (Zdigits2_bounds m ltac:(lia)) as [Hlo _].
  destruct (Z_le_gt_dec (Zdigits2 m) j) as [|Hgt]; [assumption|exfalso].
  assert (2 ^ j <= 2 ^ (Zdigits2 m - 1)) by (apply Z.pow_le_mono_r; lia).
  lia.
Qed.

Lemma shr_1_m mrs : 0 <= shr_m mrs -> shr_m (shr_1 mrs) = shr_m mrs / 2.
Proof.
  destruct mrs as [m r s]. cbn [shr_m]. intros Hm.
  destruct m as [|[p|p|]|p]; cbn [shr_1 shr_m].
  all: first [ reflexivity | lia | exfalso; lia
          | apply Z.div_unique with 1; lia
          | apply Z.div_unique with 0; lia ].
Qed.

Lemma shr_1_nonneg mrs : 0 <= shr_m mrs -> 0 <= shr_m (shr_1 mrs).
Proof. intros H. rewrite shr_1_m by assumption. apply Z.div_pos; lia. Qed.

Lemma iter_shr_1_m p mrs :
  0 <= shr_m mrs ->
  shr_m (SpecFloat.iter_pos shr_1 p mrs) = shr_m mrs / 2 ^ Zpos p.
Proof.
  revert mrs. induction p as [p IH|p IH|]; intros mrs Hm; cbn [SpecFloat.iter_pos].
  - assert (H1 := shr_1_nonneg mrs Hm).
    assert (H2 : 0 <= shr_m (SpecFloat.iter_pos shr_1 p (shr_1 mrs))).
    { rewrite IH by assumption. apply Z.div_pos; lia. }
    rewrite IH, IH, shr_1_m by assumption.
    rewrite !Z.div_div by lia. f_equal.
    replace (Zpos p~1) with (1 + Zpos p + Zpos p) by lia.
    rewrite !Z.pow_add_r by lia. change (2 ^ 1) with 2. lia.
  - assert (H2 : 0 <= shr_m (SpecFloat.iter_pos shr_1 p mrs)).
    { rewrite IH by assumption. apply Z.div_pos; lia. }
    rewrite IH, IH by assumption.
    rewrite !Z.div_div by lia. f_equal.
    replace (Zpos p~0) with (Zpos p + Zpos p) by lia.
    rewrite Z.pow_add_r by lia. reflexivity.
  - rewrite shr_1_m by assumption. reflexivity.
Qed.


Lemma shr_record_of_loc_m m l : shr_m (shr_record_of_loc m l) = m.
Proof. destruct l as [|[]]; reflexivity. Qed.

Lemma shr_fexp_spec m e l :
  0 <= m ->
  let e' := Z.max e (fexp prec emax (Zdigits2 m + e)) in
  snd (shr_fexp prec emax m e l) = e' /\
  shr_m (fst (shr_fexp prec emax m e l)) = m / 2 ^ (e' - e) /\
  (e' = e -> fst (shr_fexp prec emax m e l) = shr_record_of_loc m l).
Proof.
  intros Hm e'. unfold shr_fexp, shr.
  destruct (fexp prec emax (Zdigits2 m + e) - e) as [|p|p] eqn:En; cbn [fst snd].
  - assert (e' = e) as -> by (subst e'; lia).
    rewrite Z.sub_diag, shr_record_of_loc_m. cbn. rewrite Z.div_1_r. auto.
  - assert (e' = e + Zpos p) as -> by (subst e'; lia).
    rewrite iter_shr_1_m by (rewrite shr_record_of_loc_m; assumption).
    rewrite shr_record_of_loc_m.
    replace (e + Zpos p - e) with (Zpos p) by lia.
    repeat split; lia.
  - assert (e' = e) as -> by (subst e'; lia).
    rewrite Z.sub_diag, shr_record_of_loc_m. cbn. rewrite Z.div_1_r. auto.
Qed.

Lemma round_nearest_even_bounds m l :
  m <= round_nearest_even m l <= m + 1.
Proof.
  destruct l as [|[]]; cbn [round_nearest_even]; try lia.
  destruct (Z.even m); lia.
Qed.

Lemma fexp_ge_emin e : -1074 <= fexp prec emax e.
Proof. unfold fexp, emin, prec, emax. lia. Qed.

Lemma fexp_eq e : fexp prec emax e = Z.max (e - 53) (-1074).
Proof. reflexivity. Qed.

Lemma binary_round_aux_spec s M E l :
  0 <= M ->
  let e1 := Z.max E (fexp prec emax (Zdigits2 M + E)) in
  let m1 := M / 2 ^ (e1 - E) in
  exists m2,
    m1 <= m2 <= m1 + 1 /\
    (l = loc_Exact -> e1 = E -> m2 = M) /\
    represents s m2 e1 (binary_round_aux prec emax s M E l).
Proof.
  intros HM e1 m1. unfold binary_round_aux.
  destruct (shr_fexp_spec M E l HM) as (He1 & Hm1 & Hex).
  fold e1 in He1, Hm1, Hex. fold m1 in Hm1.
  destruct (shr_fexp prec emax M E l) as [mrs' e'] eqn:E1.
  cbn [fst snd] in He1, Hm1, Hex. subst e'.
  set (m2 := round_nearest_even (shr_m mrs') (loc_of_shr_record mrs')).
  assert (Hm2 : m1 <= m2 <= m1 + 1).
  { subst m2. rewrite <- Hm1. apply round_nearest_even_bounds. }
  assert (Hm1pos : 0 <= m1) by (subst m1; apply Z.div_pos; lia).
  assert (Hm1lt : m1 < 2 ^ 53).
  { subst m1. destruct (Z.eq_dec M 0) as [->|HM0]; [rewrite Z.div_0_l; lia|].
    destruct (Zdigits2_bounds M ltac:(lia)) as [_ Hhi].
    apply Z.div_lt_upper_bound; [lia|].
    rewrite <- Z.pow_add_r by (subst e1; lia).
    eapply Z.lt_le_trans; [exact Hhi|].
    apply Z.pow_le_mono_r; [lia|]. subst e1. rewrite fexp_eq. lia. }
  assert (He1min : -1074 <= e1).
  { subst e1. pose proof (fexp_ge_emin (Zdigits2 M + E)). lia. }
  exists m2. split; [exact Hm2|]. split.
  { intros -> HeE. specialize (Hex HeE). subst mrs'. subst m2. reflexivity. }
  destruct (shr_fexp_spec m2 e1 loc_Exact ltac:(lia)) as (He3 & Hm3 & _).
  destruct (shr_fexp prec emax m2 e1 loc_Exact) as [mrs'' e''] eqn:E2.
  cbn [fst snd] in He3, Hm3.
  destruct (Z.eq_dec m2 0) as [H0|H0].
  { left. split; [exact H0|]. rewrite Hm3, H0, Z.div_0_l; [reflexivity|lia]. }
  right.
  destruct (Z.eq_dec m2 (2 ^ 53)) as [Htop|Htop].
  - assert (Hd : Zdigits2 m2 = 54) by (rewrite Htop; reflexivity).
    assert (Hv : Z.max e1 (fexp prec emax (Zdigits2 m2 + e1)) = e1 + 1)
      by (rewrite Hd, fexp_eq; lia).
    rewrite Hv in He3, Hm3. subst e''. rewrite Hm3.
    replace (e1 + 1 - e1) with 1 by lia. rewrite Htop.
    change (2 ^ 53 / 2 ^ 1) with (Zpos (2 ^ 52)).
    exists (2 ^ 52)%positive, (e1 + 1). split; [lia|]. split; [|reflexivity].
    replace (e1 + 1 - e1) with 1 by lia. reflexivity.
  - assert (Hd : Zdigits2 m2 <= 53) by (apply Zdigits2_le; lia).
    assert (Hv : Z.max e1 (fexp prec emax (Zdigits2 m2 + e1)) = e1)
      by (rewrite fexp_eq; lia).
    rewrite Hv in He3, Hm3. subst e''. rewrite Hm3.
    rewrite Z.sub_diag. change (2 ^ 0) with 1. rewrite Z.div_1_r.
    destruct m2 as [|p|p]; try lia.
    exists p, e1. split; [lia|]. split; [|reflexivity].
    rewrite Z.sub_diag. lia.
Qed.


Lemma pow2_pos e : (0 < 2 ^ e)%Q.
Proof. apply Qpower_0_lt. reflexivity. Qed.

Lemma pow2_add a b : (2 ^ (a + b) == 2 ^ a * 2 ^ b)%Q.
Proof. apply Qpower_plus. discriminate. Qed.

Lemma pow2_inject n : 0 <= n -> (inject_Z (2 ^ n) == 2 ^ n)%Q.
Proof. intros Hn. now rewrite Zpower_Qpower. Qed.

Lemma inject_cond_Zopp s z :
  (inject_Z (cond_Zopp s z) == sign_of s * inject_Z z)%Q.
Proof.
  destruct s; cbn [cond_Zopp sign_of].
  - rewrite inject_Z_opp. ring.
  - ring.
Qed.

Lemma value_finite s m e :
  (value (S754_finite s m e) == sign_of s * inject_Z (Zpos m) * 2 ^ e)%Q.
Proof. cbn [value]. now rewrite inject_cond_Zopp. Qed.

Lemma represents_value s m2 e1 y :
  represents s m2 e1 y -> e1 + 1 <= 971 ->
  is_finite y = true /\ (value y == sign_of s * inject_Z m2 * 2 ^ e1)%Q.
Proof.
  intros [[-> ->] | (m3 & e3 & He3 & Hm & ->)] He1.
  - split; [reflexivity|]. cbn [value]. ring.
  - assert (Hle : (e3 <=? emax - prec) = true)
      by (apply Z.leb_le; unfold emax, prec; lia).
    rewrite Hle. split; [reflexivity|].
    rewrite value_finite, <- Hm, inject_Z_mult.
    rewrite (pow2_inject (e3 - e1)) by lia.
    replace e3 with ((e3 - e1) + e1) at 1 by lia.
    rewrite pow2_add. ring.
Qed.


Lemma pow2_bound_exp M E k :
  0 < M -> M < 2 ^ (k - E) -> E < k /\ Zdigits2 M + E <= k.
Proof.
  intros HM Hlt.
  assert (HE : E < k).
  { destruct (Z_lt_le_dec E k) as [|Hge]; [assumption|exfalso].
    destruct (Z.eq_dec k E) as [->|Hne].
    - rewrite Z.sub_diag in Hlt. cbn in Hlt. lia.
    - rewrite Z.pow_neg_r in Hlt by lia. lia. }
  split; [exact HE|].
  destruct (Zdigits2_bounds M HM) as [Hlo _].
  assert (Hd : 2 ^ (Zdigits2 M - 1) < 2 ^ (k - E)) by lia.
  apply Z.pow_lt_mono_r_iff in Hd; lia.
Qed.

Lemma Qabs_sign_of s : (Qabs (sign_of s) == 1)%Q.
Proof. destruct s; reflexivity. Qed.

Lemma sign_mul_abs s x : (Qabs (sign_of s * x) == Qabs x)%Q.
Proof. rewrite Qabs_Qmult, Qabs_sign_of. ring. Qed.

Lemma Qabs_scaled z e : (Qabs (inject_Z z * 2 ^ e) == inject_Z (Z.abs z) * 2 ^ e)%Q.
Proof.
  rewrite Qabs_Qmult. rewrite (Qabs_pos (2 ^ e)) by (apply Qlt_le_weak, pow2_pos).
  reflexivity.
Qed.

(** The rounding of an exact positive value [M * 2 ^ E] below [2 ^ k]: the
    result is finite and off by at most one unit in the last place. *)
Lemma binary_round_aux_error s M E k :
  0 < M -> M < 2 ^ (k - E) -> -1073 <= k <= 971 ->
  is_finite (binary_round_aux prec emax s M E loc_Exact) = true /\
  (Qabs (value (binary_round_aux prec emax s M E loc_Exact)
         - sign_of s * (inject_Z M * 2 ^ E))
   <= (1 # 2 ^ 52) * (inject_Z M * 2 ^ E) + 2 ^ (-1074))%Q.
Proof.
  intros HM Hlt Hk.
  destruct (pow2_bound_exp M E k HM Hlt) as [HE Hd].
  destruct (binary_round_aux_spec s M E loc_Exact ltac:(lia)) as (m2 & Hm2 & Hex & Hrep).
  set (e1 := Z.max E (fexp prec emax (Zdigits2 M + E))) in *.
  assert (He1 : e1 + 1 <= 971) by (subst e1; rewrite fexp_eq; lia).
  destruct (represents_value s m2 e1 _ Hrep He1) as [Hfin Hval].
  split; [exact Hfin|]. rewrite Hval.
  set (n := e1 - E). assert (Hn : 0 <= n) by (subst n e1; lia).
  fold n in Hm2.
  assert (Hpow : (2 ^ e1 == inject_Z (2 ^ n) * 2 ^ E)%Q).
  { rewrite pow2_inject by lia. rewrite <- pow2_add. subst n.
    replace (e1 - E + E) with e1 by lia. reflexivity. }
  assert (Hdiff : (sign_of s * inject_Z m2 * 2 ^ e1 - sign_of s * (inject_Z M * 2 ^ E)
                   == sign_of s * (inject_Z (m2 * 2 ^ n - M) * 2 ^ E))%Q).
  { rewrite Hpow. unfold Z.sub. rewrite inject_Z_plus, inject_Z_opp, inject_Z_mult. ring. }
  rewrite Hdiff, sign_mul_abs, Qabs_scaled.
  assert (P0 := pow2_pos E).
  assert (HPn : 0 < 2 ^ n) by (apply Z.pow_pos_nonneg; lia).
  assert (Hdiv1 : 2 ^ n * (M / 2 ^ n) <= M) by (apply Z.mul_div_le; lia).
  assert (Hdiv2 : M < 2 ^ n * Z.succ (M / 2 ^ n)) by (apply Z.mul_succ_div_gt; lia).
  assert (Habs : Z.abs (m2 * 2 ^ n - M) <= 2 ^ n) by nia.
  assert (Heta : (0 < 2 ^ (-1074))%Q) by apply pow2_pos.
  assert (HMq : (0 <= inject_Z M * 2 ^ E)%Q).
  { apply Qmult_le_0_compat; [|apply Qlt_le_weak, P0].
    change 0%Q with (inject_Z 0). rewrite <- Zle_Qle. lia. }
  destruct (Z.eq_dec e1 E) as [HeE|HeE].
  { assert (Hz : Z.abs (m2 * 2 ^ n - M) = 0).
    { rewrite (Hex eq_refl HeE). subst n. rewrite HeE, Z.sub_diag. cbn. lia. }
    rewrite Hz. change (inject_Z 0) with 0%Q. rewrite Qmult_0_l.
    apply Qlt_le_weak.
    apply Qlt_le_trans with (2 ^ (-1074))%Q; [exact Heta|].
    rewrite <- (Qplus_0_l (2 ^ (-1074))) at 1.
    apply Qplus_le_l.
    apply Qmult_le_0_compat; [discriminate|exact HMq]. }
  assert (Hf : e1 = fexp prec emax (Zdigits2 M + E)) by (subst e1; lia).
  rewrite fexp_eq in Hf.
  destruct (Z_le_gt_dec (-1074) (Zdigits2 M + E - 53)) as [Hnorm|Hsub].
  - assert (Hn' : n = Zdigits2 M - 53) by (subst n; lia).
    destruct (Zdigits2_bounds M HM) as [Hlo _].
    assert (H52 : 2 ^ n * 2 ^ 52 <= M).
    { rewrite <- Z.pow_add_r by lia. rewrite Hn'.
      replace (Zdigits2 M - 53 + 52) with (Zdigits2 M - 1) by lia. exact Hlo. }
    apply Qle_trans with ((1 # 2 ^ 52) * (inject_Z M * 2 ^ E))%Q.
    + rewrite Qmult_assoc. apply Qmult_le_compat_r; [|apply Qlt_le_weak, P0].
      unfold Qle. cbn [Qnum Qden inject_Z Qmult].
      change (Zpos (2 ^ 52)) with (2 ^ 52). lia.
    + rewrite <- (Qplus_0_r ((1 # 2 ^ 52) * (inject_Z M * 2 ^ E))) at 1.
      apply Qplus_le_r. apply Qlt_le_weak, Heta.
  - assert (He1' : e1 = -1074) by lia.
    apply Qle_trans with (2 ^ (-1074))%Q.
    + rewrite <- He1', Hpow.
      apply Qmult_le_compat_r; [|apply Qlt_le_weak, P0].
      rewrite <- Zle_Qle. exact Habs.
    + rewrite <- (Qplus_0_l (2 ^ (-1074))) at 1.
      apply Qplus_le_l.
      apply Qmult_le_0_compat; [discriminate|exact HMq].
Qed.


Lemma pow2_split k E : (2 ^ k == 2 ^ (k - E) * 2 ^ E)%Q.
Proof. rewrite <- pow2_add. replace (k - E + E) with k by lia. reflexivity. Qed.

Lemma pow2_neg_lt_1 n : n < 0 -> (2 ^ n < 1)%Q.
Proof.
  intros Hn. change 1%Q with (2 ^ 0)%Q.
  apply Qpower_lt_compat_l; [exact Hn|reflexivity].
Qed.

Lemma inject_Z_ge_1 M : 0 < M -> (1 <= inject_Z M)%Q.
Proof. intros H. change 1%Q with (inject_Z 1). rewrite <- Zle_Qle. lia. Qed.

Lemma scaled_lt M E k :
  0 < M -> (inject_Z M * 2 ^ E < 2 ^ k)%Q -> M < 2 ^ (k - E).
Proof.
  intros HM H. rewrite (pow2_split k E) in H.
  apply Qmult_lt_r in H; [|apply pow2_pos].
  destruct (Z_lt_le_dec (k - E) 0) as [Hneg|Hpos].
  - exfalso. pose proof (pow2_neg_lt_1 _ Hneg). pose proof (inject_Z_ge_1 M HM).
    apply (Qlt_irrefl 1). eapply Qle_lt_trans; [eassumption|].
    eapply Qlt_trans; eassumption.
  - rewrite <- pow2_inject in H by assumption. rewrite Zlt_Qlt. exact H.
Qed.

Lemma scaled_le M E k :
  0 < M -> (inject_Z M * 2 ^ E <= 2 ^ k)%Q -> M <= 2 ^ (k - E).
Proof.
  intros HM H. rewrite (pow2_split k E) in H.
  apply Qmult_le_r in H; [|apply pow2_pos].
  destruct (Z_lt_le_dec (k - E) 0) as [Hneg|Hpos].
  - exfalso. pose proof (pow2_neg_lt_1 _ Hneg). pose proof (inject_Z_ge_1 M HM).
    apply (Qlt_irrefl 1). eapply Qle_lt_trans; [eassumption|].
    eapply Qle_lt_trans; eassumption.
  - rewrite <- pow2_inject in H by assumption. rewrite Zle_Qle. exact H.
Qed.

Lemma scaled_le_inv M E k :
  0 < M -> M <= 2 ^ (k - E) -> (inject_Z M * 2 ^ E <= 2 ^ k)%Q.
Proof.
  intros HM H.
  assert (0 <= k - E).
  { destruct (Z_lt_le_dec (k - E) 0) as [Hneg|]; [|assumption].
    rewrite Z.pow_neg_r in H by assumption. lia. }
  rewrite (pow2_split k E). apply Qmult_le_compat_r; [|apply Qlt_le_weak, pow2_pos].
  rewrite <- pow2_inject by assumption. now rewrite <- Zle_Qle.
Qed.

Lemma Qabs_value_finite s m e :
  (Qabs (value (S754_finite s m e)) == inject_Z (Zpos m) * 2 ^ e)%Q.
Proof.
  rewrite value_finite, <- Qmult_assoc, sign_mul_abs, Qabs_scaled. reflexivity.
Qed.

Lemma at_most_value k x :
  at_most k x = true -> is_finite x = true /\ (Qabs (value x) <= 2 ^ k)%Q.
Proof.
  destruct x as [s|s| |s m e]; cbn [at_most is_finite]; try discriminate.
  - intros _. split; [reflexivity|]. cbn. apply Qlt_le_weak, pow2_pos.
  - intros H. apply Z.leb_le in H. split; [reflexivity|].
    rewrite Qabs_value_finite. apply scaled_le_inv; [lia|exact H].
Qed.

Lemma value_at_most k x :
  is_finite x = true -> (Qabs (value x) <= 2 ^ k)%Q -> at_most k x = true.
Proof.
  destruct x as [s|s| |s m e]; cbn [at_most is_finite]; try discriminate; [reflexivity|].
  intros _ H. rewrite Qabs_value_finite in H.
  apply Z.leb_le. apply scaled_le; [lia|exact H].
Qed.

(** The rounding of a value below [2 ^ k] is at most [2 ^ k]. *)
Lemma binary_round_aux_at_most s M E l k :
  0 <= M -> M < 2 ^ (k - E) -> -1073 <= k <= 971 ->
  at_most k (binary_round_aux prec emax s M E l) = true.
Proof.
  intros HM Hlt Hk.
  assert (HkE : E <= k).
  { destruct (Z_lt_le_dec k E) as [Hneg|]; [|assumption].
    rewrite Z.pow_neg_r in Hlt by lia. lia. }
  destruct (binary_round_aux_spec s M E l HM) as (m2 & Hm2 & _ & Hrep).
  set (e1 := Z.max E (fexp prec emax (Zdigits2 M + E))) in *.
  assert (He1 : E <= e1 <= k).
  { subst e1. rewrite fexp_eq. split; [lia|].
    destruct (Z.eq_dec M 0) as [->|HM0]; [cbn; lia|].
    destruct (pow2_bound_exp M E k ltac:(lia) Hlt). lia. }
  assert (Hm2le : m2 <= 2 ^ (k - e1)).
  { assert (M / 2 ^ (e1 - E) < 2 ^ (k - e1)); [|lia].
    apply Z.div_lt_upper_bound; [apply Z.pow_pos_nonneg; lia|].
    rewrite <- Z.pow_add_r by lia.
    replace (e1 - E + (k - e1)) with (k - E) by lia. exact Hlt. }
  destruct Hrep as [[_ ->] | (m3 & e3 & He3 & Hm & ->)]; [reflexivity|].
  assert (Hpos3 : 0 < 2 ^ (e3 - e1)) by (apply Z.pow_pos_nonneg; lia).
  assert (He3k : e3 <= k /\ Zpos m3 <= 2 ^ (k - e3)).
  { destruct (Z.eq_dec e3 e1) as [->|Hne].
    - rewrite Z.sub_diag in Hm. cbn in Hm. split; lia.
    - assert (e3 = e1 + 1) as -> by lia.
      replace (e1 + 1 - e1) with 1 in Hm by lia. change (2 ^ 1) with 2 in Hm.
      assert (Hk1 : e1 < k).
      { destruct (Z.eq_dec e1 k) as [->|]; [|lia].
        rewrite Z.sub_diag in Hm2le. cbn in Hm2le. lia. }
      split; [lia|].
      replace (k - e1) with (Z.succ (k - (e1 + 1))) in Hm2le by lia.
      rewrite Z.pow_succ_r in Hm2le by lia. lia. }
  assert (Hle : (e3 <=? emax - prec) = true)
    by (apply Z.leb_le; unfold emax, prec; lia).
  rewrite Hle. cbn [at_most]. apply Z.leb_le. tauto.
Qed.


Lemma error_bound_nonneg q : (0 <= (1 # 2 ^ 52) * Qabs q + 2 ^ (-1074))%Q.
Proof.
  rewrite <- (Qplus_0_l 0). apply Qplus_le_compat.
  - apply Qmult_le_0_compat; [discriminate|apply Qabs_nonneg].
  - apply Qlt_le_weak, pow2_pos.
Qed.

Lemma exact_within_error a b :
  (a == b)%Q -> (Qabs (a - b) <= (1 # 2 ^ 52) * Qabs b + 2 ^ (-1074))%Q.
Proof.
  intros ->. setoid_replace (b - b)%Q with 0%Q using relation Qeq by ring.
  apply error_bound_nonneg.
Qed.

Lemma scaled_nonneg p e : (0 <= inject_Z (Zpos p) * 2 ^ e)%Q.
Proof.
  apply Qmult_le_0_compat; [|apply Qlt_le_weak, pow2_pos]. discriminate.
Qed.

(** [binary_round_aux_error] with the bound stated on the value. *)
Lemma round_error s p e k :
  (inject_Z (Zpos p) * 2 ^ e < 2 ^ k)%Q -> -1073 <= k <= 971 ->
  is_finite (binary_round_aux prec emax s (Zpos p) e loc_Exact) = true /\
  (Qabs (value (binary_round_aux prec emax s (Zpos p) e loc_Exact)
         - sign_of s * (inject_Z (Zpos p) * 2 ^ e))
   <= (1 # 2 ^ 52) * Qabs (sign_of s * (inject_Z (Zpos p) * 2 ^ e)) + 2 ^ (-1074))%Q.
Proof.
  intros H Hk. rewrite sign_mul_abs, (Qabs_pos _ (scaled_nonneg p e)).
  apply (binary_round_aux_error s (Zpos p) e k); [lia| |exact Hk].
  apply scaled_lt; [lia|exact H].
Qed.

Lemma iter_xO m d : Zpos (Pos.iter xO m d) = Zpos m * 2 ^ Zpos d.
Proof.
  induction d as [|d IH] using Pos.peano_ind.
  - cbn. lia.
  - rewrite Pos.iter_succ, Pos2Z.inj_succ, Z.pow_succ_r by lia.
    rewrite Pos2Z.inj_xO, IH. lia.
Qed.

Lemma shl_align_spec m e e' :
  (inject_Z (Zpos (fst (shl_align m e e'))) * 2 ^ snd (shl_align m e e')
   == inject_Z (Zpos m) * 2 ^ e)%Q /\
  (e' <= e -> snd (shl_align m e e') = e').
Proof.
  unfold shl_align. destruct (e' - e) as [|d|d] eqn:Ed; cbn [fst snd].
  - split; [reflexivity|lia].
  - split; [reflexivity|lia].
  - split; [|reflexivity].
    rewrite iter_xO, inject_Z_mult, pow2_inject by lia.
    rewrite <- Qmult_assoc, <- pow2_add.
    replace (Zpos d + e') with e by lia. reflexivity.
Qed.

Lemma binary_round_error s p e k :
  (inject_Z (Zpos p) * 2 ^ e < 2 ^ k)%Q -> -1073 <= k <= 971 ->
  is_finite (binary_round prec emax s p e) = true /\
  (Qabs (value (binary_round prec emax s p e)
         - sign_of s * (inject_Z (Zpos p) * 2 ^ e))
   <= (1 # 2 ^ 52) * Qabs (sign_of s * (inject_Z (Zpos p) * 2 ^ e)) + 2 ^ (-1074))%Q.
Proof.
  intros H Hk. unfold binary_round.
  destruct (shl_align_spec p e (fexp prec emax (Zpos (digits2_pos p) + e))) as [Hv _].
  destruct (shl_align p e _) as [mz ez]. cbn [fst snd] in Hv.
  rewrite <- Hv in *. now apply round_error with k.
Qed.

Lemma binary_normalize_error S e k :
  (Qabs (inject_Z S * 2 ^ e) < 2 ^ k)%Q -> -1073 <= k <= 971 ->
  is_finite (binary_normalize prec emax S e false) = true /\
  (Qabs (value (binary_normalize prec emax S e false) - inject_Z S * 2 ^ e)
   <= (1 # 2 ^ 52) * Qabs (inject_Z S * 2 ^ e) + 2 ^ (-1074))%Q.
Proof.
  intros H Hk. destruct S as [|p|p]; cbn [binary_normalize].
  - split; [reflexivity|]. apply exact_within_error. cbn [value]. ring.
  - rewrite Qabs_scaled in H. cbn [Z.abs] in H.
    destruct (binary_round_error false p e k H Hk) as [Hf He].
    split; [exact Hf|].
    setoid_replace (inject_Z (Zpos p) * 2 ^ e)%Q
      with (sign_of false * (inject_Z (Zpos p) * 2 ^ e))%Q using relation Qeq
      by (cbn [sign_of]; ring).
    exact He.
  - rewrite Qabs_scaled in H. cbn [Z.abs] in H.
    destruct (binary_round_error true p e k H Hk) as [Hf He].
    split; [exact Hf|].
    setoid_replace (inject_Z (Zneg p) * 2 ^ e)%Q
      with (sign_of true * (inject_Z (Zpos p) * 2 ^ e))%Q using relation Qeq
      by (cbn [sign_of]; change (Zneg p) with (- Zpos p);
          rewrite inject_Z_opp; ring).
    exact He.
Qed.

Lemma sign_of_xorb a b : (sign_of (xorb a b) == sign_of a * sign_of b)%Q.
Proof. destruct a, b; reflexivity. Qed.

(** A product: finite, and within rounding error of the exact product. *)
Lemma mul_error x y k :
  is_finite x = true -> is_finite y = true ->
  (Qabs (value x * value y) < 2 ^ k)%Q -> -1073 <= k <= 971 ->
  is_finite (mul x y) = true /\
  (Qabs (value (mul x y) - value x * value y)
   <= (1 # 2 ^ 52) * Qabs (value x * value y) + 2 ^ (-1074))%Q.
Proof.
  intros Hx Hy H Hk.
  destruct x as [sx|sx| |sx mx ex]; try discriminate Hx;
    destruct y as [sy|sy| |sy my ey]; try discriminate Hy;
    try (split; [reflexivity|apply exact_within_error; cbn [value mul SFmul]; ring]).
  assert (Hprod : (value (S754_finite sx mx ex) * value (S754_finite sy my ey)
                   == sign_of (xorb sx sy)
                      * (inject_Z (Zpos (mx * my)) * 2 ^ (ex + ey)))%Q).
  { rewrite !value_finite, sign_of_xorb, Pos2Z.inj_mul, inject_Z_mult, pow2_add. ring. }
  rewrite Hprod in *. rewrite sign_mul_abs, Qabs_scaled in H. cbn [Z.abs] in H.
  exact (round_error (xorb sx sy) (mx * my) (ex + ey) k H Hk).
Qed.

(** A sum: finite, and within rounding error of the exact sum. *)
Lemma add_error x y k :
  is_finite x = true -> is_finite y = true ->
  (Qabs (value x + value y) < 2 ^ k)%Q -> -1073 <= k <= 971 ->
  is_finite (add x y) = true /\
  (Qabs (value (add x y) - (value x + value y))
   <= (1 # 2 ^ 52) * Qabs (value x + value y) + 2 ^ (-1074))%Q.
Proof.
  intros Hx Hy H Hk.
  destruct x as [sx|sx| |sx mx ex]; try discriminate Hx;
    destruct y as [sy|sy| |sy my ey]; try discriminate Hy.
  - split; [now destruct sx, sy|].
    apply exact_within_error. destruct sx, sy; cbn; ring.
  - split; [reflexivity|]. apply exact_within_error. cbn [add SFadd value]. ring.
  - split; [reflexivity|]. apply exact_within_error. cbn [add SFadd value]. ring.
  - cbn [add SFadd].
    set (ez := Z.min ex ey).
    destruct (shl_align_spec mx ex ez) as [Hvx Hex].
    destruct (shl_align_spec my ey ez) as [Hvy Hey].
    rewrite Hex in Hvx by (subst ez; lia). rewrite Hey in Hvy by (subst ez; lia).
    set (mx' := fst (shl_align mx ex ez)) in *.
    set (my' := fst (shl_align my ey ez)) in *.
    assert (Hsum : (value (S754_finite sx mx ex) + value (S754_finite sy my ey)
                    == inject_Z (cond_Zopp sx (Zpos mx') + cond_Zopp sy (Zpos my'))
                       * 2 ^ ez)%Q).
    { rewrite !value_finite, inject_Z_plus, !inject_cond_Zopp.
      rewrite <- !Qmult_assoc, <- Hvx, <- Hvy. ring. }
    rewrite Hsum in *.
    exact (binary_normalize_error _ ez k H Hk).
Qed.


Lemma at_most_mono j k x : j <= k -> at_most j x = true -> at_most k x = true.
Proof.
  intros Hjk. destruct x as [s|s| |s m e]; cbn [at_most]; auto.
  rewrite !Z.leb_le. intros H.
  assert (0 <= j - e).
  { destruct (Z_lt_le_dec (j - e) 0) as [Hneg|]; [|assumption].
    rewrite Z.pow_neg_r in H by assumption. lia. }
  eapply Z.le_trans; [exact H|]. apply Z.pow_le_mono_r; lia.
Qed.

Lemma fabs_at_most k x : at_most k (fabs x) = at_most k x.
Proof. now destruct x. Qed.

(** The magnitude of a product. *)
Lemma mul_at_most j c x y :
  at_most j x = true ->
  match y with
  | S754_zero _ => True
  | S754_finite _ my ey => Zpos my < 2 ^ (c - ey)
  | _ => False
  end ->
  -1073 <= j + c <= 971 ->
  at_most (j + c) (mul x y) = true.
Proof.
  intros Hx Hy Hk.
  destruct x as [sx|sx| |sx mx ex]; try discriminate Hx;
    destruct y as [sy|sy| |sy my ey]; try contradiction; try reflexivity.
  cbn [at_most] in Hx. apply Z.leb_le in Hx.
  cbn [mul SFmul]. apply binary_round_aux_at_most; [lia| |exact Hk].
  assert (0 <= j - ex).
  { destruct (Z_lt_le_dec (j - ex) 0) as [Hneg|]; [|assumption].
    rewrite Z.pow_neg_r in Hx by assumption. lia. }
  assert (0 <= c - ey).
  { destruct (Z_lt_le_dec (c - ey) 0) as [Hneg|]; [|assumption].
    rewrite Z.pow_neg_r in Hy by assumption. lia. }
  replace (j + c - (ex + ey)) with ((j - ex) + (c - ey)) by lia.
  rewrite Z.pow_add_r, Pos2Z.inj_mul by assumption.
  assert (0 < 2 ^ (j - ex)) by (apply Z.pow_pos_nonneg; lia).
  nia.
Qed.

(** The magnitude of a quotient by a double above [2 ^ b]. *)
Lemma div_at_most j b x sy my ey :
  at_most j x = true ->
  2 ^ (b - ey) < Zpos my -> ey <= b ->
  -1020 <= j - b <= 971 ->
  at_most (j - b) (div x (S754_finite sy my ey)) = true.
Proof.
  intros Hx Hy Hey Hk.
  destruct x as [sx|sx| |sx mx ex]; try discriminate Hx; [reflexivity|].
  cbn [at_most] in Hx. apply Z.leb_le in Hx.
  assert (Hjx : 0 <= j - ex).
  { destruct (Z_lt_le_dec (j - ex) 0) as [Hneg|]; [|assumption].
    rewrite Z.pow_neg_r in Hx by assumption. lia. }
  cbn [div SFdiv]. unfold SFdiv_core_binary.
  set (d1 := Zdigits2 (Zpos mx)). set (d2 := Zdigits2 (Zpos my)).
  set (e' := Z.min (fexp prec emax (d1 + ex - (d2 + ey))) (ex - ey)).
  set (s := ex - ey - e').
  assert (Hs : 0 <= s) by (subst s e'; lia).
  set (m' := match s with Zpos _ => Z.shiftl (Zpos mx) s | 0 => Zpos mx | Zneg _ => 0 end).
  assert (Hm' : m' = Zpos mx * 2 ^ s).
  { subst m'. destruct s as [|p|p] eqn:Es; [cbn; lia| |lia].
    rewrite Z.shiftl_mul_pow2 by lia. reflexivity. }
  assert (Hd1 : d1 + ex <= j + 1).
  { destruct (Zdigits2_bounds (Zpos mx) ltac:(lia)) as [Hlo _]. fold d1 in Hlo.
    assert (Hp : 2 ^ (d1 - 1) <= 2 ^ (j - ex)) by lia.
    apply Z.pow_le_mono_r_iff in Hp; lia. }
  assert (Hd2 : b + 1 <= d2 + ey).
  { destruct (Zdigits2_bounds (Zpos my) ltac:(lia)) as [_ Hhi]. fold d2 in Hhi.
    assert (Hp : 2 ^ (b - ey) < 2 ^ d2) by lia.
    apply Z.pow_lt_mono_r_iff in Hp; [lia|lia|subst d2; apply Zdigits2_nonneg]. }
  assert (He' : e' <= j - b).
  { subst e'. rewrite fexp_eq. lia. }
  pose proof (Z_div_mod m' (Zpos my) ltac:(lia)) as Hdm.
  destruct (Z.div_eucl m' (Zpos my)) as [q r].
  destruct Hdm as [Hq Hr].
  assert (Hq0 : 0 <= q) by nia.
  apply binary_round_aux_at_most; [exact Hq0| |lia].
  destruct (Z_lt_le_dec q (2 ^ (j - b - e'))) as [|Hge]; [assumption|exfalso].
  assert (Hpow : 2 ^ (j - b - e') * 2 ^ (b - ey) = 2 ^ (j - ex) * 2 ^ s).
  { rewrite <- !Z.pow_add_r by lia. f_equal. subst s. lia. }
  assert (0 < 2 ^ (j - b - e')) by (apply Z.pow_pos_nonneg; lia).
  assert (0 < 2 ^ s) by (apply Z.pow_pos_nonneg; lia).
  nia.
Qed.

(** The conversion to [int32_t] of a double of magnitude at most [2 ^ 30]
    is defined. *)
Lemma static_cast_int32_at_most x :
  at_most 30 x = true -> exists z, static_cast_int32 x = Some z.
Proof.
  destruct x as [s|s| |s m e]; cbn [at_most]; try discriminate.
  - intros _. now exists 0.
  - rewrite Z.leb_le. intros H.
    assert (He : 0 <= 30 - e).
    { destruct (Z_lt_le_dec (30 - e) 0) as [Hneg|]; [|assumption].
      rewrite Z.pow_neg_r in H by assumption. lia. }
    cbn [static_cast_int32].
    set (t := if 0 <=? e then Zpos m * 2 ^ e else Zpos m / 2 ^ (- e)).
    assert (Ht : 0 <= t <= 2 ^ 30).
    { subst t. destruct (Z.leb_spec 0 e) as [Hpos|Hneg].
      - assert (0 < 2 ^ e) by (apply Z.pow_pos_nonneg; lia).
        split; [lia|].
        assert (Hp : 2 ^ 30 = 2 ^ (30 - e) * 2 ^ e)
          by (rewrite <- Z.pow_add_r by lia; f_equal; lia).
        rewrite Hp. nia.
      - assert (0 < 2 ^ (- e)) by (apply Z.pow_pos_nonneg; lia).
        split; [apply Z.div_pos; lia|].
        apply Z.div_le_upper_bound; [lia|].
        assert (Hp : 2 ^ (30 - e) = 2 ^ (- e) * 2 ^ 30)
          by (rewrite <- Z.pow_add_r by lia; f_equal; lia).
        lia. }
    change (2 ^ 30) with 1073741824 in Ht.
    assert (Hr : (-2147483648 <=? cond_Zopp s t) && (cond_Zopp s t <=? 2147483647) = true).
    { apply andb_true_intro. rewrite !Z.leb_le. destruct s; cbn [cond_Zopp]; lia. }
    rewrite Hr. eauto.
Qed.

End Binary64_rounding.

(** * Properties of the physics tick in binary64 *)

Section HAL64_physics.
Import Binary64 HAL64.
Local Open Scope Z_scope.

Lemma one_tenth_eq : one_tenth = S754_finite false 7205759403792794 (-56).
Proof. vm_compute. reflexivity. Qed.

Lemma nine_tenths_eq :
  sub (of_int 1) one_tenth = S754_finite false 8106479329266893 (-53).
Proof. vm_compute. reflexivity. Qed.

Lemma nine_tenths_value :
  (value (S754_finite false 8106479329266893 (-53))
   == 8106479329266893 # 9007199254740992)%Q.
Proof. vm_compute. reflexivity. Qed.

Lemma pow2_10 : (2 ^ 10 == 1024)%Q.
Proof. reflexivity. Qed.

Lemma pow2_11 : (2 ^ 11 == 2048)%Q.
Proof. reflexivity. Qed.

Lemma eta_small : (2 ^ (-1074) <= 1 # 1000000000000000000000000000000)%Q.
Proof. vm_compute. discriminate. Qed.

Lemma targets_ok_true g : targets_ok g = true.
Proof. destruct g; vm_compute; reflexivity. Qed.

Lemma target_ok_all g v : -127 <= v <= 127 -> target_ok g v = true.
Proof.
  intros Hv.
  apply (proj1 (forallb_forall (target_ok g) (seqZ (-127) 255)) (targets_ok_true g)).
  apply list_elem_of_In, elem_of_seqZ. lia.
Qed.


Lemma target_bound g v :
  -127 <= v <= 127 ->
  (-600 <= inject_Z v / 127 * max_velocity_Q g <= 600)%Q.
Proof.
  intros [Hlo Hhi].
  assert (H1 : (inject_Z (-127) <= inject_Z v)%Q) by (rewrite <- Zle_Qle; exact Hlo).
  assert (H2 : (inject_Z v <= inject_Z 127)%Q) by (rewrite <- Zle_Qle; exact Hhi).
  change (inject_Z (-127)) with (-127)%Q in H1.
  change (inject_Z 127) with 127%Q in H2.
  generalize dependent (inject_Z v). intros q H1 H2.
  unfold Qdiv. change (/ 127)%Q with (1 # 127)%Q.
  destruct g; cbn [max_velocity_Q]; split; lra.
Qed.

(** One step of the velocity filter in binary64: the velocity stays in
    range and its distance to the real target shrinks by the factor 0.9, up
    to a rounding error below [10 ^ -12]. *)
Lemma velocity_step a g v :
  -127 <= v <= 127 -> at_most 10 a = true ->
  let t := mul (div (of_int v) (of_int 127)) (max_velocity_of g) in
  let a' := add (mul a (sub (of_int 1) one_tenth)) (mul t one_tenth) in
  let T := (inject_Z v / 127 * max_velocity_Q g)%Q in
  at_most 10 a' = true /\
  (Qabs (value a' - ((9 # 10) * value a + (1 # 10) * T)) <= 1 # 1000000000000)%Q /\
  (Qabs (value a' - T) <= (9 # 10) * Qabs (value a - T) + (1 # 1000000000000))%Q.
Proof.
  intros Hv Ha t a' T. subst a'. rewrite nine_tenths_eq.
  set (c9 := S754_finite false 8106479329266893 (-53)).
  set (tc := mul t one_tenth).
  pose proof (target_ok_all g v Hv) as Htc. unfold target_ok in Htc.
  fold t in Htc. fold tc in Htc. fold T in Htc.
  apply andb_true_iff in Htc. destruct Htc as [Htcf Htce].
  apply Qle_bool_iff in Htce.
  destruct (at_most_value 10 a Ha) as [Haf HA]. rewrite pow2_10 in HA.
  pose proof (target_bound g v Hv) as HT. fold T in HT.
  clearbody T. unfold Qdiv in Htce. change (/ 10)%Q with (1 # 10)%Q in Htce.
  apply Qabs_Qle_condition in HA. apply Qabs_Qle_condition in Htce.
  assert (Hc9 : (value c9 == 8106479329266893 # 9007199254740992)%Q)
    by apply nine_tenths_value.
  pose proof eta_small as Heta. pose proof (pow2_pos (-1074)) as Heta0.
  (* the product *)
  destruct (mul_error a c9 10 Haf eq_refl) as [Hpf Hpe]; [|lia|].
  { rewrite pow2_10, Hc9. apply Qabs_Qlt_condition. split; lra. }
  assert (Hz : (Qabs (value a * value c9) <= 1024)%Q).
  { rewrite Hc9. apply Qabs_Qle_condition. split; lra. }
  change (1 # 2 ^ 52)%Q with (1 # 4503599627370496)%Q in Hpe.
  pose proof (Qabs_nonneg (value a * value c9)) as Hz0.
  set (z := Qabs (value a * value c9)) in *. clearbody z.
  remember (2 ^ (-1074))%Q as eta eqn:Eeta.
  apply Qabs_Qle_condition in Hpe. rewrite Hc9 in Hpe.
  set (p := mul a c9) in *.
  (* the sum *)
  destruct (add_error p tc 11 Hpf Htcf) as [Hsf Hse]; [|lia|].
  { rewrite pow2_11. apply Qabs_Qlt_condition. split; lra. }
  assert (Hw : (Qabs (value p + value tc) <= 2048)%Q).
  { apply Qabs_Qle_condition. split; lra. }
  change (1 # 2 ^ 52)%Q with (1 # 4503599627370496)%Q in Hse.
  pose proof (Qabs_nonneg (value p + value tc)) as Hw0.
  set (w := Qabs (value p + value tc)) in *. clearbody w.
  rewrite <- Eeta in Hse. clear Eeta.
  apply Qabs_Qle_condition in Hse.
  split.
  - apply value_at_most; [exact Hsf|]. rewrite pow2_10.
    apply Qabs_Qle_condition. split; lra.
  - split; [apply Qabs_Qle_condition; split; lra|].
    pose proof (Qle_Qabs (value a - T)) as Hd1.
    pose proof (Qle_Qabs (- (value a - T))) as Hd2. rewrite Qabs_opp in Hd2.
    set (d := Qabs (value a - T)) in *. clearbody d.
    apply Qabs_Qle_condition. split; lra.
Qed.


(** The cast of the tick is defined for a velocity in range. *)
Lemma current_cast_defined a g :
  at_most 10 a = true ->
  exists z,
    static_cast_int32 (mul (fabs (div a (max_velocity_of g))) (of_int 2000)) = Some z.
Proof.
  intros Ha. apply static_cast_int32_at_most.
  apply (at_most_mono 15 30); [lia|].
  change 15 with (4 + 11).
  apply mul_at_most; [|vm_compute; reflexivity|lia].
  rewrite fabs_at_most. change 4 with (10 - 6).
  destruct g; cbn [max_velocity_of].
  - change (of_int 100) with (S754_finite false 7036874417766400 (-46)).
    apply div_at_most; [exact Ha|reflexivity|lia|lia].
  - change (of_int 200) with (S754_finite false 7036874417766400 (-45)).
    apply div_at_most; [exact Ha|reflexivity|lia|lia].
  - change (of_int 600) with (S754_finite false 5277655813324800 (-43)).
    apply div_at_most; [exact Ha|reflexivity|lia|lia].
  - change (of_int 200) with (S754_finite false 7036874417766400 (-45)).
    apply div_at_most; [exact Ha|reflexivity|lia|lia].
Qed.

(** One tick of a motor in range: it is defined, keeps the motor in range
    and the commanded voltage, gearset and connection, and for a connected
    motor contracts the distance to the target up to rounding. *)
Lemma update_motor_in_range m :
  in_range m ->
  exists m',
    update_motor m = Some m' /\ in_range m' /\
    voltage m' = voltage m /\ gearset m' = gearset m /\
    connected m' = connected m /\
    (connected m = true ->
     (distance m' <= (9 # 10) * distance m + (1 # 1000000000000))%Q).
Proof.
  intros [Hv Ha]. unfold update_motor.
  destruct (connected m) eqn:Hc; cbn [negb].
  2:{ exists m. split; [reflexivity|]. split; [split; assumption|].
      repeat split; auto. discriminate. }
  destruct (velocity_step _ (gearset m) _ Hv Ha) as (Ha' & _ & Hdist).
  cbv zeta in Ha', Hdist.
  set (a' := add (mul (actual_velocity m) (sub (of_int 1) one_tenth))
                 (mul (mul (div (of_int (voltage m)) (of_int 127))
                           (max_velocity_of (gearset m))) one_tenth)) in *.
  destruct (current_cast_defined a' (gearset m) Ha') as [z Hz].
  rewrite Hz. eexists. split; [reflexivity|].
  cbn [voltage gearset connected actual_velocity].
  split; [split; assumption|].
  repeat split; auto.
Qed.

Lemma update_in_range ms :
  Forall in_range ms ->
  exists ms',
    update ms = Some ms' /\ Forall in_range ms' /\
    forall i,
      let m := default MotorState_default (ms !! i) in
      let m' := default MotorState_default (ms' !! i) in
      voltage m' = voltage m /\ gearset m' = gearset m /\
      connected m' = connected m /\
      (connected m = true ->
       (distance m' <= (9 # 10) * distance m + (1 # 1000000000000))%Q).
Proof.
  induction 1 as [|m ms Hm _ (ms' & Hu & Hr & Hi)].
  - exists []. repeat split; auto. discriminate.
  - destruct (update_motor_in_range m Hm) as (m' & Hum & Hrm & Hrest).
    exists (m' :: ms'). cbn [update]. rewrite Hum, Hu.
    split; [reflexivity|]. split; [constructor; assumption|].
    intros [|i]; cbn [lookup list_lookup default]; [exact Hrest|apply Hi].
Qed.


Lemma target_same m m' :
  voltage m' = voltage m -> gearset m' = gearset m -> target m' = target m.
Proof. unfold target. now intros -> ->. Qed.

Lemma nine_tenths_pow_succ k :
  ((9 # 10) ^ Z.of_nat (S k) == (9 # 10) * (9 # 10) ^ Z.of_nat k)%Q.
Proof.
  rewrite Nat2Z.inj_succ. unfold Z.succ.
  rewrite Qpower_plus by discriminate. rewrite Qmult_comm. reflexivity.
Qed.

Lemma nine_tenths_pow_nonneg k : (0 <= (9 # 10) ^ Z.of_nat k)%Q.
Proof. apply Qpower_0_le. discriminate. Qed.

Lemma updates_in_range N ms :
  Forall in_range ms ->
  exists msN,
    updates N ms = Some msN /\ Forall in_range msN /\
    forall i,
      let m := default MotorState_default (ms !! i) in
      let mN := default MotorState_default (msN !! i) in
      voltage mN = voltage m /\ gearset mN = gearset m /\
      connected mN = connected m /\
      (connected m = true ->
       (distance mN - (1 # 100000000000)
        <= (9 # 10) ^ Z.of_nat N * (distance m - (1 # 100000000000)))%Q).
Proof.
  revert ms. induction N as [|k IH]; intros ms Hr.
  - exists ms. split; [reflexivity|]. split; [exact Hr|].
    intros i. repeat split; auto. intros _.
    change ((9 # 10) ^ Z.of_nat 0)%Q with 1%Q. lra.
  - destruct (update_in_range ms Hr) as (ms' & Hu & Hr' & H1).
    destruct (IH ms' Hr') as (msN & HuN & HrN & HN).
    exists msN. cbn [updates]. rewrite Hu. split; [exact HuN|].
    split; [exact HrN|].
    intros i. specialize (H1 i). specialize (HN i). cbv zeta in H1, HN |- *.
    destruct H1 as (Hv1 & Hg1 & Hc1 & Hd1). destruct HN as (HvN & HgN & HcN & HdN).
    split; [congruence|]. split; [congruence|]. split; [congruence|].
    intros Hc. specialize (Hd1 Hc). specialize (HdN (eq_trans Hc1 Hc)).
    rewrite nine_tenths_pow_succ.
    pose proof (nine_tenths_pow_nonneg k) as Hp.
    set (q := ((9 # 10) ^ Z.of_nat k)%Q) in *. clearbody q.
    set (dN := distance (default MotorState_default (msN !! i))) in *.
    set (d1 := distance (default MotorState_default (ms' !! i))) in *.
    set (d0 := distance (default MotorState_default (ms !! i))) in *.
    clearbody dN d1 d0.
    apply Qle_trans with (q * (d1 - (1 # 100000000000)))%Q; [exact HdN|].
    setoid_replace ((9 # 10) * q * (d0 - (1 # 100000000000)))%Q
      with (q * ((9 # 10) * (d0 - (1 # 100000000000))))%Q using relation Qeq by ring.
    rewrite !(Qmult_comm q). apply Qmult_le_compat_r; [lra|exact Hp].
Qed.


Lemma clamp_voltage_range v : -127 <= clamp v (-127) 127 <= 127.
Proof.
  unfold clamp. destruct (v <? -127) eqn:E1; [lia|].
  destruct (127 <? v) eqn:E2; [lia|]. apply Z.ltb_ge in E1, E2. lia.
Qed.

Lemma in_range_constructed : Forall in_range constructed.
Proof.
  unfold constructed. apply Forall_replicate. split; [cbn; lia|reflexivity].
Qed.

Lemma in_range_alter f i ms :
  (forall m, in_range m -> in_range (f m)) ->
  Forall in_range ms -> Forall in_range (alter f i ms).
Proof. intros Hf H. apply Forall_alter; [exact H|]. intros m _. apply Hf. Qed.

Lemma in_range_set_motor ms port v :
  Forall in_range ms -> Forall in_range (set_motor ms port v).
Proof.
  intros H. unfold set_motor. destruct (HAL.bad_port port); [exact H|].
  apply in_range_alter; [|exact H].
  intros m [_ Ha]. split; [apply clamp_voltage_range|exact Ha].
Qed.

Lemma in_range_set_motor_gearset ms port g :
  Forall in_range ms -> Forall in_range (set_motor_gearset ms port g).
Proof.
  intros H. unfold set_motor_gearset. destruct (HAL.bad_port port); [exact H|].
  apply in_range_alter; [|exact H]. intros m Hm. exact Hm.
Qed.

Lemma in_range_set_motor_connected ms port c :
  Forall in_range ms -> Forall in_range (set_motor_connected ms port c).
Proof.
  intros H. unfold set_motor_connected. destruct (HAL.bad_port port); [exact H|].
  apply in_range_alter; [|exact H]. intros m Hm. exact Hm.
Qed.

(** [C7] Every motor array reached from the constructed one by [set_motor],
    [set_motor_gearset], [set_motor_connected] and [update] holds, in every
    motor, a voltage within -127..127 and a velocity of magnitude at most
    1024.  On such an array any number of consecutive [update] ticks is
    defined, and for every connected motor the distance of
    [actual_velocity] to the real target [voltage / 127 * max_velocity]
    shrinks by the factor 0.9 per tick up to a rounding error: after one
    more tick it is at most 0.9 times the distance before plus [10 ^ -12],
    and after [N] ticks it is at most [0.9 ^ N] times the initial distance
    plus [10 ^ -11]. *)
Theorem filter_converges_up_to_rounding :
  (Forall in_range constructed /\
   (forall motors port v,
      Forall in_range motors -> Forall in_range (set_motor motors port v)) /\
   (forall motors port g,
      Forall in_range motors -> Forall in_range (set_motor_gearset motors port g)) /\
   (forall motors port c,
      Forall in_range motors -> Forall in_range (set_motor_connected motors port c))) /\
  (forall (motors : list MotorState) (port : Z) (N : nat),
     Forall in_range motors ->
     connected (motor_at motors port) = true ->
     exists motorsN motorsN1,
       updates N motors = Some motorsN /\
       update motorsN = Some motorsN1 /\
       Forall in_range motorsN /\
       Forall in_range motorsN1 /\
       target (motor_at motorsN port) = target (motor_at motors port) /\
       target (motor_at motorsN1 port) = target (motor_at motors port) /\
       (distance (motor_at motorsN1 port)
        <= (9 # 10) * distance (motor_at motorsN port) + (1 # 1000000000000))%Q /\
       (distance (motor_at motorsN port)
        <= (9 # 10) ^ Z.of_nat N * distance (motor_at motors port)
           + (1 # 100000000000))%Q).
Proof.
  split.
  { split; [exact in_range_constructed|].
    split; [exact in_range_set_motor|].
    split; [exact in_range_set_motor_gearset|exact in_range_set_motor_connected]. }
  intros motors port N Hr Hc.
  destruct (updates_in_range N motors Hr) as (msN & HuN & HrN & HN).
  destruct (update_in_range msN HrN) as (msN1 & Hu1 & HrN1 & H1).
  exists msN, msN1. split; [exact HuN|]. split; [exact Hu1|].
  split; [exact HrN|]. split; [exact HrN1|].
  unfold motor_at in *.
  specialize (HN (Z.to_nat (port - 1))). specialize (H1 (Z.to_nat (port - 1))).
  cbv zeta in HN, H1.
  destruct HN as (HvN & HgN & HcN & HdN). destruct H1 as (Hv1 & Hg1 & Hc1 & Hd1).
  split; [apply target_same; assumption|].
  split; [apply target_same; congruence|].
  split; [apply Hd1; congruence|].
  specialize (HdN Hc).
  pose proof (nine_tenths_pow_nonneg N) as Hp.
  set (q := ((9 # 10) ^ Z.of_nat N)%Q) in *. clearbody q.
  set (dN := distance (default MotorState_default (msN !! Z.to_nat (port - 1)))) in *.
  set (d0 := distance (default MotorState_default (motors !! Z.to_nat (port - 1)))) in *.
  clearbody dN d0. nra.
Qed.

Lemma filter_converges_up_to_rounding_witness :
  exists motorsN motorsN1,
    updates 3 (set_motor bench_motor 1 64) = Some motorsN /\
    update motorsN = Some motorsN1 /\
    Forall in_range motorsN /\
    Forall in_range motorsN1 /\
    target (motor_at motorsN 1) = target (motor_at (set_motor bench_motor 1 64) 1) /\
    target (motor_at motorsN1 1) = target (motor_at (set_motor bench_motor 1 64) 1) /\
    (distance (motor_at motorsN1 1)
     <= (9 # 10) * distance (motor_at motorsN 1) + (1 # 1000000000000))%Q /\
    (distance (motor_at motorsN 1)
     <= (9 # 10) ^ Z.of_nat 3 * distance (motor_at (set_motor bench_motor 1 64) 1)
        + (1 # 100000000000))%Q.
Proof.
  apply (proj2 filter_converges_up_to_rounding (set_motor bench_motor 1 64) 1 3%nat).
  - apply in_range_set_motor, in_range_set_motor_connected, in_range_constructed.
  - reflexivity.
Defined.

(** In binary64 the distance to the target is not monotone and the factor
    [0.9 ^ N] is not met: with 18:1 and voltage -114 from rest the distance
    grows from tick 328 to tick 329, and with voltage 127 the distance after
    6 ticks exceeds [0.9 ^ 6] times the initial distance. *)
Lemma filter_distance_grows_by_rounding :
  (exists motors328 motors329,
     updates 328 (set_motor bench_motor 1 (-114)) = Some motors328 /\
     update motors328 = Some motors329 /\
     (distance (motor_at motors328 1) < distance (motor_at motors329 1))%Q) /\
  (exists motors6,
     updates 6 (set_motor bench_motor 1 127) = Some motors6 /\
     ((9 # 10) ^ 6 * distance (motor_at (set_motor bench_motor 1 127) 1)
      < distance (motor_at motors6 1))%Q).
Proof.
  split.
  - eexists. eexists. split; [vm_compute; reflexivity|].
    split; [vm_compute; reflexivity|]. vm_compute. reflexivity.
  - eexists. split; [vm_compute; reflexivity|]. vm_compute. reflexivity.
Qed.

End HAL64_physics.

Section HAL64_tick.
Import Binary64 HAL64.
Local Open Scope Z_scope.

Lemma update_lookup ms ms' i :
  update ms = Some ms' ->
  ms' !! i = match ms !! i with
             | Some m => update_motor m
             | None => None
             end.
Proof.
  revert ms' i. induction ms as [|m ms IH]; intros ms' i; cbn [update].
  - intros [= <-]. reflexivity.
  - destruct (update_motor m) as [m'|] eqn:Hm; [|discriminate].
    destruct (update ms) as [rest|] eqn:Hr; [|discriminate].
    intros [= <-]. destruct i as [|i]; cbn [lookup list_lookup].
    + now rewrite Hm.
    + now apply IH.
Qed.

Lemma update_length ms ms' : update ms = Some ms' -> length ms' = length ms.
Proof.
  revert ms'. induction ms as [|m ms IH]; intros ms'; cbn [update].
  - now intros [= <-].
  - destruct (update_motor m); [|discriminate].
    destruct (update ms) as [rest|]; [|discriminate].
    intros [= <-]. cbn [length]. f_equal. now apply IH.
Qed.

(** [C1] One call of [HAL::update] on a connected motor, every operation
    rounded to binary64 in source order: the new velocity is
    [old * (1.0 - 0.1) + (voltage / 127.0 * max_velocity) * 0.1] with
    [max_velocity] 100, 200 or 600 by gearset, the position grows by
    [velocity * (10.0 / 60000.0) * 360.0], the current is the integer part
    of [|velocity / max_velocity| * 2000] and the temperature
    [25.0 + (|current| / 2500.0) * 30.0]; the tick is undefined exactly
    when the cast is (its argument is a NaN, an infinity, or has an integer
    part that is not an [int32_t]).  For a motor in range
    (voltage within -127..127, velocity of magnitude at most 1024) the
    tick is defined, the new velocity is in range again and within
    [10 ^ -12] of the exact [old * 0.9 + target * 0.1].  [update] applies
    the tick to every motor of the array.  After [set_motor(1, 127)] on a
    connected 18:1 motor at rest and 50 ticks the velocity is the double
    198.969244958536 (within [2 * 10 ^ -14] of [200 * (1 - 0.9 ^ 50)]), the
    current is 1989 and the temperature is the double 48.867999999999995
    (within 0.14 of 49). *)
Theorem update_connected_motor_physics :
  (forall (m : MotorState),
     connected m = true ->
     let max_velocity := max_velocity_of (gearset m) in
     let target_velocity :=
       mul (div (of_int (voltage m)) (of_int 127)) max_velocity in
     let alpha := one_tenth in
     let actual_velocity' :=
       add (mul (actual_velocity m) (sub (of_int 1) alpha))
           (mul target_velocity alpha) in
     let position' :=
       add (position m)
           (mul (mul actual_velocity' (div (of_int 10) (of_int 60000)))
                (of_int 360)) in
     let current_as_double :=
       mul (fabs (div actual_velocity' max_velocity)) (of_int 2000) in
     (value max_velocity == max_velocity_Q (gearset m))%Q /\
     match static_cast_int32 current_as_double with
     | Some current' =>
         update_motor m =
         Some {| voltage := voltage m; velocity := velocity m;
                 position := position'; actual_velocity := actual_velocity';
                 current := current';
                 temperature :=
                   add (of_int 25)
                       (mul (div (of_int (Z.abs current')) (of_int 2500))
                            (of_int 30));
                 gearset := gearset m; reversed := reversed m;
                 connected := true |}
     | None => update_motor m = None
     end /\
     (in_range m ->
      static_cast_int32 current_as_double <> None /\
      at_most 10 actual_velocity' = true /\
      (Qabs (value actual_velocity'
             - ((9 # 10) * value (actual_velocity m) + (1 # 10) * target m))
       <= 1 # 1000000000000)%Q)) /\
  (forall (motors motors' : list MotorState) (port : Z),
     update motors = Some motors' ->
     1 <= port <= Z.of_nat (length motors) ->
     update_motor (motor_at motors port) = Some (motor_at motors' port)) /\
  (exists motors50,
     updates 50 (set_motor bench_motor 1 127) = Some motors50 /\
     actual_velocity (motor_at motors50 1)
       = S754_finite false 7000607948855091 (-45) /\
     (Qabs (value (actual_velocity (motor_at motors50 1))
            - 200 * (1 - (9 # 10) ^ 50))
      <= 2 # 100000000000000)%Q /\
     current (motor_at motors50 1) = 1989 /\
     temperature (motor_at motors50 1)
       = S754_finite false 6877559580948168 (-47) /\
     (Qabs (49 - value (temperature (motor_at motors50 1))) <= 14 # 100)%Q).
Proof.
  split; [|split].
  - intros m Hc. cbv zeta. split; [destruct (gearset m); vm_compute; reflexivity|].
    split.
    + unfold update_motor. rewrite Hc. cbn [negb].
      destruct (static_cast_int32 _); reflexivity.
    + intros [Hv Ha].
      destruct (velocity_step _ (gearset m) _ Hv Ha) as (Ha' & Hf & _).
      cbv zeta in Ha', Hf. split; [|split; [exact Ha'|exact Hf]].
      destruct (current_cast_defined _ (gearset m) Ha') as [z Hz].
      rewrite Hz. discriminate.
  - intros motors motors' port Hu Hp.
    pose proof (update_lookup motors motors' (Z.to_nat (port - 1)) Hu) as Hl.
    unfold motor_at.
    destruct (motors !! Z.to_nat (port - 1)) as [m|] eqn:Hm.
    + cbn. rewrite <- Hl.
      destruct (motors' !! Z.to_nat (port - 1)) as [m'|] eqn:Hm'; [reflexivity|].
      apply lookup_ge_None in Hm'. apply lookup_lt_Some in Hm.
      rewrite (update_length _ _ Hu) in Hm'. lia.
    + apply lookup_ge_None in Hm. lia.
  - eexists. split; [vm_compute; reflexivity|].
    split; [vm_compute; reflexivity|].
    split; [vm_compute; discriminate|].
    split; [vm_compute; reflexivity|].
    split; [vm_compute; reflexivity|]. vm_compute. discriminate.
Qed.


Lemma update_connected_motor_physics_witness :
  update_motor (motor_at (set_motor bench_motor 1 127) 1) <> None.
Proof.
  destruct (proj1 update_connected_motor_physics
              (motor_at (set_motor bench_motor 1 127) 1) eq_refl)
    as (_ & Hm & Hr).
  destruct Hr as [Hdef _];
    [split; [vm_compute; split; discriminate|reflexivity]|].
  cbv zeta in Hm, Hdef.
  destruct (static_cast_int32 _); [rewrite Hm; discriminate|contradiction].
Defined.

(** The velocity update is not the exact formula: one tick from velocity
    1.0 at voltage 0 gives the double nearest to 0.9, which is not 9/10, and
    the velocity after [set_motor(1, 127)] and 50 ticks is not
    [200 * (1 - 0.9 ^ 50)]. *)
Lemma update_velocity_is_rounded :
  (let m := mkMotorState 0 0 (S754_zero false) (of_int 1) 0 (of_int 25)
                         HAL.E_MOTOR_GEARSET_18 false true in
   exists m',
     update_motor m = Some m' /\
     ~ (value (actual_velocity m')
        == value (actual_velocity m) * (1 - (1 # 10))
           + inject_Z (voltage m) / 127 * 200 * (1 # 10))%Q) /\
  (exists motors50,
     updates 50 (set_motor bench_motor 1 127) = Some motors50 /\
     ~ (value (actual_velocity (motor_at motors50 1))
        == 200 * (1 - (9 # 10) ^ 50))%Q).
Proof.
  split.
  - eexists. split; [vm_compute; reflexivity|].
    intros H. vm_compute in H. discriminate H.
  - eexists. split; [vm_compute; reflexivity|].
    intros H. vm_compute in H. discriminate H.
Qed.

End HAL64_tick.

(** * Properties of the transport channel *)

Section IPC_properties.
Import IPC.
Local Open Scope string_scope.
Local Open Scope Z_scope.

(** *** Outbound framing *)

Lemma byte_val_to_char n : byte_val (to_char n) = n mod 256.
Proof.
  unfold byte_val, to_char.
  assert (H : 0 <= n mod 256 < 256) by (apply Z.mod_pos_bound; lia).
  rewrite N_ascii_embedding by lia. lia.
Qed.

Lemma byte_val_to_char_small n : 0 <= n < 256 -> byte_val (to_char n) = n.
Proof. intros H. rewrite byte_val_to_char. now apply Z.mod_small. Qed.

Lemma land_255 n : 0 <= n -> Z.land n 255 = n mod 256.
Proof. intros _. change 255 with (Z.ones 8). now rewrite Z.land_ones by lia. Qed.

Lemma bytes_app s t : bytes (s ++ t) = (bytes s ++ bytes t)%list.
Proof.
  unfold bytes. induction s as [|c s IH]; simpl; [reflexivity|].
  now rewrite IH.
Qed.

Lemma be_bytes_16 n :
  0 <= n <= 65535 -> ((n / 256) mod 256) * 256 + n mod 256 = n.
Proof.
  intros H. rewrite (Z.mod_small (n / 256)).
  - pose proof (Z.div_mod n 256). lia.
  - split; [apply Z.div_pos; lia | apply Z.div_lt_upper_bound; lia].
Qed.

Lemma be_bytes_64 n :
  0 <= n < 2 ^ 64 ->
  (((((((n / 2 ^ 56) mod 256 * 256 + (n / 2 ^ 48) mod 256) * 256
       + (n / 2 ^ 40) mod 256) * 256 + (n / 2 ^ 32) mod 256) * 256
     + (n / 2 ^ 24) mod 256) * 256 + (n / 2 ^ 16) mod 256) * 256
   + (n / 2 ^ 8) mod 256) * 256 + (n / 2 ^ 0) mod 256 = n.
Proof.
  intros H.
  assert (D : forall a b, 0 < a -> 0 < b -> (n / a) mod b = n / a - b * (n / (a * b))).
  { intros a b Ha Hb. rewrite Z.mod_eq by lia. rewrite Z.div_div by lia. reflexivity. }
  rewrite !D by lia.
  change (2 ^ 56 * 256) with (2 ^ 64).
  change (2 ^ 48 * 256) with (2 ^ 56).
  change (2 ^ 40 * 256) with (2 ^ 48).
  change (2 ^ 32 * 256) with (2 ^ 40).
  change (2 ^ 24 * 256) with (2 ^ 32).
  change (2 ^ 16 * 256) with (2 ^ 24).
  change (2 ^ 8 * 256) with (2 ^ 16).
  change (2 ^ 0 * 256) with (2 ^ 8).
  rewrite (Z.div_small n (2 ^ 64)) by lia.
  change (2 ^ 0) with 1. rewrite Z.div_1_r. lia.
Qed.

Lemma length_prefix_small n :
  0 <= n <= 125 -> bytes (length_prefix n) = [n].
Proof.
  intros H. unfold length_prefix.
  replace (n <=? 125) with true by lia.
  unfold bytes. simpl. rewrite byte_val_to_char_small by lia. reflexivity.
Qed.

Lemma length_prefix_medium n :
  126 <= n <= 65535 ->
  bytes (length_prefix n) = [126; (n / 256) mod 256; n mod 256].
Proof.
  intros H. unfold length_prefix.
  replace (n <=? 125) with false by lia.
  replace (n <=? 65535) with true by lia.
  unfold bytes. simpl.
  rewrite !byte_val_to_char, !land_255, Z.shiftr_div_pow2 by
    (try apply Z.shiftr_nonneg; lia).
  change (2 ^ 8) with 256. rewrite !Zmod_mod. reflexivity.
Qed.

Lemma length_prefix_large n :
  65535 < n ->
  bytes (length_prefix n) =
  127 :: map (fun i => (n / 2 ^ (i * 8)) mod 256) [7; 6; 5; 4; 3; 2; 1; 0].
Proof.
  intros H. unfold length_prefix.
  replace (n <=? 125) with false by lia.
  replace (n <=? 65535) with false by lia.
  unfold bytes. simpl.
  rewrite !byte_val_to_char, !land_255, !Z.shiftr_div_pow2 by
    (try apply Z.shiftr_nonneg; lia).
  rewrite !Zmod_mod. reflexivity.
Qed.

(** [C3] For every payload [send_message] writes a frame that starts with
    the byte 0x81, continues with a length prefix chosen by the payload
    size [n] (the single byte [n] when [n <= 125]; the byte 126 and [n] as
    two big-endian bytes when [126 <= n <= 65535]; the byte 127 and [n] as
    eight big-endian bytes when [n > 65535]) and ends with the payload
    itself.  The sizes 125, 126, 65535 and 65536 take the one-byte, 16-bit,
    16-bit and 64-bit prefix. *)
Theorem send_message_frame_layout :
  forall (c : IPCClient) (json : string),
    _connected c = true -> size json < 2 ^ 64 ->
    let n := size json in
    wire (send_message c json) = (wire c ++ [frame json])%list /\
    bytes (frame json) = (129 :: bytes (length_prefix n) ++ bytes json)%list /\
    (n <= 125 -> bytes (length_prefix n) = [n]) /\
    (126 <= n <= 65535 ->
       exists hi lo, bytes (length_prefix n) = [126; hi; lo] /\
                     0 <= hi < 256 /\ 0 <= lo < 256 /\ hi * 256 + lo = n) /\
    (65535 < n ->
       exists b7 b6 b5 b4 b3 b2 b1 b0,
         bytes (length_prefix n) = [127; b7; b6; b5; b4; b3; b2; b1; b0] /\
         Forall (fun b => 0 <= b < 256) [b7; b6; b5; b4; b3; b2; b1; b0] /\
         ((((((b7 * 256 + b6) * 256 + b5) * 256 + b4) * 256 + b3) * 256
             + b2) * 256 + b1) * 256 + b0 = n) /\
    (n = 125 -> bytes (length_prefix n) = [125]) /\
    (n = 126 -> bytes (length_prefix n) = [126; 0; 126]) /\
    (n = 65535 -> bytes (length_prefix n) = [126; 255; 255]) /\
    (n = 65536 -> bytes (length_prefix n) = [127; 0; 0; 0; 0; 0; 1; 0; 0]).
Proof.
  intros c json Hc Hsz n.
  assert (Hn : 0 <= n) by (unfold n, size; lia).
  split; [unfold send_message; now rewrite Hc|].
  split.
  { unfold frame. fold n. unfold bytes at 1. simpl.
    fold (bytes (length_prefix n ++ json)). rewrite bytes_app.
    rewrite byte_val_to_char_small by lia. reflexivity. }
  split; [intros H; apply length_prefix_small; lia|].
  split.
  { intros H. exists ((n / 256) mod 256), (n mod 256).
    split; [now apply length_prefix_medium|].
    split; [apply Z.mod_pos_bound; lia|].
    split; [apply Z.mod_pos_bound; lia|].
    apply be_bytes_16. lia. }
  split.
  { intros H. rewrite length_prefix_large by assumption. simpl map.
    do 8 eexists. split; [reflexivity|]. split.
    - repeat constructor; apply Z.mod_pos_bound; lia.
    - apply be_bytes_64. fold n in Hsz. lia. }
  repeat split; intros ->; reflexivity.
Qed.

Lemma send_message_frame_layout_witness :
  bytes (length_prefix (size (payload (Z.to_nat 125)))) = [125] /\
  bytes (length_prefix (size (payload (Z.to_nat 126)))) = [126; 0; 126] /\
  bytes (length_prefix (size (payload (Z.to_nat 65535)))) = [126; 255; 255] /\
  bytes (length_prefix (size (payload (Z.to_nat 65536)))) = [127; 0; 0; 0; 0; 0; 1; 0; 0].
Proof.
  pose (c := mkIPCClient true true []).
  assert (S125 : size (payload (Z.to_nat 125)) = 125) by (vm_compute; reflexivity).
  assert (S126 : size (payload (Z.to_nat 126)) = 126) by (vm_compute; reflexivity).
  assert (S65535 : size (payload (Z.to_nat 65535)) = 65535) by (vm_compute; reflexivity).
  assert (S65536 : size (payload (Z.to_nat 65536)) = 65536) by (vm_compute; reflexivity).
  destruct (send_message_frame_layout c (payload (Z.to_nat 125)) eq_refl)
    as (_ & _ & _ & _ & _ & H125 & _); [rewrite S125; reflexivity|].
  destruct (send_message_frame_layout c (payload (Z.to_nat 126)) eq_refl)
    as (_ & _ & _ & _ & _ & _ & H126 & _); [rewrite S126; reflexivity|].
  destruct (send_message_frame_layout c (payload (Z.to_nat 65535)) eq_refl)
    as (_ & _ & _ & _ & _ & _ & _ & H65535 & _); [rewrite S65535; reflexivity|].
  destruct (send_message_frame_layout c (payload (Z.to_nat 65536)) eq_refl)
    as (_ & _ & _ & _ & _ & _ & _ & _ & H65536); [rewrite S65536; reflexivity|].
  auto.
Defined.


(** *** Inbound decoding of an outbound motor record *)

Lemma index_none_cons needle c s :
  String.prefix needle (String c s) = false ->
  index 0 needle s = None ->
  index 0 needle (String c s) = None.
Proof.
  intros Hp Hi.
  change (index 0 needle (String c s))
    with (if String.prefix needle (String c s) then Some 0%nat
          else match index 0 needle s with
               | Some n => Some (S n)
               | None => None
               end).
  rewrite Hp, Hi. reflexivity.
Qed.

Lemma index_none_skip needle t r :
  quote_free t = true ->
  index 0 (String dq needle) r = None ->
  index 0 (String dq needle) (t ++ r) = None.
Proof.
  intros Hq Hr. induction t as [|c t IH]; [exact Hr|].
  simpl in Hq. apply andb_true_iff in Hq as [Hc Ht].
  change (String c t ++ r) with (String c (t ++ r)).
  apply index_none_cons; [|now apply IH].
  change (String.prefix (String dq needle) (String c (t ++ r)))
    with (match ascii_dec dq c with
          | left _ => String.prefix needle (t ++ r)
          | right _ => false
          end).
  destruct (ascii_dec dq c) as [E|_]; [|reflexivity].
  rewrite <- E, Ascii.eqb_refl in Hc. discriminate.
Qed.

Lemma string_of_uint_quote_free u : quote_free (NilEmpty.string_of_uint u) = true.
Proof. induction u; simpl; auto. Qed.

Lemma show_int_quote_free n : quote_free (show_int n) = true.
Proof.
  unfold show_int, NilZero.string_of_int, NilZero.string_of_uint.
  destruct (Z.to_int n) as [u|u]; destruct u; simpl;
    auto using string_of_uint_quote_free.
Qed.

Ltac no_occurrence :=
  repeat first
    [ apply index_none_cons; [reflexivity|]
    | apply index_none_skip; [assumption|] ];
  reflexivity.

(** None of the four inbound probes occurs in a motor record whose number
    texts are free of double quotes. *)
Lemma motor_record_has_no_probe (P V W X : string) :
  quote_free P = true -> quote_free V = true ->
  quote_free W = true -> quote_free X = true ->
  let json :=
    "{" ++ quoted "type" ++ ":" ++ quoted "motor" ++ "," ++ quoted "port" ++ ":"
        ++ P ++ "," ++ quoted "voltage" ++ ":" ++ V
        ++ "," ++ quoted "velocity" ++ ":" ++ W
        ++ "," ++ quoted "position" ++ ":" ++ X ++ "}" in
  find json probe_touch 0 = None /\
  find json probe_controller 0 = None /\
  find json probe_mode 0 = None /\
  find json probe_select_auto 0 = None.
Proof.
  intros HP HV HW HX json. unfold find, json.
  cbv [probe_touch probe_controller probe_mode probe_select_auto quoted].
  cbn [append].
  repeat split; no_occurrence.
Qed.

(** [C8] (as amended) A motor telemetry record built by
    [send_motor_telemetry] matches none of the probes of [parse_message]:
    whatever the port, voltage, velocity and position, and whichever
    callbacks are registered, the decode pass invokes no callback and
    raises nothing, so no field of the record is recovered.  The texts
    printed for the two doubles are assumed free of double quotes. *)
Theorem motor_telemetry_is_ignored_by_parse_message :
  forall (show_double : Q -> string) (cb : Callbacks)
         (port voltage : Z) (velocity position : Q),
    quote_free (show_double velocity) = true ->
    quote_free (show_double position) = true ->
    parse_message cb (motor_telemetry_text show_double port voltage velocity position)
      = Ok None /\
    ~ decodes cb (motor_telemetry_text show_double port voltage velocity position).
Proof.
  intros show_double cb port voltage velocity position Hv Hp.
  assert (H : parse_message cb
                (motor_telemetry_text show_double port voltage velocity position)
              = Ok None).
  { destruct (motor_record_has_no_probe (show_int port) (show_int voltage)
                (show_double velocity) (show_double position)
                (show_int_quote_free port) (show_int_quote_free voltage) Hv Hp)
      as (H1 & H2 & H3 & H4).
    unfold parse_message, motor_telemetry_text.
    rewrite H1, H2, H3, H4. reflexivity. }
  split; [exact H|].
  intros [d Hd]. rewrite H in Hd. discriminate.
Qed.

Lemma motor_telemetry_is_ignored_by_parse_message_witness :
  parse_message all_callbacks
    (motor_telemetry_text show_double_integral 7 (-64) 150 3600) = Ok None.
Proof.
  apply (motor_telemetry_is_ignored_by_parse_message
           show_double_integral all_callbacks 7 (-64) 150 3600);
    reflexivity.
Defined.

(** The round trip fails on a concrete record: decoding the telemetry of
    port 1 at voltage 127 recovers nothing. *)
Lemma motor_telemetry_roundtrip_fails :
  ~ decodes all_callbacks (motor_telemetry_text show_double_integral 1 127 0 0).
Proof.
  intros [d Hd]. vm_compute in Hd. discriminate.
Qed.

End IPC_properties.

(** * Properties of the display bridge *)

Section Display_properties.
Import Display.

Lemma in_canvas_spec x y :
  in_canvas x y = true <-> (0 <= x < WIDTH /\ 0 <= y < HEIGHT).
Proof. unfold in_canvas, WIDTH, HEIGHT. rewrite !andb_true_iff. lia. Qed.

Lemma in_canvas_index x y :
  in_canvas x y = true -> 0 <= y * WIDTH + x < BUFFER_SIZE.
Proof.
  intros H. apply in_canvas_spec in H.
  unfold BUFFER_SIZE, WIDTH, HEIGHT in *. lia.
Qed.

Lemma cell_index_inj x y x' y' :
  in_canvas x y = true -> in_canvas x' y' = true ->
  cell_index x y = cell_index x' y' -> x = x' /\ y = y'.
Proof.
  intros H H' E. apply in_canvas_spec in H. apply in_canvas_spec in H'.
  unfold cell_index, WIDTH, HEIGHT in *. lia.
Qed.

Lemma store_in_canvas fb x y v :
  Z.of_nat (length fb) = BUFFER_SIZE -> in_canvas x y = true ->
  store fb (y * WIDTH + x) v = Some (<[cell_index x y := v]> fb).
Proof.
  intros Hlen Hin. apply in_canvas_index in Hin. unfold store.
  rewrite Hlen.
  replace ((0 <=? y * WIDTH + x) && (y * WIDTH + x <? BUFFER_SIZE)) with true
    by (symmetry; apply andb_true_iff; lia).
  reflexivity.
Qed.

Lemma load_in_canvas fb x y :
  Z.of_nat (length fb) = BUFFER_SIZE -> in_canvas x y = true ->
  exists v, load fb (y * WIDTH + x) = Some v /\ fb !! cell_index x y = Some v.
Proof.
  intros Hlen Hin. apply in_canvas_index in Hin. unfold load.
  rewrite Hlen.
  replace ((0 <=? y * WIDTH + x) && (y * WIDTH + x <? BUFFER_SIZE)) with true
    by (symmetry; apply andb_true_iff; lia).
  destruct (lookup_lt_is_Some_2 fb (cell_index x y)) as [v Hv].
  { unfold cell_index. lia. }
  exists v. auto.
Qed.

Lemma seqZ_succ a (n : nat) :
  seqZ a (Z.of_nat (S n)) = a :: seqZ (a + 1) (Z.of_nat n).
Proof.
  rewrite seqZ_cons by lia. f_equal. f_equal; lia.
Qed.

Lemma range_seqZ lo hi : range lo hi = seqZ lo (Z.of_nat (Z.to_nat (hi - lo + 1))).
Proof.
  unfold range. destruct (Z_le_gt_dec 0 (hi - lo + 1)).
  - now rewrite Z2Nat.id.
  - rewrite Z2Nat.nonpos by lia. unfold seqZ.
    rewrite Z2Nat.nonpos by lia. reflexivity.
Qed.

Lemma for_each_cons {S : Type} v vs (body : Z -> S -> option S) st :
  for_each (v :: vs) body st =
  match body v st with
  | Some st' => for_each vs body st'
  | None => None
  end.
Proof. reflexivity. Qed.

(** One row of the copy loop, started at column [a] for [n] columns. *)
Lemma copy_row_spec color_p y :
  forall (n : nat) (a : Z) (fb : list Z) (p : nat),
    Z.of_nat (length fb) = BUFFER_SIZE ->
    exists fb',
      for_each (seqZ a (Z.of_nat n)) (copy_cell color_p y) (fb, p)
        = Some (fb', (p + n)%nat) /\
      length fb' = length fb /\
      (forall x, a <= x < a + Z.of_nat n -> in_canvas x y = true ->
         fb' !! cell_index x y
           = Some (color_at color_p (p + Z.to_nat (x - a)))) /\
      (forall i,
         (forall x, a <= x < a + Z.of_nat n -> in_canvas x y = true ->
                    i <> cell_index x y) ->
         fb' !! i = fb !! i).
Proof.
  induction n as [|n IH]; intros a fb p Hlen.
  - exists fb. simpl. rewrite Nat.add_0_r.
    repeat split; auto. intros x Hx. lia.
  - rewrite seqZ_succ, for_each_cons.
    destruct (in_canvas a y) eqn:Hin.
    + set (fb1 := <[cell_index a y := color_at color_p p]> fb).
      assert (Hcell : copy_cell color_p y a (fb, p) = Some (fb1, S p)).
      { unfold copy_cell. rewrite Hin, store_in_canvas by assumption.
        reflexivity. }
      rewrite Hcell.
      assert (Hlen1 : length fb1 = length fb) by apply length_insert.
      destruct (IH (a + 1) fb1 (S p)) as (fb' & Hrun & Hl & Hin' & Hout).
      { now rewrite Hlen1. }
      exists fb'. split; [rewrite Hrun; do 2 f_equal; lia|].
      split; [congruence|]. split.
      * intros x Hx Hc. destruct (Z.eq_dec x a) as [->|Hne].
        -- rewrite Hout.
           ++ unfold fb1. rewrite list_lookup_insert_eq.
              ** do 2 f_equal. lia.
              ** apply in_canvas_index in Hin. unfold cell_index. lia.
           ++ intros x' Hx' Hc' E.
              destruct (cell_index_inj a y x' y Hin Hc' E). lia.
        -- rewrite Hin' by (auto; lia). do 2 f_equal. lia.
      * intros i Hi. rewrite Hout.
        -- unfold fb1. apply list_lookup_insert_ne.
           intros E. apply (Hi a); auto; lia.
        -- intros x Hx Hc. apply Hi; auto; lia.
    + assert (Hcell : copy_cell color_p y a (fb, p) = Some (fb, S p)).
      { unfold copy_cell. now rewrite Hin. }
      rewrite Hcell.
      destruct (IH (a + 1) fb (S p) Hlen) as (fb' & Hrun & Hl & Hin' & Hout).
      exists fb'. split; [rewrite Hrun; do 2 f_equal; lia|].
      split; [assumption|]. split.
      * intros x Hx Hc. destruct (Z.eq_dec x a) as [->|Hne]; [congruence|].
        rewrite Hin' by (auto; lia). do 2 f_equal. lia.
      * intros i Hi. apply Hout. intros x Hx Hc. apply Hi; auto; lia.
Qed.


(** The rows [b .. b + m - 1] of the copy loop, each over the columns
    [a .. a + k - 1]. *)
Lemma copy_rows_spec color_p (a : Z) (k : nat) :
  forall (m : nat) (b : Z) (fb : list Z) (p : nat),
    Z.of_nat (length fb) = BUFFER_SIZE ->
    exists fb',
      for_each (seqZ b (Z.of_nat m))
        (fun y st => for_each (seqZ a (Z.of_nat k)) (copy_cell color_p y) st)
        (fb, p) = Some (fb', (p + m * k)%nat) /\
      length fb' = length fb /\
      (forall x y,
         b <= y < b + Z.of_nat m -> a <= x < a + Z.of_nat k ->
         in_canvas x y = true ->
         fb' !! cell_index x y
           = Some (color_at color_p
                     (p + Z.to_nat ((y - b) * Z.of_nat k + (x - a))))) /\
      (forall i,
         (forall x y,
            b <= y < b + Z.of_nat m -> a <= x < a + Z.of_nat k ->
            in_canvas x y = true -> i <> cell_index x y) ->
         fb' !! i = fb !! i).
Proof.
  induction m as [|m IH]; intros b fb p Hlen.
  - exists fb. simpl. rewrite Nat.add_0_r.
    repeat split; auto. intros x y Hy. lia.
  - rewrite seqZ_succ, for_each_cons.
    destruct (copy_row_spec color_p b k a fb p Hlen)
      as (fb1 & Hrow & Hl1 & Hin1 & Hout1).
    rewrite Hrow.
    destruct (IH (b + 1) fb1 (p + k)%nat) as (fb' & Hrun & Hl & Hin' & Hout).
    { now rewrite Hl1. }
    exists fb'. split; [rewrite Hrun; do 2 f_equal; lia|].
    split; [congruence|]. split.
    + intros x y Hy Hx Hc. destruct (Z.eq_dec y b) as [->|Hne].
      * rewrite Hout.
        -- rewrite Hin1 by assumption. do 2 f_equal. lia.
        -- intros x' y' Hy' Hx' Hc' E.
           destruct (cell_index_inj x b x' y' Hc Hc' E). lia.
      * rewrite Hin' by (auto; lia). do 2 f_equal.
        assert (Hu : 0 <= (y - (b + 1)) * Z.of_nat k)
          by (apply Z.mul_nonneg_nonneg; lia).
        replace ((y - b) * Z.of_nat k)
          with ((y - (b + 1)) * Z.of_nat k + Z.of_nat k) by ring.
        lia.
    + intros i Hi. rewrite Hout.
      * apply Hout1. intros x Hx Hc. apply Hi; auto; lia.
      * intros x y Hy Hx Hc. apply Hi; auto; lia.
Qed.

Lemma copy_to_framebuffer_spec area color_p fb :
  Z.of_nat (length fb) = BUFFER_SIZE ->
  exists fb' p,
    copy_to_framebuffer area color_p fb = Some (fb', p) /\
    length fb' = length fb /\
    (forall x y, covers area x y -> in_canvas x y = true ->
       fb' !! cell_index x y = Some (color_at color_p (source_offset area x y))) /\
    (forall i,
       (forall x y, covers area x y -> in_canvas x y = true -> i <> cell_index x y) ->
       fb' !! i = fb !! i).
Proof.
  intros Hlen. unfold copy_to_framebuffer. rewrite !range_seqZ.
  set (k := Z.to_nat (LVGL.x2 area - LVGL.x1 area + 1)).
  set (m := Z.to_nat (LVGL.y2 area - LVGL.y1 area + 1)).
  destruct (copy_rows_spec color_p (LVGL.x1 area) k m (LVGL.y1 area) fb 0 Hlen)
    as (fb' & Hrun & Hl & Hin & Hout).
  exists fb', (0 + m * k)%nat. split; [exact Hrun|]. split; [exact Hl|]. split.
  - intros x y [Hx Hy] Hc. rewrite Hin by (auto; lia).
    unfold source_offset. do 2 f_equal. simpl. f_equal. lia.
  - intros i Hi. apply Hout. intros x y Hy Hx Hc. apply Hi; auto.
    split; lia.
Qed.

(** The loops that fill [update.pixels] never read outside the framebuffer;
    they add one pixel per covered cell of the canvas. *)
Lemma gather_row_spec fb y :
  Z.of_nat (length fb) = BUFFER_SIZE ->
  forall (n : nat) (a : Z) (px : list Z),
    exists px',
      for_each (seqZ a (Z.of_nat n)) (gather_cell fb y) px = Some px' /\
      (length px' <= length px + n)%nat /\
      ((forall x, a <= x < a + Z.of_nat n -> in_canvas x y = true) ->
       length px' = (length px + n)%nat).
Proof.
  intros Hlen. induction n as [|n IH]; intros a px.
  - exists px. simpl. split; [reflexivity|]. split; lia.
  - rewrite seqZ_succ, for_each_cons. unfold gather_cell at 1.
    destruct (in_canvas a y) eqn:Hin.
    + destruct (load_in_canvas fb a y Hlen Hin) as (v & Hv & _). rewrite Hv.
      destruct (IH (a + 1) (px ++ [v])) as (px' & Hrun & Hle & Heq).
      rewrite length_app in Hle, Heq. simpl in Hle, Heq.
      exists px'. split; [exact Hrun|]. split; [lia|].
      intros Hall. rewrite Heq; [lia|]. intros x Hx. apply Hall. lia.
    + destruct (IH (a + 1) px) as (px' & Hrun & Hle & Heq).
      exists px'. split; [exact Hrun|]. split; [lia|].
      intros Hall. specialize (Hall a). rewrite Hin in Hall.
      discriminate Hall. lia.
Qed.

Lemma gather_rows_spec fb (a : Z) (k : nat) :
  Z.of_nat (length fb) = BUFFER_SIZE ->
  forall (m : nat) (b : Z) (px : list Z),
    exists px',
      for_each (seqZ b (Z.of_nat m))
        (fun y px => for_each (seqZ a (Z.of_nat k)) (gather_cell fb y) px) px
        = Some px' /\
      (length px' <= length px + m * k)%nat /\
      ((forall x y, b <= y < b + Z.of_nat m -> a <= x < a + Z.of_nat k ->
                    in_canvas x y = true) ->
       length px' = (length px + m * k)%nat).
Proof.
  intros Hlen. induction m as [|m IH]; intros b px.
  - exists px. simpl. split; [reflexivity|]. split; lia.
  - rewrite seqZ_succ, for_each_cons.
    destruct (gather_row_spec fb b Hlen k a px) as (px1 & Hrow & Hle1 & Heq1).
    rewrite Hrow.
    destruct (IH (b + 1) px1) as (px' & Hrun & Hle & Heq).
    exists px'. split; [exact Hrun|]. split; [lia|].
    intros Hall. rewrite Heq, Heq1; [lia| |].
    + intros x Hx. apply Hall; lia.
    + intros x y Hy Hx. apply Hall; lia.
Qed.

Lemma gather_pixels_spec area fb :
  Z.of_nat (length fb) = BUFFER_SIZE ->
  exists px,
    gather_pixels area fb = Some px /\
    ((forall x y, covers area x y -> in_canvas x y = true) ->
     Z.of_nat (length px) =
       Z.of_nat (Z.to_nat (LVGL.y2 area - LVGL.y1 area + 1)) *
       Z.of_nat (Z.to_nat (LVGL.x2 area - LVGL.x1 area + 1))).
Proof.
  intros Hlen. unfold gather_pixels. rewrite !range_seqZ.
  set (k := Z.to_nat (LVGL.x2 area - LVGL.x1 area + 1)).
  set (m := Z.to_nat (LVGL.y2 area - LVGL.y1 area + 1)).
  destruct (gather_rows_spec fb (LVGL.x1 area) k Hlen m (LVGL.y1 area) [])
    as (px & Hrun & _ & Heq).
  exists px. split; [exact Hrun|].
  intros Hall. rewrite Heq; [simpl; lia|].
  intros x y Hy Hx. apply Hall. unfold covers. lia.
Qed.



Lemma framebuffer_constructed_size :
  Z.of_nat (length (_framebuffer constructed)) = BUFFER_SIZE.
Proof. vm_compute. reflexivity. Qed.


(** For a rectangle that lies within the canvas the emitted record keeps
    the rectangle and carries one pixel per covered cell. *)
Lemma flush_record_ok_inside_canvas :
  forall (self : Display) (area : LVGL.lv_area_t) (color_p : list Z),
    Z.of_nat (length (_framebuffer self)) = BUFFER_SIZE ->
    0 <= LVGL.x1 area <= LVGL.x2 area -> LVGL.x2 area < WIDTH ->
    0 <= LVGL.y1 area <= LVGL.y2 area -> LVGL.y2 area < HEIGHT ->
    exists u,
      emitted (disp_flush_cb self true area color_p) = Some u /\
      IPC.x1 u = LVGL.x1 area /\ IPC.y1 u = LVGL.y1 area /\
      IPC.x2 u = LVGL.x2 area /\ IPC.y2 u = LVGL.y2 area /\
      record_ok u.
Proof.
  intros self area color_p Hlen Hx Hx2 Hy Hy2.
  destruct (copy_to_framebuffer_spec area color_p (_framebuffer self) Hlen)
    as (fb' & p & Hcopy & Hl & _ & _).
  assert (Hlen' : Z.of_nat (length fb') = BUFFER_SIZE) by now rewrite Hl.
  destruct (gather_pixels_spec area fb' Hlen') as (px & Hpx & Hcount).
  assert (Hpxlen : Z.of_nat (length px) =
            (LVGL.x2 area - LVGL.x1 area + 1) * (LVGL.y2 area - LVGL.y1 area + 1)).
  { rewrite Hcount.
    - rewrite !Z2Nat.id by lia. ring.
    - intros x y [Hcx Hcy]. apply in_canvas_spec. lia. }
  unfold disp_flush_cb. rewrite Hcopy, Hpx.
  eexists. split; [reflexivity|].
  unfold record_ok. cbn [IPC.x1 IPC.y1 IPC.x2 IPC.y2 IPC.pixels].
  repeat split; solve [lia | exact Hpxlen].
Qed.

(** The full-screen path of the transport builds a record that satisfies
    the invariant. *)
Lemma full_screen_record_ok (pixels : list Z) :
  Z.of_nat (length pixels) = BUFFER_SIZE -> record_ok (full_screen_update pixels).
Proof.
  intros Hlen. unfold record_ok, full_screen_update, WIDTH, HEIGHT.
  cbn [IPC.x1 IPC.y1 IPC.x2 IPC.y2 IPC.pixels].
  rewrite length_take. unfold BUFFER_SIZE, WIDTH, HEIGHT in Hlen. lia.
Qed.

(** [C4] The record emitted for a rectangle that extends past the canvas
    edge breaks the ScreenDamageRecord invariant: for the flush of
    [(478, 0, 481, 1)] into a fresh display the record keeps the requested
    rectangle, whose right edge 481 lies outside the canvas, and carries 4
    pixels where the rectangle covers 8 cells. *)
Theorem flush_record_breaks_invariant_past_canvas_edge :
  emitted (disp_flush_cb constructed true edge_area edge_colors)
    = Some (IPC.mkScreenUpdate 478 0 481 1 [1; 2; 5; 6]) /\
  ~ record_ok (IPC.mkScreenUpdate 478 0 481 1 [1; 2; 5; 6]) /\
  WIDTH <= IPC.x2 (IPC.mkScreenUpdate 478 0 481 1 [1; 2; 5; 6]) /\
  Z.of_nat (length (IPC.pixels (IPC.mkScreenUpdate 478 0 481 1 [1; 2; 5; 6]))) = 4 /\
  (481 - 478 + 1) * (1 - 0 + 1) = 8.
Proof.
  split; [vm_compute; reflexivity|].
  split.
  - unfold record_ok, WIDTH. simpl. lia.
  - unfold WIDTH. simpl. lia.
Qed.

End Display_properties.

(** * Properties of the mode orchestrator *)

Section Orchestrator_properties.
Import HAL Orchestrator.
Local Open Scope string_scope.

Lemma single_owner_initial h : single_owner (initial h).
Proof. right. left. split; reflexivity. Qed.

Lemma on_mode_change_frame mode st :
  mode_thread (on_mode_change mode st) = mode_thread st /\
  threads (on_mode_change mode st) = threads st /\
  terminated (on_mode_change mode st) = terminated st /\
  last_mode (on_mode_change mode st) = last_mode st.
Proof.
  unfold on_mode_change. destruct (terminated st) eqn:E; [auto|].
  destruct (String.eqb mode "disabled"); [simpl; auto|].
  destruct (String.eqb mode "autonomous"); [simpl; auto|].
  destruct (String.eqb mode "opcontrol"); simpl; auto.
Qed.

Lemma single_owner_on_mode_change mode st :
  single_owner st -> single_owner (on_mode_change mode st).
Proof.
  unfold single_owner.
  destruct (on_mode_change_frame mode st) as (-> & -> & -> & _). auto.
Qed.

Lemma single_owner_thread_returns i st :
  single_owner st -> single_owner (thread_returns i st).
Proof.
  unfold single_owner, thread_returns.
  destruct (terminated st) eqn:E; [auto|]. simpl.
  intros [H|[[H1 H2]|[H1 H2]]]; [discriminate| |].
  - right. left. rewrite H2. auto.
  - right. right. rewrite length_alter. auto.
Qed.

Lemma single_owner_respawn mode f st :
  terminated st = false -> single_owner st ->
  single_owner (set_last_mode mode (respawn f st)).
Proof.
  unfold single_owner, set_last_mode, respawn. intros E H.
  destruct (mode_thread st) as [j|] eqn:Hm; simpl; [auto|].
  rewrite E. simpl.
  destruct H as [H|[[H1 H2]|[H1 H2]]]; [congruence| |discriminate].
  right. right. rewrite H2. auto.
Qed.

Lemma single_owner_tick st : single_owner st -> single_owner (tick st).
Proof.
  intros H. unfold tick. destruct (terminated st) eqn:E; [exact H|].
  cbn [current_mode last_mode].
  destruct (negb (RobotMode_eqb (current_mode st) (last_mode st)));
    [|unfold single_owner in *; simpl; rewrite E in *; exact H].
  destruct (current_mode st) eqn:Hcur.
  - unfold single_owner, set_last_mode in *. simpl. rewrite E in *. exact H.
  - apply single_owner_respawn; [reflexivity|].
    unfold single_owner in *. simpl. rewrite ?E in *. exact H.
  - apply single_owner_respawn; [reflexivity|].
    unfold single_owner in *. simpl. rewrite ?E in *. exact H.
Qed.

Lemma single_owner_step st e : single_owner st -> single_owner (step st e).
Proof.
  destruct e; simpl;
    auto using single_owner_on_mode_change, single_owner_tick,
               single_owner_thread_returns.
Qed.

Lemma single_owner_run es : forall st, single_owner st -> single_owner (run st es).
Proof.
  unfold run. induction es as [|e es IH]; intros st H; simpl; [exact H|].
  apply IH. now apply single_owner_step.
Qed.

Lemma single_owner_alive st : single_owner st -> (alive st <= 1)%nat.
Proof.
  unfold single_owner, alive. intros H.
  destruct (terminated st); [lia|].
  pose proof (length_filter (fun t => is_running t = true) (threads st)) as Hf.
  destruct H as [H|[[_ H]|[_ H]]]; [discriminate| |].
  - assert (Hz : length (threads st) = 0%nat) by now rewrite H.
    lia.
  - lia.
Qed.

Lemma overwrite_then_tick (st : state) :
  let st' := tick (on_mode_change "disabled" (on_mode_change "autonomous" st)) in
  (terminated st' = true \/
   (get_robot_mode (hal st') = DISABLED /\ current_mode st' = DISABLED /\
    last_mode st' = DISABLED)) /\
  threads st' = threads st /\ mode_thread st' = mode_thread st.
Proof.
  destruct st as [h cm lm mt ths dc [|]].
  - cbv [on_mode_change tick terminated]. auto.
  - destruct lm; cbv -[update]; auto.
Qed.

(** [C9] When the mode is written AUTONOMOUS and then DISABLED between two
    ticks, then after the next tick the mode of the store is DISABLED (a
    write of the mode overwrites whatever was there), the loop has started
    no thread for the change, and at most one mode-execution thread is
    alive; the latter holds after every sequence of mode messages, ticks
    and thread exits. *)
Theorem mode_overwrite_leaves_single_thread :
  forall (h : HAL) (before : list event),
    let st := run (initial h) before in
    let st' := tick (on_mode_change "disabled" (on_mode_change "autonomous" st)) in
    (terminated st' = true \/
     (get_robot_mode (hal st') = DISABLED /\ current_mode st' = DISABLED /\
      last_mode st' = DISABLED)) /\
    threads st' = threads st /\
    mode_thread st' = mode_thread st /\
    (alive st' <= 1)%nat /\
    (forall (h0 : HAL) (m1 m2 : RobotMode),
       get_robot_mode (set_robot_mode (set_robot_mode h0 m1) m2) = m2) /\
    (forall (es : list event), (alive (run (initial h) es) <= 1)%nat).
Proof.
  intros h before st st'.
  assert (Hinv : single_owner st)
    by (apply single_owner_run, single_owner_initial).
  assert (Hinv' : single_owner st').
  { apply single_owner_tick. now do 2 apply single_owner_on_mode_change. }
  pose proof (overwrite_then_tick st) as Hshape. fold st' in Hshape.
  destruct Hshape as (H1 & H2 & H3).
  split; [exact H1|]. split; [exact H2|]. split; [exact H3|].
  split; [now apply single_owner_alive|].
  split; [reflexivity|].
  intros es. apply single_owner_alive, single_owner_run, single_owner_initial.
Qed.

End Orchestrator_properties.

(** * Further properties of the hardware state store *)

Section HAL_accessors.
Import HAL.

(** For a port in 1..21 each motor setter is read back by its getter,
    changes no other field of that motor, and changes no other motor. *)
Theorem motor_setters_read_back :
  forall (h : HAL) (port : Z),
    wf h -> 1 <= port <= 21 ->
    (forall v,
       get_motor_velocity (set_motor_velocity h port v) port = v /\
       motor_at (set_motor_velocity h port v) port
         = set_velocity v (motor_at h port)) /\
    (forall p,
       get_motor_position (set_motor_position h port p) port = p /\
       motor_at (set_motor_position h port p) port
         = set_position p (motor_at h port)) /\
    (forall g,
       get_motor_gearset (set_motor_gearset h port g) port = g /\
       motor_at (set_motor_gearset h port g) port
         = set_gearset g (motor_at h port)) /\
    (forall r,
       get_motor_reversed (set_motor_reversed h port r) port = r /\
       motor_at (set_motor_reversed h port r) port
         = set_reversed r (motor_at h port)) /\
    (forall c,
       is_motor_connected (set_motor_connected h port c) port = c /\
       motor_at (set_motor_connected h port c) port
         = set_connected c (motor_at h port)) /\
    (forall port', 1 <= port' <= 21 -> port <> port' ->
       (forall v, motor_at (set_motor h port v) port' = motor_at h port') /\
       (forall v, motor_at (set_motor_velocity h port v) port' = motor_at h port') /\
       (forall p, motor_at (set_motor_position h port p) port' = motor_at h port') /\
       (forall g, motor_at (set_motor_gearset h port g) port' = motor_at h port') /\
       (forall r, motor_at (set_motor_reversed h port r) port' = motor_at h port') /\
       (forall c, motor_at (set_motor_connected h port c) port' = motor_at h port')).
Proof.
  intros h port Hwf Hp.
  pose proof (bad_port_false port Hp) as Hb.
  unfold get_motor_velocity, get_motor_position, get_motor_gearset,
    get_motor_reversed, is_motor_connected, set_motor, set_motor_velocity,
    set_motor_position, set_motor_gearset, set_motor_reversed,
    set_motor_connected.
  rewrite !Hb.
  repeat split; intros;
    rewrite ?motor_at_modify by assumption;
    try reflexivity;
    apply motor_at_modify_ne; assumption.
Qed.

Lemma motor_setters_read_back_witness :
  get_motor_velocity (set_motor_velocity constructed 4 150) 4 = 150 /\
  motor_at (set_motor_gearset constructed 4 E_MOTOR_GEARSET_06) 5
    = motor_at constructed 5.
Proof.
  destruct (motor_setters_read_back constructed 4 wf_constructed)
    as (Hv & _ & _ & _ & _ & Hother); [lia|].
  split.
  - apply Hv.
  - destruct (Hother 5) as (_ & _ & _ & Hg & _); [lia | lia |]. apply Hg.
Defined.

End HAL_accessors.

Section HAL_controllers_and_lcd.
Import HAL.

Lemma controller_at_lookup h id :
  wf h -> 0 <= id <= 1 ->
  _controllers h !! Z.to_nat id = Some (controller_at h id).
Proof.
  intros (_ & Hc & _) Hid. unfold controller_at.
  destruct (lookup_lt_is_Some_2 (_controllers h) (Z.to_nat id)) as [c Hl];
    [rewrite Hc; lia|].
  now rewrite Hl.
Qed.

Lemma controller_at_modify h id f :
  wf h -> 0 <= id <= 1 ->
  controller_at (modify_controller h id f) id = f (controller_at h id).
Proof.
  intros Hwf Hid. unfold controller_at at 1, modify_controller. simpl.
  rewrite list_lookup_alter_eq, (controller_at_lookup h id Hwf Hid). reflexivity.
Qed.

Lemma controller_at_modify_ne h id id' f :
  0 <= id <= 1 -> 0 <= id' <= 1 -> id <> id' ->
  controller_at (modify_controller h id f) id' = controller_at h id'.
Proof.
  intros Hid Hid' Hne. unfold controller_at, modify_controller. simpl.
  rewrite list_lookup_alter_ne by lia. reflexivity.
Qed.

Lemma controller_at_sizes h id :
  wf h -> wf_controllers h -> 0 <= id <= 1 ->
  length (analog (controller_at h id)) = 4%nat /\
  length (digital (controller_at h id)) = 18%nat.
Proof.
  intros Hwf Hwc Hid. apply Hwc.
  apply list_elem_of_lookup. exists (Z.to_nat id).
  now apply controller_at_lookup.
Qed.

Lemma wf_controllers_constructed : wf_controllers constructed.
Proof.
  intros c Hc. unfold constructed, init in Hc. simpl in Hc.
  repeat (apply elem_of_cons in Hc as [->|Hc]; [split; reflexivity|]).
  now apply elem_of_nil in Hc.
Qed.

(** For a controller id 0 or 1: an analog value written to a channel 0..3
    is read back clamped to [-127, 127], a digital value written to a
    button index below 18 is read back unchanged, a channel above 3 or a
    button index from 18 on is ignored by the setter and reads as 0 or
    false, and a write to one controller leaves the other one untouched. *)
Theorem controller_inputs_read_back :
  forall (h : HAL) (id : Z),
    wf h -> wf_controllers h -> 0 <= id <= 1 ->
    (forall channel value, 0 <= channel <= 3 ->
       get_controller_analog (set_controller_analog h id channel value) id channel
         = clamp value (-127) 127 /\
       -127 <= get_controller_analog (set_controller_analog h id channel value)
                 id channel <= 127) /\
    (forall channel channel' value,
       0 <= channel <= 3 -> 0 <= channel' <= 3 -> channel <> channel' ->
       get_controller_analog (set_controller_analog h id channel value) id channel'
         = get_controller_analog h id channel') /\
    (forall channel value, 3 < channel ->
       set_controller_analog h id channel value = h /\
       get_controller_analog h id channel = 0) /\
    (forall button value, 0 <= button < 18 ->
       get_controller_digital (set_controller_digital h id button value) id button
         = value) /\
    (forall button value, 18 <= button ->
       set_controller_digital h id button value = h /\
       get_controller_digital h id button = false) /\
    (forall value,
       is_controller_connected (set_controller_connected h id value) id = value) /\
    (forall id', 0 <= id' <= 1 -> id <> id' ->
       (forall channel value,
          controller_at (set_controller_analog h id channel value) id'
            = controller_at h id') /\
       (forall button value,
          controller_at (set_controller_digital h id button value) id'
            = controller_at h id')).
Proof.
  intros h id Hwf Hwc Hid.
  destruct (controller_at_sizes h id Hwf Hwc Hid) as [Ha Hd].
  assert (Hb : (1 <? id) = false) by lia.
  unfold get_controller_analog, get_controller_digital, is_controller_connected,
    set_controller_analog, set_controller_digital, set_controller_connected.
  rewrite !Hb. simpl orb.
  split; [|split; [|split; [|split; [|split; [|split]]]]].
  - intros channel value Hc.
    replace (3 <? channel) with false by lia.
    rewrite controller_at_modify by assumption. simpl.
    rewrite list_lookup_insert_eq by lia. simpl.
    split; [reflexivity|]. apply clamp_range. lia.
  - intros channel channel' value Hc Hc' Hne.
    replace (3 <? channel) with false by lia.
    replace (3 <? channel') with false by lia.
    rewrite controller_at_modify by assumption. simpl.
    rewrite list_lookup_insert_ne by lia. reflexivity.
  - intros channel value Hc. replace (3 <? channel) with true by lia. auto.
  - intros button value Hbtn.
    replace (18 <=? button) with false by lia.
    rewrite controller_at_modify by assumption. simpl.
    rewrite list_lookup_insert_eq by lia. reflexivity.
  - intros button value Hbtn. replace (18 <=? button) with true by lia. auto.
  - intros value. rewrite controller_at_modify by assumption. reflexivity.
  - intros id' Hid' Hne. split.
    + intros channel value. destruct (3 <? channel); [reflexivity|].
      now apply controller_at_modify_ne.
    + intros button value. destruct (18 <=? button); [reflexivity|].
      now apply controller_at_modify_ne.
Qed.

Lemma controller_inputs_read_back_witness :
  get_controller_analog (set_controller_analog constructed 0 1 300) 0 1 = 127 /\
  set_controller_digital constructed 1 18 true = constructed.
Proof.
  destruct (controller_inputs_read_back constructed 0 wf_constructed
              wf_controllers_constructed) as (Ha & _); [lia|].
  destruct (controller_inputs_read_back constructed 1 wf_constructed
              wf_controllers_constructed) as (_ & _ & _ & _ & Hd & _); [lia|].
  split.
  - destruct (Ha 1 300) as [Hv _]; [lia|]. exact Hv.
  - destruct (Hd 18 true) as [Hs _]; [lia|]. exact Hs.
Defined.

(** *** Text display *)

Lemma lcd_line_lt h line :
  wf h -> 0 <= line <= 7 -> (Z.to_nat line < length (_lcd_lines h))%nat.
Proof. intros (_ & _ & Hl) Hr. rewrite Hl. lia. Qed.

Lemma bad_line_false line : 0 <= line <= 7 -> bad_line line = false.
Proof. unfold bad_line. intros. apply orb_false_iff. lia. Qed.

(** For a line 0..7: a text written with [lcd_set_text] is read back and
    marks the display initialised; [lcd_clear_line] empties that line only;
    neither touches another line; [lcd_clear] empties every line.  The two
    clearing operations leave the initialised flag as it is. *)
Theorem lcd_lines_read_back :
  forall (h : HAL) (line : Z),
    wf h -> 0 <= line <= 7 ->
    (forall text,
       lcd_get_text (lcd_set_text h line text) line = text /\
       _lcd_initialized (lcd_set_text h line text) = true /\
       wf (lcd_set_text h line text)) /\
    lcd_get_text (lcd_clear_line h line) line = EmptyString /\
    _lcd_initialized (lcd_clear_line h line) = _lcd_initialized h /\
    (forall line' text, 0 <= line' <= 7 -> line <> line' ->
       lcd_get_text (lcd_set_text h line text) line' = lcd_get_text h line' /\
       lcd_get_text (lcd_clear_line h line) line' = lcd_get_text h line') /\
    lcd_get_text (lcd_clear h) line = EmptyString /\
    _lcd_initialized (lcd_clear h) = _lcd_initialized h.
Proof.
  intros h line Hwf Hl.
  pose proof (lcd_line_lt h line Hwf Hl) as Hlt.
  pose proof (bad_line_false line Hl) as Hb.
  unfold lcd_get_text, lcd_set_text, lcd_clear_line, lcd_clear.
  rewrite !Hb. simpl.
  split; [|split; [|split; [|split; [|split]]]].
  - intros text. rewrite list_lookup_insert_eq by assumption.
    split; [reflexivity|]. split; [reflexivity|].
    destruct Hwf as (Hm & Hc & Hll). unfold wf. simpl.
    rewrite length_insert. auto.
  - rewrite list_lookup_insert_eq by assumption. reflexivity.
  - reflexivity.
  - intros line' text Hl' Hne. rewrite (bad_line_false line' Hl').
    rewrite !list_lookup_insert_ne by lia. auto.
  - rewrite list_lookup_fmap.
    destruct (lookup_lt_is_Some_2 _ _ Hlt) as [t Ht]. now rewrite Ht.
  - reflexivity.
Qed.

Lemma lcd_lines_read_back_witness :
  lcd_get_text (lcd_set_text constructed 3 "ready") 3 = "ready"%string /\
  lcd_get_text (lcd_clear (lcd_set_text constructed 3 "ready")) 3 = EmptyString.
Proof.
  destruct (lcd_lines_read_back constructed 3 wf_constructed) as (Hs & _); [lia|].
  destruct (Hs "ready"%string) as (Hget & _ & Hwf').
  destruct (lcd_lines_read_back (lcd_set_text constructed 3 "ready") 3 Hwf')
    as (_ & _ & _ & _ & Hclear & _); [lia|].
  split; assumption.
Defined.

(** *** Display buttons *)

Lemma lor_byte a b : 0 <= a < 256 -> 0 <= b < 256 -> 0 <= Z.lor a b < 256.
Proof.
  intros Ha Hb. split; [apply Z.lor_nonneg; lia|].
  destruct (Z.eq_dec (Z.lor a b) 0) as [->|Hne]; [lia|].
  assert (Hpos : 0 < Z.lor a b).
  { assert (0 <= Z.lor a b) by (apply Z.lor_nonneg; lia). lia. }
  change 256 with (2 ^ 8). apply Z.log2_lt_pow2; [assumption|].
  rewrite Z.log2_lor by lia.
  assert (La : Z.log2 a < 8).
  { destruct (Z.eq_dec a 0) as [->|]; [simpl; lia|].
    apply Z.log2_lt_pow2; lia. }
  assert (Lb : Z.log2 b < 8).
  { destruct (Z.eq_dec b 0) as [->|]; [simpl; lia|].
    apply Z.log2_lt_pow2; lia. }
  lia.
Qed.

Lemma land_lnot_byte a b : 0 <= a < 256 -> 0 <= Z.land a (Z.lnot b) < 256.
Proof.
  intros Ha.
  assert (H : Z.land a (Z.ones 8) = a).
  { rewrite Z.land_ones by lia. apply Z.mod_small. exact Ha. }
  assert (E : Z.land a (Z.lnot b) = Z.land (Z.land a (Z.lnot b)) (Z.ones 8)).
  { rewrite <- Z.land_assoc, (Z.land_comm (Z.lnot b)), Z.land_assoc, H.
    reflexivity. }
  rewrite E, Z.land_ones by lia. apply Z.mod_pos_bound. reflexivity.
Qed.

(** Pressing a display button sets exactly the bits of its mask, releasing
    it clears exactly those bits; all other bits keep their value and the
    register stays an 8-bit value. *)
Theorem lcd_buttons_bitmask :
  forall (h : HAL) (button : Z),
    0 <= _lcd_buttons h < 256 -> 0 <= button < 256 ->
    let pressed := lcd_get_buttons (lcd_set_button h button true) in
    let released := lcd_get_buttons (lcd_set_button h button false) in
    0 <= pressed < 256 /\ 0 <= released < 256 /\
    Z.land pressed button = button /\
    Z.land released button = 0 /\
    (forall n, 0 <= n ->
       Z.testbit pressed n = Z.testbit (_lcd_buttons h) n || Z.testbit button n) /\
    (forall n, 0 <= n ->
       Z.testbit released n
         = Z.testbit (_lcd_buttons h) n && negb (Z.testbit button n)) /\
    lcd_get_buttons (lcd_set_button (lcd_set_button h button true) button false)
      = released.
Proof.
  intros h button Hs Hb pressed released.
  assert (Hp : pressed = Z.lor (_lcd_buttons h) button).
  { unfold pressed, lcd_get_buttons, lcd_set_button. simpl.
    apply Z.mod_small. now apply lor_byte. }
  assert (Hr : released = Z.land (_lcd_buttons h) (Z.lnot button)).
  { unfold released, lcd_get_buttons, lcd_set_button. simpl.
    apply Z.mod_small. now apply land_lnot_byte. }
  split; [rewrite Hp; now apply lor_byte|].
  split; [rewrite Hr; now apply land_lnot_byte|].
  split.
  { rewrite Hp. apply Z.bits_inj'. intros n Hn.
    rewrite Z.land_spec, Z.lor_spec.
    destruct (Z.testbit (_lcd_buttons h) n), (Z.testbit button n); reflexivity. }
  split.
  { rewrite Hr. apply Z.bits_inj'. intros n Hn.
    rewrite !Z.land_spec, Z.lnot_spec, Z.bits_0 by assumption.
    destruct (Z.testbit (_lcd_buttons h) n), (Z.testbit button n); reflexivity. }
  split; [intros n Hn; rewrite Hp; apply Z.lor_spec|].
  split.
  { intros n Hn. rewrite Hr, Z.land_spec, Z.lnot_spec by assumption. reflexivity. }
  change (lcd_get_buttons
            (lcd_set_button (lcd_set_button h button true) button false))
    with (Z.land pressed (Z.lnot button) mod 256).
  rewrite Hp, Hr. rewrite Z.mod_small.
  - apply Z.bits_inj'. intros n Hn.
    rewrite !Z.land_spec, Z.lor_spec, Z.lnot_spec by assumption.
    destruct (Z.testbit (_lcd_buttons h) n), (Z.testbit button n); reflexivity.
  - apply land_lnot_byte. now apply lor_byte.
Qed.

Lemma lcd_buttons_bitmask_witness :
  lcd_get_buttons (lcd_set_button (lcd_set_button constructed 4 true) 2 true) = 6 /\
  Z.land (lcd_get_buttons (lcd_set_button (lcd_set_button constructed 4 true) 4 false)) 4 = 0.
Proof.
  split; [reflexivity|].
  pose (h := lcd_set_button constructed 4 true).
  destruct (lcd_buttons_bitmask h 4) as (_ & _ & _ & H & _);
    [vm_compute; split; [discriminate | reflexivity] | lia |].
  exact H.
Defined.

End HAL_controllers_and_lcd.

Section HAL_physics_bounds.
Import HAL.

Lemma max_velocity_pos g : (0 < max_velocity_of g)%Q.
Proof. destruct g; reflexivity. Qed.










End HAL_physics_bounds.

Section HAL_lifecycle.
Import HAL.

Lemma map_const_idem {A : Type} (c : A) (l : list A) :
  map (fun _ => c) (map (fun _ : A => c) l) = map (fun _ => c) l.
Proof. induction l; simpl; congruence. Qed.

Lemma lookup_map_const {A B : Type} (c : B) (l : list A) (i : nat) :
  (i < length l)%nat -> map (fun _ => c) l !! i = Some c.
Proof.
  intros Hi. rewrite list_lookup_fmap.
  destruct (lookup_lt_is_Some_2 l i Hi) as [x Hx]. now rewrite Hx.
Qed.

Lemma default_lookup_zeros (n : nat) : default 0 ([0; 0; 0; 0] !! n) = 0.
Proof. do 5 (destruct n as [|n]; [reflexivity|]). reflexivity. Qed.

Lemma default_lookup_replicate_false (k n : nat) :
  default false (replicate k false !! n) = false.
Proof.
  destruct (replicate k false !! n) as [b|] eqn:E; [|reflexivity].
  apply lookup_replicate in E as [-> _]. reflexivity.
Qed.

(** [init] resets the hardware part of the store whatever it held: every
    motor is a default (disconnected) motor, both controllers are connected
    with centred sticks and released buttons, every text line is empty, the
    button register is 0 and the display is marked uninitialised.  It keeps
    the robot mode and the display colours, and running it twice is the same
    as running it once.  [shutdown] only forces the mode to DISABLED. *)
Theorem init_resets_hardware_only :
  forall (h : HAL),
    wf h ->
    wf (init h) /\ wf_controllers (init h) /\
    (forall port, 1 <= port <= 21 ->
       get_motor_state (init h) port = MotorState_default /\
       is_motor_connected (init h) port = false) /\
    (forall id, 0 <= id <= 1 ->
       is_controller_connected (init h) id = true /\
       get_controller_battery_capacity (init h) id = 100 /\
       get_controller_battery_level (init h) id = 100 /\
       (forall channel, get_controller_analog (init h) id channel = 0) /\
       (forall button, get_controller_digital (init h) id button = false)) /\
    (forall line, lcd_get_text (init h) line = EmptyString) /\
    lcd_get_buttons (init h) = 0 /\
    _lcd_initialized (init h) = false /\
    get_robot_mode (init h) = get_robot_mode h /\
    _lcd_bg_color (init h) = _lcd_bg_color h /\
    _lcd_text_color (init h) = _lcd_text_color h /\
    init (init h) = init h /\
    get_robot_mode (shutdown h) = DISABLED /\
    shutdown h = set_robot_mode h DISABLED.
Proof.
  intros h (Hm & Hc & Hl).
  assert (Hwf : wf (init h)).
  { unfold wf, init. simpl. rewrite !length_map. auto. }
  split; [exact Hwf|]. split.
  { intros c Hin. unfold init in Hin. simpl in Hin.
    apply list_elem_of_fmap in Hin as (x & -> & _). split; reflexivity. }
  split.
  { intros port Hp. unfold get_motor_state, is_motor_connected.
    rewrite (bad_port_false port Hp). unfold motor_at, init. simpl.
    rewrite lookup_map_const by lia. split; reflexivity. }
  split.
  { intros id Hid.
    assert (Hb : (1 <? id) = false) by lia.
    unfold is_controller_connected, get_controller_battery_capacity,
      get_controller_battery_level, get_controller_analog,
      get_controller_digital.
    rewrite !Hb. unfold controller_at, init. simpl.
    rewrite lookup_map_const by lia. simpl.
    repeat split.
    - intros channel. destruct (3 <? channel); [reflexivity|].
      apply default_lookup_zeros.
    - intros button. destruct (18 <=? button); [reflexivity|].
      apply (default_lookup_replicate_false 18). }
  split.
  { intros line. unfold lcd_get_text. destruct (bad_line line); [reflexivity|].
    unfold init. simpl. rewrite list_lookup_fmap.
    destruct (_lcd_lines h !! Z.to_nat line); reflexivity. }
  repeat split.
  unfold init. simpl. rewrite !map_const_idem. reflexivity.
Qed.

Lemma init_resets_hardware_only_witness :
  get_motor_state (init (set_motor bench_motor 1 100)) 1 = MotorState_default /\
  get_robot_mode (init (set_robot_mode constructed OPCONTROL)) = OPCONTROL.
Proof.
  assert (Hwf : wf (set_motor bench_motor 1 100)) by (repeat split).
  destruct (init_resets_hardware_only (set_motor bench_motor 1 100) Hwf)
    as (_ & _ & Hm & _).
  assert (Hwf' : wf (set_robot_mode constructed OPCONTROL)) by (repeat split).
  destruct (init_resets_hardware_only (set_robot_mode constructed OPCONTROL) Hwf')
    as (_ & _ & _ & _ & _ & _ & _ & Hmode & _).
  split.
  - destruct (Hm 1) as [H _]; [lia|]. exact H.
  - exact Hmode.
Defined.

End HAL_lifecycle.

(** * Further properties of the transport channel *)

Section IPC_base64.
Import IPC.
Local Open Scope string_scope.
Local Open Scope Z_scope.

Lemma land_shiftl_small x y k :
  0 <= k -> 0 <= y < 2 ^ k -> Z.land (Z.shiftl x k) y = 0.
Proof.
  intros Hk Hy. apply Z.bits_inj'. intros n Hn.
  rewrite Z.land_spec, Z.bits_0.
  destruct (Z.lt_ge_cases n k) as [Hlt|Hge].
  - rewrite Z.shiftl_spec_low by assumption. reflexivity.
  - destruct (Z.eq_dec y 0) as [->|Hne].
    + rewrite Z.bits_0. apply andb_false_r.
    + rewrite (Z.bits_above_log2 y n); [apply andb_false_r | lia |].
      apply Z.lt_le_trans with k; [|assumption].
      apply Z.log2_lt_pow2; lia.
Qed.

Lemma lor_shiftl_add x y k :
  0 <= k -> 0 <= y < 2 ^ k -> Z.lor (Z.shiftl x k) y = x * 2 ^ k + y.
Proof.
  intros Hk Hy. pose proof (Z.add_lor_land (Z.shiftl x k) y) as H.
  rewrite land_shiftl_small in H by assumption.
  rewrite Z.shiftl_mul_pow2 in * by assumption. lia.
Qed.

Lemma pack3 a b c :
  0 <= a < 256 -> 0 <= b < 256 -> 0 <= c < 256 ->
  Z.lor (Z.lor (Z.shiftl a 16) (Z.shiftl b 8)) c = a * 65536 + b * 256 + c.
Proof.
  intros Ha Hb Hc.
  assert (Hb8 : Z.shiftl b 8 = b * 256)
    by (rewrite Z.shiftl_mul_pow2 by lia; reflexivity).
  rewrite (lor_shiftl_add a (Z.shiftl b 8) 16) by (rewrite ?Hb8; simpl; lia).
  rewrite Hb8. change (2 ^ 16) with (256 * 2 ^ 8).
  replace (a * (256 * 2 ^ 8) + b * 256) with ((a * 256 + b) * 2 ^ 8)
    by (change (2 ^ 8) with 256; ring).
  rewrite <- (Z.shiftl_mul_pow2 (a * 256 + b) 8) by lia.
  rewrite lor_shiftl_add by (simpl; lia).
  change (2 ^ 8) with 256. ring.
Qed.

Lemma pack2 a b :
  0 <= a < 256 -> 0 <= b < 256 ->
  Z.lor (Z.shiftl a 16) (Z.shiftl b 8) = a * 65536 + b * 256.
Proof.
  intros Ha Hb. pose proof (pack3 a b 0 Ha Hb ltac:(lia)) as H.
  rewrite Z.lor_0_r in H. lia.
Qed.

Lemma sextet_of n k :
  0 <= n -> 0 <= k ->
  Z.land (Z.shiftr n k) 63 = (n / 2 ^ k) mod 64.
Proof.
  intros Hn Hk. rewrite Z.shiftr_div_pow2 by assumption.
  change 63 with (Z.ones 6). rewrite Z.land_ones by lia. reflexivity.
Qed.

Lemma alphabet_checked : forallb alphabet_check (seqZ 0 64) = true.
Proof. vm_compute. reflexivity. Qed.

Lemma sextet_base64_char i :
  0 <= i < 64 ->
  sextet (base64_char i) = Some i /\ Ascii.eqb (base64_char i) "=" = false.
Proof.
  intros Hi. pose proof alphabet_checked as H.
  rewrite forallb_forall in H. specialize (H i).
  assert (Hin : In i (seqZ 0 64)).
  { apply list_elem_of_In, elem_of_seqZ. lia. }
  specialize (H Hin). unfold alphabet_check in H.
  destruct (sextet (base64_char i)) as [j|]; [|discriminate].
  apply andb_true_iff in H as [H1 H2].
  apply Z.eqb_eq in H1. subst j. split; [reflexivity|].
  now apply negb_true_iff in H2.
Qed.

Lemma list_ind3 {A : Type} (P : list A -> Prop) :
  P [] -> (forall a, P [a]) -> (forall a b, P [a; b]) ->
  (forall a b c rest, P rest -> P (a :: b :: c :: rest)) ->
  forall l, P l.
Proof.
  intros H0 H1 H2 H3.
  assert (H : forall l, P l /\ (forall a, P (a :: l)) /\ (forall a b, P (a :: b :: l))).
  { induction l as [|x l (IH0 & IH1 & IH2)].
    - auto.
    - split; [apply IH1|]. split; [intros a; apply IH2|].
      intros a b. apply H3. exact IH0. }
  intros l. apply H.
Qed.

Lemma sextet_range n k : 0 <= (n / 2 ^ k) mod 64 < 64.
Proof. apply Z.mod_pos_bound. lia. Qed.

Lemma base64_decode_encode :
  forall (data : list Z),
    Forall (fun b => 0 <= b < 256) data ->
    base64_decode (base64_encode data) = Some data /\
    Z.of_nat (String.length (base64_encode data))
      = (Z.of_nat (length data) + 2) / 3 * 4.
Proof.
  intros data. induction data as [|a|a b|a b c rest IH] using list_ind3;
    intros Hall.
  - split; reflexivity.
  - inversion Hall as [|? ? Ha _]; subst. split; [|reflexivity].
    cbn [base64_encode]. rewrite !sextet_of by (try apply Z.shiftl_nonneg; lia).
    rewrite Z.shiftl_mul_pow2 by lia.
    set (n := a * 2 ^ 16).
    cbn [base64_decode].
    destruct (sextet_base64_char _ (sextet_range n 18)) as [-> _].
    destruct (sextet_base64_char _ (sextet_range n 12)) as [-> _].
    cbn. do 2 f_equal. subst n. Z.div_mod_to_equations. lia.
  - inversion Hall as [|? ? Ha Hall']; subst.
    inversion Hall' as [|? ? Hb _]; subst. split; [|reflexivity].
    cbn [base64_encode]. rewrite pack2 by assumption.
    set (n := a * 65536 + b * 256).
    assert (Hn : 0 <= n) by (subst n; lia).
    rewrite !sextet_of by lia.
    cbn [base64_decode].
    destruct (sextet_base64_char _ (sextet_range n 18)) as [-> _].
    destruct (sextet_base64_char _ (sextet_range n 12)) as [-> _].
    destruct (sextet_base64_char _ (sextet_range n 6)) as [-> ->].
    cbn. f_equal. subst n. f_equal; [|f_equal]; Z.div_mod_to_equations; lia.
  - inversion Hall as [|? ? Ha Hall1]; subst.
    inversion Hall1 as [|? ? Hb Hall2]; subst.
    inversion Hall2 as [|? ? Hc Hall3]; subst.
    destruct (IH Hall3) as [IHd IHl]. split.
    + cbn [base64_encode]. rewrite pack3 by assumption.
      set (n := a * 65536 + b * 256 + c).
      assert (Hn : 0 <= n) by (subst n; lia).
      rewrite !sextet_of by lia.
      replace (Z.land n 63) with ((n / 2 ^ 0) mod 64)
        by (rewrite <- sextet_of by lia; rewrite Z.shiftr_0_r; reflexivity).
      cbn [base64_decode].
      destruct (sextet_base64_char _ (sextet_range n 18)) as [-> _].
      destruct (sextet_base64_char _ (sextet_range n 12)) as [-> _].
      destruct (sextet_base64_char _ (sextet_range n 6)) as [-> ->].
      destruct (sextet_base64_char _ (sextet_range n 0)) as [-> ->].
      rewrite IHd. f_equal. subst n.
      f_equal; [|f_equal; [|f_equal]]; Z.div_mod_to_equations; lia.
    + cbn [base64_encode String.length length].
      rewrite !Nat2Z.inj_succ, IHl. Z.div_mod_to_equations. lia.
Qed.

(** Base64: the standard decoder, the one the user interface applies to
    the pixel data of a screen record, recovers every byte sequence from its
    encoding; two different byte sequences never get the same text; and the
    text has four characters for every started group of three bytes. *)
Theorem base64_encode_decodes :
  forall (data : list Z),
    Forall (fun b => 0 <= b < 256) data ->
    base64_decode (base64_encode data) = Some data /\
    (forall data' : list Z,
       Forall (fun b => 0 <= b < 256) data' ->
       base64_encode data = base64_encode data' -> data = data') /\
    Z.of_nat (String.length (base64_encode data))
      = (Z.of_nat (length data) + 2) / 3 * 4.
Proof.
  intros data Hall.
  destruct (base64_decode_encode data Hall) as [Hd Hl].
  split; [exact Hd|]. split; [|exact Hl].
  intros data' Hall' E.
  destruct (base64_decode_encode data' Hall') as [Hd' _].
  rewrite E, Hd' in Hd. congruence.
Qed.

Lemma base64_encode_decodes_witness :
  base64_decode (base64_encode [255; 0; 171; 16]) = Some [255; 0; 171; 16].
Proof.
  apply (base64_encode_decodes [255; 0; 171; 16]).
  repeat constructor; lia.
Defined.

End IPC_base64.

Section IPC_escaping_and_frames.
Import IPC.
Local Open Scope string_scope.
Local Open Scope Z_scope.

Lemma undo_escape_escape_char c r :
  undo_escape (escape_char c ++ r) =
  match undo_escape r with
  | Some t => Some (String c t)
  | None => None
  end.
Proof.
  unfold escape_char.
  destruct (Ascii.eqb c dq) eqn:E1;
    [apply Ascii.eqb_eq in E1; subst c; reflexivity|].
  destruct (Ascii.eqb c backslash) eqn:E2;
    [apply Ascii.eqb_eq in E2; subst c; reflexivity|].
  destruct (Ascii.eqb c newline) eqn:E3;
    [apply Ascii.eqb_eq in E3; subst c; reflexivity|].
  destruct (Ascii.eqb c carriage_return) eqn:E4;
    [apply Ascii.eqb_eq in E4; subst c; reflexivity|].
  destruct (Ascii.eqb c tab) eqn:E5;
    [apply Ascii.eqb_eq in E5; subst c; reflexivity|].
  cbn [append undo_escape]. rewrite E2, E1. reflexivity.
Qed.

Lemma char_free_app c s t :
  char_free c (s ++ t) = char_free c s && char_free c t.
Proof.
  induction s as [|d s IH]; [reflexivity|].
  cbn [append char_free]. rewrite IH. apply andb_assoc.
Qed.

Lemma escape_char_control_free c :
  char_free newline (escape_char c) = true /\
  char_free carriage_return (escape_char c) = true /\
  char_free tab (escape_char c) = true.
Proof.
  unfold escape_char.
  destruct (Ascii.eqb c dq) eqn:E1; [repeat split|].
  destruct (Ascii.eqb c backslash) eqn:E2; [repeat split|].
  destruct (Ascii.eqb c newline) eqn:E3; [repeat split|].
  destruct (Ascii.eqb c carriage_return) eqn:E4; [repeat split|].
  destruct (Ascii.eqb c tab) eqn:E5; [repeat split|].
  cbn [char_free]. rewrite E3, E4, E5. repeat split.
Qed.

Lemma json_escape_app s t : json_escape (s ++ t) = json_escape s ++ json_escape t.
Proof.
  induction s as [|c s IH]; [reflexivity|].
  cbn [append json_escape]. rewrite IH.
  generalize (escape_char c). intros e.
  induction e as [|d e IHe]; [reflexivity|].
  cbn [append]. now rewrite IHe.
Qed.

Lemma undo_escape_escape s : undo_escape (json_escape s) = Some s.
Proof.
  induction s as [|c s IH]; [reflexivity|].
  cbn [json_escape]. rewrite undo_escape_escape_char, IH. reflexivity.
Qed.

Lemma json_escape_plain s : plain s = true -> json_escape s = s.
Proof.
  induction s as [|c s IH]; [reflexivity|].
  cbn [plain json_escape]. rewrite !andb_true_iff, !negb_true_iff.
  intros (((((E1 & E2) & E3) & E4) & E5) & Hs).
  unfold escape_char. rewrite E1, E2, E3, E4, E5, (IH Hs). reflexivity.
Qed.

Lemma json_string_value_escape_char c r :
  is_ascii7 c
  && (negb (is_control c) || Ascii.eqb c newline
      || Ascii.eqb c carriage_return || Ascii.eqb c tab) = true ->
  json_string_value (escape_char c ++ r) = push c (json_string_value r).
Proof.
  destruct c as [[] [] [] [] [] [] [] []]; intros H;
    solve [discriminate H | reflexivity].
Qed.

Lemma json_string_value_control c r :
  is_control c = true ->
  Ascii.eqb c newline || Ascii.eqb c carriage_return || Ascii.eqb c tab = false ->
  json_string_value (escape_char c ++ r) = SyntaxError.
Proof.
  destruct c as [[] [] [] [] [] [] [] []]; intros H1 H2;
    solve [discriminate H1 | discriminate H2 | reflexivity].
Qed.

Lemma json_string_value_error_after c r :
  json_string_value r = SyntaxError ->
  json_string_value (escape_char c ++ r) = SyntaxError.
Proof.
  intros H.
  destruct c as [[] [] [] [] [] [] [] []]; cbn; rewrite H; reflexivity.
Qed.

Lemma json_string_value_escape s :
  ascii_text s = true -> json_string_value (json_escape s) = Text s.
Proof.
  induction s as [|c s IH]; [reflexivity|].
  cbn [ascii_text json_escape]. intros H.
  apply andb_true_iff in H. destruct H as [Hc Hs].
  rewrite json_string_value_escape_char by exact Hc.
  rewrite (IH Hs). reflexivity.
Qed.

Lemma json_string_value_rejects a c b :
  is_control c = true ->
  Ascii.eqb c newline || Ascii.eqb c carriage_return || Ascii.eqb c tab = false ->
  json_string_value (json_escape (a ++ String c b)) = SyntaxError.
Proof.
  intros H1 H2. induction a as [|x a IH].
  - cbn [append json_escape]. now apply json_string_value_control.
  - cbn [append json_escape]. now apply json_string_value_error_after.
Qed.

(** What [json_escape] writes between the quotes is read back by a JSON
    reader as the same text when the text is ASCII without control
    characters other than newline, carriage return and tab; a text with
    another control character (U+0000 to U+001F) is written with that
    character raw and is rejected by the reader.  [json_escape] never maps
    two texts to the same escaped text; it distributes over concatenation,
    leaves a text without special characters unchanged, and its result
    holds no raw newline, carriage return or tab. *)
Theorem json_escape_is_reversible :
  forall (s : string),
    (ascii_text s = true -> json_string_value (json_escape s) = Text s) /\
    (forall a c b,
       s = a ++ String c b ->
       is_control c = true ->
       Ascii.eqb c newline || Ascii.eqb c carriage_return || Ascii.eqb c tab = false ->
       json_string_value (json_escape s) = SyntaxError) /\
    (forall t, json_escape s = json_escape t -> s = t) /\
    (forall t, json_escape (s ++ t) = json_escape s ++ json_escape t) /\
    (plain s = true -> json_escape s = s) /\
    char_free newline (json_escape s) = true /\
    char_free carriage_return (json_escape s) = true /\
    char_free tab (json_escape s) = true.
Proof.
  intros s. split; [apply json_string_value_escape|].
  split; [intros a c b ->; apply json_string_value_rejects|].
  split.
  { intros t E. pose proof (undo_escape_escape s) as Hs.
    rewrite E, undo_escape_escape in Hs. congruence. }
  split; [intros t; apply json_escape_app|].
  split; [apply json_escape_plain|].
  induction s as [|c s (IH1 & IH2 & IH3)]; [repeat split|].
  cbn [json_escape]. rewrite !char_free_app, IH1, IH2, IH3.
  destruct (escape_char_control_free c) as (-> & -> & ->). repeat split.
Qed.

Lemma json_escape_is_reversible_witness :
  json_string_value (json_escape "drive forward") = Text "drive forward" /\
  json_string_value (json_escape (String backspace EmptyString)) = SyntaxError.
Proof.
  split.
  - apply (proj1 (json_escape_is_reversible "drive forward")). reflexivity.
  - destruct (json_escape_is_reversible (String backspace EmptyString))
      as (_ & H & _).
    apply (H EmptyString backspace EmptyString); reflexivity.
Defined.

(** *** Frames *)

Lemma size_nonneg s : 0 <= size s.
Proof. unfold size. lia. Qed.

Lemma exactly_self s : exactly (size s) s = Some s.
Proof. unfold exactly. now rewrite Z.eqb_refl. Qed.

Lemma read_frame_frame :
  forall (json : string),
    size json < 2 ^ 64 ->
    read_frame (frame json) = Some json /\
    size (frame json) =
      size json + (if size json <=? 125 then 2
                   else if size json <=? 65535 then 4 else 10).
Proof.
  intros json Hsz. pose proof (size_nonneg json) as Hn.
  unfold frame, length_prefix.
  set (n := size json) in *.
  destruct (n <=? 125) eqn:E1.
  - split.
    + cbn [append read_frame].
      rewrite !byte_val_to_char_small by lia.
      replace (129 =? 129) with true by reflexivity.
      replace (n <=? 125) with true by lia. apply exactly_self.
    + cbn [append]. unfold size in *. cbn [String.length]. lia.
  - destruct (n <=? 65535) eqn:E2.
    + split.
      * cbn [append read_frame].
        rewrite !byte_val_to_char, !land_255, Z.shiftr_div_pow2 by
          (try apply Z.shiftr_nonneg; lia).
        change (2 ^ 8) with 256. rewrite !Zmod_mod.
        change (129 mod 256) with 129. change (126 mod 256) with 126.
        cbn [Z.eqb Z.leb Z.compare Pos.compare Pos.compare_cont Pos.eqb].
        rewrite be_bytes_16 by lia. apply exactly_self.
      * cbn [append]. unfold size in *. cbn [String.length]. lia.
    + split.
      * cbn [map string_of_list_ascii append read_frame].
        rewrite !byte_val_to_char, !land_255, !Z.shiftr_div_pow2 by
          (try apply Z.shiftr_nonneg; lia).
        rewrite !Zmod_mod.
        change (129 mod 256) with 129. change (127 mod 256) with 127.
        cbn [Z.eqb Z.leb Z.compare Pos.compare Pos.compare_cont Pos.eqb Z.mul
             Pos.mul].
        rewrite be_bytes_64 by lia. apply exactly_self.
      * cbn [map string_of_list_ascii append]. unfold size in *.
        cbn [String.length]. lia.
Qed.

(** A frame written by [send_message] is read back to its payload by a
    reader of unmasked WebSocket text frames; two different payloads never
    get the same frame; and the frame is 2, 4 or 10 bytes longer than the
    payload. *)
Theorem frame_reads_back :
  forall (json : string),
    size json < 2 ^ 64 ->
    read_frame (frame json) = Some json /\
    (forall json' : string,
       size json' < 2 ^ 64 -> frame json = frame json' -> json = json') /\
    size (frame json) =
      size json + (if size json <=? 125 then 2
                   else if size json <=? 65535 then 4 else 10).
Proof.
  intros json Hsz.
  destruct (read_frame_frame json Hsz) as [Hr Hl].
  split; [exact Hr|]. split; [|exact Hl].
  intros json' Hsz' E.
  destruct (read_frame_frame json' Hsz') as [Hr' _].
  rewrite E, Hr' in Hr. congruence.
Qed.

Lemma frame_reads_back_witness :
  read_frame (frame (payload 200)) = Some (payload 200).
Proof.
  apply (frame_reads_back (payload 200)). vm_compute. reflexivity.
Defined.

End IPC_escaping_and_frames.

Section IPC_numbers.
Import IPC.
Local Open Scope string_scope.
Local Open Scope Z_scope.

Lemma read_digits_stop acc rest :
  no_leading_digit rest = true -> read_digits acc rest = acc.
Proof.
  destruct rest as [|c rest]; [reflexivity|].
  cbn [no_leading_digit read_digits].
  destruct (digit_of c); [discriminate | reflexivity].
Qed.

Lemma read_digits_uint u :
  forall acc rest,
    no_leading_digit rest = true ->
    read_digits (Some acc) (NilEmpty.string_of_uint u ++ rest)
      = Some (horner u acc).
Proof.
  induction u; intros acc rest Hr;
    [cbn [NilEmpty.string_of_uint append horner]; now apply read_digits_stop | ..];
    cbn [NilEmpty.string_of_uint append horner];
    change (read_digits (Some acc) (String ?c ?s))
      with (read_digits (Some acc) (String c s));
    (etransitivity; [|apply IHu; exact Hr]); reflexivity.
Qed.

Lemma horner_of_uint_acc l :
  forall acc, Z.pos (Pos.of_uint_acc l acc) = horner l (Z.pos acc).
Proof.
  induction l; intros acc; cbn [Pos.of_uint_acc horner];
    [reflexivity | ..]; rewrite IHl; f_equal; lia.
Qed.

Lemma horner_of_uint u : Z.of_N (Pos.of_uint u) = horner u 0.
Proof.
  induction u; cbn [Pos.of_uint horner]; [reflexivity | exact IHu | ..];
    cbn [Z.of_N]; rewrite horner_of_uint_acc; reflexivity.
Qed.

Lemma horner_to_uint p : horner (Pos.to_uint p) 0 = Z.pos p.
Proof.
  rewrite <- horner_of_uint, DecimalPos.Unsigned.of_to. reflexivity.
Qed.

Lemma stoi_unsigned c s :
  digit_of c <> None ->
  stoi (String c s) =
  match read_digits None (String c s) with
  | None => Throw invalid_argument
  | Some v => if in_int_range v then Ok v else Throw out_of_range
  end.
Proof.
  destruct c as [[] [] [] [] [] [] [] []]; intros H;
    solve [exfalso; apply H; reflexivity | reflexivity].
Qed.

Lemma stoi_negative s :
  stoi (String "-" s) =
  match read_digits None s with
  | None => Throw invalid_argument
  | Some v => if in_int_range (- v) then Ok (- v) else Throw out_of_range
  end.
Proof. reflexivity. Qed.

Lemma string_of_uint_nonnil u rest :
  u <> Decimal.Nil ->
  exists c s,
    NilEmpty.string_of_uint u ++ rest = String c s /\
    NilZero.string_of_uint u = NilEmpty.string_of_uint u /\
    digit_of c <> None /\
    (no_leading_digit rest = true ->
     read_digits None (String c s) = Some (horner u 0)).
Proof.
  intros Hu. destruct u; [contradiction | ..];
    cbn [NilEmpty.string_of_uint append];
    do 2 eexists; (split; [reflexivity|]); (split; [reflexivity|]);
    (split; [discriminate|]); intros Hr;
    cbn [horner];
    match goal with
    | |- read_digits None (String ?c (?t ++ rest)) = Some (horner ?l ?a) =>
        change (read_digits None (String c (t ++ rest)))
          with (read_digits (Some a) (t ++ rest))
    end; now apply read_digits_uint.
Qed.

Lemma stoi_show_int (n : Z) (rest : string) :
  -2147483648 <= n <= 2147483647 ->
  no_leading_digit rest = true ->
  stoi (show_int n ++ rest) = Ok n.
Proof.
  intros Hn Hr. unfold show_int.
  assert (Hrange : in_int_range n = true)
    by (unfold in_int_range; apply andb_true_iff; lia).
  destruct n as [|p|p]; cbn [Z.to_int NilZero.string_of_int].
  - cbn [NilZero.string_of_uint NilEmpty.string_of_uint append].
    rewrite stoi_unsigned by discriminate.
    change (read_digits None (String "0" rest))
      with (read_digits (Some 0) rest).
    rewrite read_digits_stop by assumption. reflexivity.
  - destruct (string_of_uint_nonnil (Pos.to_uint p) rest
                (DecimalPos.Unsigned.to_uint_nonnil p))
      as (c & s & E & E0 & Hd & Hread).
    rewrite E0, E, (stoi_unsigned c s Hd), (Hread Hr), horner_to_uint, Hrange.
    reflexivity.
  - destruct (string_of_uint_nonnil (Pos.to_uint p) rest
                (DecimalPos.Unsigned.to_uint_nonnil p))
      as (c & s & E & E0 & Hd & Hread).
    cbn [append]. rewrite E0, E, stoi_negative, (Hread Hr), horner_to_uint.
    change (- Z.pos p) with (Z.neg p). rewrite Hrange. reflexivity.
Qed.

Lemma stoi_not_a_number (c : ascii) (rest : string) :
  isspace c = false -> digit_of c = None -> c <> "-"%char -> c <> "+"%char ->
  stoi (String c rest) = Throw invalid_argument.
Proof.
  intros Hs Hd Hm Hp.
  destruct c as [[] [] [] [] [] [] [] []];
    solve [discriminate Hs | discriminate Hd | exfalso; now apply Hm
          | exfalso; now apply Hp | reflexivity].
Qed.

(** [stoi] reads back the decimal text printed for any [int], whatever
    follows it, provided the text that follows does not start with a
    digit. *)
Theorem stoi_reads_printed_int :
  forall (n : Z) (rest : string),
    -2147483648 <= n <= 2147483647 ->
    no_leading_digit rest = true ->
    stoi (show_int n ++ rest) = Ok n.
Proof. exact stoi_show_int. Qed.

Lemma stoi_reads_printed_int_witness :
  stoi (show_int (-32768) ++ ",") = Ok (-32768).
Proof.
  apply (stoi_reads_printed_int (-32768) ","); [lia | reflexivity].
Defined.

(** The decimal text of a number above the largest [int] makes [stoi] raise
    [out_of_range] instead of wrapping around. *)
Theorem stoi_rejects_numbers_past_int :
  forall (n : Z) (rest : string),
    2147483647 < n ->
    no_leading_digit rest = true ->
    stoi (show_int n ++ rest) = Throw out_of_range.
Proof.
  intros n rest Hn Hr. unfold show_int.
  destruct n as [|p|p]; [lia | | lia].
  cbn [Z.to_int NilZero.string_of_int].
  destruct (string_of_uint_nonnil (Pos.to_uint p) rest
              (DecimalPos.Unsigned.to_uint_nonnil p))
    as (c & s & E & E0 & Hd & Hread).
  rewrite E0, E, (stoi_unsigned c s Hd), (Hread Hr), horner_to_uint.
  replace (in_int_range (Z.pos p)) with false; [reflexivity|].
  symmetry. unfold in_int_range. apply andb_false_iff. right. lia.
Qed.

Lemma stoi_rejects_numbers_past_int_witness :
  stoi (show_int 2147483648 ++ "}") = Throw out_of_range.
Proof.
  apply (stoi_rejects_numbers_past_int 2147483648 "}"); [lia | reflexivity].
Defined.

End IPC_numbers.

Section IPC_decoding.
Import IPC.
Local Open Scope string_scope.

Lemma index_some_here needle c s :
  String.prefix needle (String c s) = true ->
  index 0 needle (String c s) = Some 0%nat.
Proof.
  intros Hp.
  change (index 0 needle (String c s))
    with (if String.prefix needle (String c s) then Some 0%nat
          else match index 0 needle s with
               | Some n => Some (S n)
               | None => None
               end).
  now rewrite Hp.
Qed.

Lemma index_some_cons needle c s k :
  String.prefix needle (String c s) = false ->
  index 0 needle s = Some k ->
  index 0 needle (String c s) = Some (S k).
Proof.
  intros Hp Hi.
  change (index 0 needle (String c s))
    with (if String.prefix needle (String c s) then Some 0%nat
          else match index 0 needle s with
               | Some n => Some (S n)
               | None => None
               end).
  now rewrite Hp, Hi.
Qed.

Lemma prefix_quote_mismatch needle c s :
  negb (Ascii.eqb c dq) = true ->
  String.prefix (String dq needle) (String c s) = false.
Proof.
  intros Hc.
  change (String.prefix (String dq needle) (String c s))
    with (match ascii_dec dq c with
          | left _ => String.prefix needle s
          | right _ => false
          end).
  destruct (ascii_dec dq c) as [E|_]; [|reflexivity].
  rewrite <- E, Ascii.eqb_refl in Hc. discriminate.
Qed.

Lemma index_some_skip needle t r k :
  quote_free t = true ->
  index 0 (String dq needle) r = Some k ->
  index 0 (String dq needle) (t ++ r) = Some (String.length t + k)%nat.
Proof.
  intros Hq Hr. induction t as [|c t IH]; [exact Hr|].
  simpl in Hq. apply andb_true_iff in Hq as [Hc Ht].
  change (String c t ++ r) with (String c (t ++ r)).
  change (String.length (String c t) + k)%nat with (S (String.length t + k)).
  apply index_some_cons; [now apply prefix_quote_mismatch | now apply IH].
Qed.

Lemma index_shift n needle t r :
  index (String.length t + n) needle (t ++ r) =
  match index n needle r with
  | Some k => Some (String.length t + k)%nat
  | None => None
  end.
Proof.
  induction t as [|c t IH]; [simpl; destruct (index n needle r); reflexivity|].
  change (index (String.length (String c t) + n) needle (String c t ++ r))
    with (match index (String.length t + n) needle (t ++ r) with
          | Some k => Some (S k)
          | None => None
          end).
  rewrite IH. destruct (index n needle r); reflexivity.
Qed.

Lemma substr_from_cons c s n : substr_from (String c s) (S n) = substr_from s n.
Proof. reflexivity. Qed.

Lemma substring_all s : substring 0 (String.length s) s = s.
Proof. induction s as [|c s IH]; [reflexivity|]. simpl. now rewrite IH. Qed.

Lemma substr_from_0 s : substr_from s 0 = s.
Proof. unfold substr_from. rewrite Nat.sub_0_r. apply substring_all. Qed.

Lemma substr_from_app t r k :
  substr_from (t ++ r) (String.length t + k) = substr_from r k.
Proof. induction t as [|c t IH]; [reflexivity|]. exact IH. Qed.

Lemma substr_app t r k len :
  substr (t ++ r) (String.length t + k) len = substr r k len.
Proof. induction t as [|c t IH]; [reflexivity|]. exact IH. Qed.

Lemma substring_prefix m r : substring 0 (String.length m) (m ++ r) = m.
Proof. induction m as [|c m IH]; [destruct r; reflexivity|]. simpl. now rewrite IH. Qed.

Lemma plain_quote_free s : plain s = true -> quote_free s = true.
Proof.
  induction s as [|c s IH]; [reflexivity|].
  cbn [plain quote_free]. rewrite !andb_true_iff.
  intros (((((E1 & _) & _) & _) & _) & Hs). auto.
Qed.

Lemma length_app_string (s t : string) :
  String.length (s ++ t) = (String.length s + String.length t)%nat.
Proof. induction s as [|c s IH]; [reflexivity|]. simpl. now rewrite IH. Qed.

Lemma prefix_nil_r needle : String.prefix needle EmptyString = true -> needle = EmptyString.
Proof. destruct needle; [reflexivity | discriminate]. Qed.

(** A needle made of [a], a double quote and [b] cannot start at the front
    of a quote-free text [m] that is followed by a double quote and [r],
    unless [b] starts [r]. *)
Lemma prefix_through_quote a b m r :
  quote_free a = true -> quote_free m = true ->
  String.prefix b r = false ->
  String.prefix (a ++ String dq b) (m ++ String dq r) = false.
Proof.
  intros Ha. revert m. induction a as [|x a IH]; intros m Hm Hb.
  - destruct m as [|c m]; cbn [append].
    + change (String.prefix (String dq b) (String dq r))
        with (match ascii_dec dq dq with
              | left _ => String.prefix b r
              | right _ => false
              end).
      destruct (ascii_dec dq dq) as [_|n]; [exact Hb | exfalso; now apply n].
    + simpl in Hm. apply andb_true_iff in Hm as [Hc _].
      now apply prefix_quote_mismatch.
  - simpl in Ha. apply andb_true_iff in Ha as [Hx Ha].
    destruct m as [|c m]; cbn [append].
    + change (String.prefix (String x (a ++ String dq b)) (String dq r))
        with (match ascii_dec x dq with
              | left _ => String.prefix (a ++ String dq b) r
              | right _ => false
              end).
      destruct (ascii_dec x dq) as [E|_]; [|reflexivity].
      rewrite E, Ascii.eqb_refl in Hx. discriminate.
    + simpl in Hm. apply andb_true_iff in Hm as [_ Hm].
      change (String.prefix (String x (a ++ String dq b))
                (String c (m ++ String dq r)))
        with (match ascii_dec x c with
              | left _ => String.prefix (a ++ String dq b) (m ++ String dq r)
              | right _ => false
              end).
      destruct (ascii_dec x c); [now apply IH | reflexivity].
Qed.

Lemma prefix_quoted_false a b needle m r :
  needle = String dq (a ++ String dq b) ->
  quote_free a = true -> quote_free m = true ->
  String.prefix b r = false ->
  String.prefix needle (String dq (m ++ String dq r)) = false.
Proof.
  intros -> Ha Hm Hb.
  change (String.prefix (String dq (a ++ String dq b)) (String dq (m ++ String dq r)))
    with (match ascii_dec dq dq with
          | left _ => String.prefix (a ++ String dq b) (m ++ String dq r)
          | right _ => false
          end).
  destruct (ascii_dec dq dq) as [_|n];
    [now apply prefix_through_quote | exfalso; now apply n].
Qed.

Ltac quoted_mismatch_at a :=
  eapply (prefix_quoted_false a);
  [reflexivity | reflexivity | assumption | reflexivity].

Ltac quoted_mismatch :=
  first
    [ quoted_mismatch_at "type"
    | quoted_mismatch_at "value"
    | quoted_mismatch_at "category"
    | quoted_mismatch_at "index"
    | quoted_mismatch_at "x"
    | quoted_mismatch_at "y"
    | quoted_mismatch_at "pressed" ].

Ltac absent :=
  repeat first
    [ apply index_none_cons; [reflexivity|]
    | apply index_none_cons; [quoted_mismatch|]
    | apply index_none_skip; [assumption|] ];
  reflexivity.

Lemma prefix_empty s : String.prefix EmptyString s = true.
Proof. destruct s; reflexivity. Qed.

Lemma prefix_cons_same c needle s :
  String.prefix (String c needle) (String c s) = String.prefix needle s.
Proof.
  change (String.prefix (String c needle) (String c s))
    with (match ascii_dec c c with
          | left _ => String.prefix needle s
          | right _ => false
          end).
  destruct (ascii_dec c c) as [_|n]; [reflexivity | exfalso; now apply n].
Qed.

Ltac prefix_holds := rewrite ?prefix_cons_same; apply prefix_empty.

Ltac find_occurrence :=
  repeat first
    [ eapply index_some_here; first [reflexivity | prefix_holds]
    | eapply index_some_cons; [reflexivity|]
    | eapply index_some_cons; [quoted_mismatch|]
    | eapply index_some_skip; [assumption|] ].

Lemma mode_text_shape m :
  plain m = true -> mode_text m = mode_head ++ m ++ String dq "}".
Proof.
  intros Hm. unfold mode_text. rewrite (json_escape_plain m Hm). reflexivity.
Qed.

Lemma mode_text_decodes (cb : Callbacks) (m : string) :
  _mode_callback cb = true -> plain m = true ->
  parse_message cb (mode_text m) = Ok (Some (mode_callback m)).
Proof.
  revert cb m.
  intros cb m Hcb Hm.
  pose proof (plain_quote_free m Hm) as Hq.
  rewrite (mode_text_shape m Hm).
  assert (H1 : find (mode_head ++ m ++ String dq "}") probe_touch 0 = None).
  { unfold find. cbv [probe_touch quoted mode_head]. cbn [append]. absent. }
  assert (H2 : find (mode_head ++ m ++ String dq "}") probe_controller 0 = None).
  { unfold find. cbv [probe_controller quoted mode_head]. cbn [append].
    absent. }
  assert (H3 : find (mode_head ++ m ++ String dq "}") probe_mode 0 = Some 1%nat).
  { reflexivity. }
  assert (H4 : find (mode_head ++ m ++ String dq "}")
                 (quoted "value" ++ ":" ++ String dq EmptyString) 0 = Some 15%nat).
  { unfold find. cbv [quoted mode_head]. cbn [append]. find_occurrence. }
  assert (H5 : find (mode_head ++ m ++ String dq "}") (String dq EmptyString) 24
               = Some (24 + String.length m)%nat).
  { unfold find.
    change 24%nat with (String.length mode_head + 0)%nat at 1.
    rewrite index_shift.
    rewrite (index_some_skip EmptyString m (String dq "}") 0 Hq eq_refl).
    rewrite Nat.add_0_r. reflexivity. }
  unfold parse_message. rewrite H1, H2, H3, Hcb, H4.
  cbn [found]. change (15 + 9)%nat with 24%nat. rewrite H5.
  unfold substr_until.
  replace (24 + String.length m - 24)%nat with (String.length m) by lia.
  change 24%nat with (String.length mode_head + 0)%nat.
  rewrite substr_app. unfold substr. rewrite substring_prefix. reflexivity.
Qed.

(** A mode message, as [send_mode] and the user interface print it, whose
    value holds no character that needs escaping, is decoded to exactly that
    value when the mode callback is registered; handed to [on_mode_change]
    while the process is alive, the values disabled, autonomous and
    opcontrol set the mode of the loop and of the store, and any other
    value changes nothing. *)
Theorem mode_message_round_trip :
  forall (cb : Callbacks) (m : string),
    _mode_callback cb = true -> plain m = true ->
    parse_message cb (mode_text m) = Ok (Some (mode_callback m)) /\
    (forall st : Orchestrator.state,
       Orchestrator.terminated st = false ->
       let st' := Orchestrator.on_mode_change m st in
       (m = "disabled" ->
        Orchestrator.current_mode st' = HAL.DISABLED /\
        HAL.get_robot_mode (Orchestrator.hal st') = HAL.DISABLED) /\
       (m = "autonomous" ->
        Orchestrator.current_mode st' = HAL.AUTONOMOUS /\
        HAL.get_robot_mode (Orchestrator.hal st') = HAL.AUTONOMOUS) /\
       (m = "opcontrol" ->
        Orchestrator.current_mode st' = HAL.OPCONTROL /\
        HAL.get_robot_mode (Orchestrator.hal st') = HAL.OPCONTROL) /\
       (m <> "disabled" -> m <> "autonomous" -> m <> "opcontrol" -> st' = st)).
Proof.
  intros cb m Hcb Hm.
  split; [now apply mode_text_decodes|].
  intros st Halive st'. subst st'. unfold Orchestrator.on_mode_change.
  rewrite Halive.
  repeat split; intros; subst; try reflexivity.
  destruct (String.eqb_spec m "disabled"); [contradiction|].
  destruct (String.eqb_spec m "autonomous"); [contradiction|].
  destruct (String.eqb_spec m "opcontrol"); [contradiction|]. reflexivity.
Qed.

Lemma mode_message_round_trip_witness :
  parse_message all_callbacks (mode_text "opcontrol")
    = Ok (Some (mode_callback "opcontrol")).
Proof.
  refine (proj1 (mode_message_round_trip all_callbacks "opcontrol" _ _));
    reflexivity.
Defined.


Lemma to_int16_id v : (-32768 <= v <= 32767)%Z -> to_int16 v = v.
Proof. intros H. unfold to_int16. rewrite Z.mod_small; lia. Qed.

Lemma substr_cons c s n len : substr (String c s) (S n) len = substr s n len.
Proof. reflexivity. Qed.

Ltac advance :=
  repeat first
    [ rewrite substr_from_cons
    | rewrite substr_cons
    | rewrite substr_from_app
    | rewrite substr_app
    | rewrite substr_from_0
    | progress cbn [Nat.add] ].

Lemma touch_text_decodes (cb : Callbacks) (x y : Z) (pressed : bool) :
  _touch_callback cb = true ->
  (-32768 <= x <= 32767)%Z -> (-32768 <= y <= 32767)%Z ->
  parse_message cb (ui_touch_text x y pressed)
    = Ok (Some (touch_callback (mkTouchInput (Some x) (Some y) (Some pressed)))).
Proof.
  intros Hcb Hx Hy.
  pose proof (show_int_quote_free x) as Hqx.
  pose proof (show_int_quote_free y) as Hqy.
  set (json := ui_touch_text x y pressed).
  assert (H1 : find json probe_touch 0 = Some 1%nat) by reflexivity.
  assert (H2 : find json (quoted "x" ++ ":") 0 = Some 16%nat).
  { unfold find, json. cbv [ui_touch_text quoted]. cbn [append].
    find_occurrence. }
  assert (H3 : find json (quoted "y" ++ ":") 0
               = Some (20 + (String.length (show_int x) + 1))%nat).
  { unfold find, json. cbv [ui_touch_text quoted]. cbn [append].
    find_occurrence. }
  assert (H4 : find json (quoted "pressed" ++ ":") 0
               = Some (20 + (String.length (show_int x)
                             + (5 + (String.length (show_int y) + 1))))%nat).
  { unfold find, json. cbv [ui_touch_text quoted]. cbn [append].
    find_occurrence. }
  unfold parse_message. rewrite H1, Hcb, H2, H3, H4. cbn [found].
  assert (Ex : stoi (substr_from json (16 + 4)) = Ok x).
  { unfold json. cbv [ui_touch_text quoted]. cbn [append]. advance.
    apply stoi_show_int; [lia | reflexivity]. }
  assert (Ey : stoi (substr_from json
                       (20 + (String.length (show_int x) + 1) + 4)) = Ok y).
  { unfold json. cbv [ui_touch_text quoted]. cbn [append]. advance.
    rewrite <- Nat.add_assoc. advance.
    apply stoi_show_int; [lia | reflexivity]. }
  assert (Ep : String.eqb
                 (substr json
                    (20 + (String.length (show_int x)
                           + (5 + (String.length (show_int y) + 1))) + 10) 4)
                 "true" = pressed).
  { unfold json. cbv [ui_touch_text quoted]. cbn [append]. advance.
    rewrite <- Nat.add_assoc. advance.
    rewrite <- Nat.add_assoc. advance.
    destruct pressed; reflexivity. }
  rewrite Ex, Ey, Ep. cbn [bind]. rewrite !to_int16_id by lia. reflexivity.
Qed.

(** A touch message, as the user interface prints it for coordinates that
    fit an [int16_t], is decoded to exactly those coordinates and that
    pressed flag when the touch callback is registered; handed to
    [on_touch], the input reaches the pointer device: the next
    [touch_read_cb] reports that point, pressed or released, and the
    framebuffer is not touched. *)
Theorem touch_message_round_trip :
  forall (cb : Callbacks) (x y : Z) (pressed : bool) (d : Display.Display),
    _touch_callback cb = true ->
    (-32768 <= x <= 32767)%Z -> (-32768 <= y <= 32767)%Z ->
    parse_message cb (ui_touch_text x y pressed)
      = Ok (Some (touch_callback (mkTouchInput (Some x) (Some y) (Some pressed)))) /\
    exists d' : Display.Display,
      Main.on_touch (mkTouchInput (Some x) (Some y) (Some pressed)) d = Some d' /\
      Display.touch_read_cb d'
        = (x, y, if pressed then Display.LV_INDEV_STATE_PR
                 else Display.LV_INDEV_STATE_REL) /\
      Display._framebuffer d' = Display._framebuffer d.
Proof.
  intros cb x y pressed d Hcb Hx Hy.
  split; [now apply touch_text_decodes|].
  eexists. split; [reflexivity|]. split; reflexivity.
Qed.

Lemma touch_message_round_trip_witness :
  parse_message all_callbacks (ui_touch_text 479 (-1) true)
    = Ok (Some (touch_callback (mkTouchInput (Some 479%Z) (Some (-1)%Z) (Some true)))).
Proof.
  refine (proj1 (touch_message_round_trip all_callbacks 479 (-1) true
                   Display.constructed eq_refl _ _)); lia.
Defined.


Lemma select_auto_text_shape c i :
  plain c = true ->
  ui_select_auto_text c i
    = select_auto_head ++ c ++ String dq ("," ++ quoted "index" ++ ":"
                                              ++ show_int i ++ "}").
Proof.
  intros Hc. unfold ui_select_auto_text. rewrite (json_escape_plain c Hc).
  reflexivity.
Qed.

(** A selection message, as the user interface prints it for a category
    without characters that need escaping and an index that fits an [int],
    is decoded to exactly that category and index when the selection
    callback is registered. *)
Theorem select_auto_message_round_trip :
  forall (cb : Callbacks) (category : string) (index : Z),
    _auto_select_callback cb = true ->
    plain category = true ->
    (-2147483648 <= index <= 2147483647)%Z ->
    parse_message cb (ui_select_auto_text category index)
      = Ok (Some (auto_select_callback category index)).
Proof.
  intros cb c i Hcb Hc Hi.
  pose proof (plain_quote_free c Hc) as Hq.
  pose proof (show_int_quote_free i) as Hqi.
  rewrite (select_auto_text_shape c i Hc).
  set (json := select_auto_head ++ c ++ _).
  assert (H1 : find json probe_touch 0 = None).
  { unfold find, json. cbv [probe_touch quoted select_auto_head].
    cbn [append]. absent. }
  assert (H2 : find json probe_controller 0 = None).
  { unfold find, json. cbv [probe_controller quoted select_auto_head].
    cbn [append]. absent. }
  assert (H3 : find json probe_mode 0 = None).
  { unfold find, json. cbv [probe_mode quoted select_auto_head].
    cbn [append]. absent. }
  assert (H4 : find json probe_select_auto 0 = Some 1%nat) by reflexivity.
  assert (H5 : find json (quoted "category" ++ ":" ++ String dq EmptyString) 0
               = Some 22%nat).
  { unfold find, json. cbv [quoted select_auto_head]. cbn [append].
    find_occurrence. }
  assert (H6 : find json (quoted "index" ++ ":") 0
               = Some (34 + (String.length c + 2))%nat).
  { unfold find, json. cbv [quoted select_auto_head]. cbn [append].
    find_occurrence. }
  assert (H7 : find json (String dq EmptyString) 34
               = Some (34 + String.length c)%nat).
  { unfold find, json.
    change 34%nat with (String.length select_auto_head + 0)%nat at 1.
    rewrite index_shift.
    erewrite index_some_skip;
      [|exact Hq | apply index_some_here; prefix_holds].
    rewrite Nat.add_0_r. reflexivity. }
  assert (H8 : stoi (substr_from json (34 + (String.length c + 2) + 8)) = Ok i).
  { unfold json. cbv [quoted select_auto_head]. cbn [append]. advance.
    rewrite <- Nat.add_assoc. advance.
    apply stoi_show_int; [lia | reflexivity]. }
  unfold parse_message. rewrite H1, H2, H3, H4, Hcb, H5, H6.
  cbn [found]. change (22 + 12)%nat with 34%nat. rewrite H7, H8.
  cbn [bind]. unfold substr_until.
  replace (34 + String.length c - 34)%nat with (String.length c) by lia.
  change 34%nat with (String.length select_auto_head + 0)%nat.
  unfold json. rewrite substr_app. unfold substr. rewrite substring_prefix.
  reflexivity.
Qed.

Lemma select_auto_message_round_trip_witness :
  parse_message all_callbacks (ui_select_auto_text "skills" 3)
    = Ok (Some (auto_select_callback "skills" 3%Z)).
Proof.
  apply (select_auto_message_round_trip all_callbacks "skills" 3);
    [reflexivity | reflexivity | lia].
Defined.

(** A touch message whose text after the [x] key does not start with a
    number makes [parse_message] raise [invalid_argument]: the exception of
    [stoi] is not caught and no callback is invoked. *)
Theorem touch_without_number_throws :
  forall (cb : Callbacks) (json : string) (p : nat) (c : ascii) (rest : string),
    _touch_callback cb = true ->
    found (find json probe_touch 0) = true ->
    find json (quoted "x" ++ ":") 0 = Some p ->
    substr_from json (p + 4) = String c rest ->
    isspace c = false -> digit_of c = None ->
    c <> "-"%char -> c <> "+"%char ->
    parse_message cb json = Throw invalid_argument.
Proof.
  intros cb json p c rest Hcb Hfound Hx Hsub Hs Hd Hm Hp.
  unfold parse_message. rewrite Hfound, Hcb, Hx, Hsub.
  rewrite (stoi_not_a_number c rest Hs Hd Hm Hp). reflexivity.
Qed.

Lemma touch_without_number_throws_witness :
  parse_message all_callbacks
    ("{" ++ quoted "type" ++ ":" ++ quoted "touch" ++ "," ++ quoted "x"
         ++ ":null," ++ quoted "y" ++ ":3}")
    = Throw invalid_argument.
Proof.
  apply (touch_without_number_throws all_callbacks _ 16 "n"
           ("ull," ++ quoted "y" ++ ":3}"));
    solve [reflexivity | discriminate].
Defined.


Lemma controller_text_decodes (cb : Callbacks) (lx ly rx ry digital : Z) :
  _controller_callback cb = true ->
  parse_message cb (ui_controller_text lx ly rx ry digital)
    = Ok (Some (controller_callback (mkControllerInput 0 0 0 0 0))).
Proof.
  intros Hcb.
  pose proof (show_int_quote_free lx) as Hq1.
  pose proof (show_int_quote_free ly) as Hq2.
  pose proof (show_int_quote_free rx) as Hq3.
  pose proof (show_int_quote_free ry) as Hq4.
  pose proof (show_int_quote_free digital) as Hq5.
  set (json := ui_controller_text lx ly rx ry digital).
  assert (H1 : find json probe_touch 0 = None).
  { unfold find, json. cbv [ui_controller_text probe_touch quoted].
    cbn [append]. absent. }
  assert (H2 : find json probe_controller 0 = Some 1%nat) by reflexivity.
  unfold parse_message. rewrite H1, H2, Hcb. reflexivity.
Qed.

(** A display-button message of the user interface is never decoded:
    whatever callbacks are registered, [parse_message] invokes none and
    raises nothing, so the buttons of the emulated display stay as they
    are. *)
Theorem lcd_button_message_is_ignored :
  forall (cb : Callbacks) (button : Z) (pressed : bool),
    parse_message cb (ui_lcd_button_text button pressed) = Ok None.
Proof.
  intros cb button pressed.
  pose proof (show_int_quote_free button) as Hq.
  assert (Hb : quote_free (show_bool pressed) = true)
    by (destruct pressed; reflexivity).
  set (json := ui_lcd_button_text button pressed).
  assert (H1 : find json probe_touch 0 = None).
  { unfold find, json. cbv [ui_lcd_button_text probe_touch quoted].
    cbn [append]. absent. }
  assert (H2 : find json probe_controller 0 = None).
  { unfold find, json. cbv [ui_lcd_button_text probe_controller quoted].
    cbn [append]. absent. }
  assert (H3 : find json probe_mode 0 = None).
  { unfold find, json. cbv [ui_lcd_button_text probe_mode quoted].
    cbn [append]. absent. }
  assert (H4 : find json probe_select_auto 0 = None).
  { unfold find, json. cbv [ui_lcd_button_text probe_select_auto quoted].
    cbn [append]. absent. }
  unfold parse_message. rewrite H1, H2, H3, H4. reflexivity.
Qed.

End IPC_decoding.

(** * Further properties of the mode orchestrator *)

Section Orchestrator_runs.
Import HAL Orchestrator.
Local Open Scope string_scope.

Lemma tick_settles st :
  terminated (tick st) = false -> last_mode (tick st) = current_mode (tick st).
Proof.
  destruct st as [h cm lm mt ths dc tm].
  unfold tick. cbn [terminated hal current_mode last_mode].
  destruct tm; [discriminate|].
  destruct (RobotMode_eqb cm lm) eqn:E; cbn [negb].
  - intros _. destruct cm, lm; try discriminate E; reflexivity.
  - destruct cm, mt; cbv; congruence.
Qed.

Lemma tick_keeps_modes st :
  get_robot_mode (hal (tick st)) = get_robot_mode (hal st) /\
  current_mode (tick st) = current_mode st.
Proof.
  destruct st as [h cm lm mt ths dc tm].
  unfold tick. cbn [terminated hal current_mode last_mode].
  destruct tm; [split; reflexivity|].
  destruct (negb (RobotMode_eqb cm lm)); [|split; reflexivity].
  destruct cm, mt; split; reflexivity.
Qed.

Lemma thread_returns_keeps_modes i st :
  get_robot_mode (hal (thread_returns i st)) = get_robot_mode (hal st) /\
  current_mode (thread_returns i st) = current_mode st.
Proof.
  destruct st as [h cm lm mt ths dc tm].
  unfold thread_returns. cbn [terminated]. destruct tm; split; reflexivity.
Qed.

Lemma modes_in_step_step st e :
  Receiver.modes_in_step st -> Receiver.modes_in_step (Receiver.step st e).
Proof.
  destruct st as [m p]. unfold Receiver.modes_in_step.
  destruct e as [mode| | |i]; cbn [Receiver.step Receiver.main Receiver.pending].
  - unfold Receiver.store_current_mode. cbn [Receiver.main Receiver.pending].
    destruct (terminated m); [auto|].
    destruct p as [X|]; [auto|].
    destruct (Receiver.mode_of_name mode); cbn; auto.
  - unfold Receiver.call_set_robot_mode. cbn [Receiver.main Receiver.pending].
    destruct (terminated m); [auto|].
    destruct p as [X|]; cbn; auto.
  - destruct (tick_keeps_modes m) as [-> ->]. auto.
  - destruct (thread_returns_keeps_modes i m) as [-> ->]. auto.
Qed.

Lemma modes_in_step_run es st :
  Receiver.modes_in_step st -> Receiver.modes_in_step (Receiver.run st es).
Proof.
  revert st. unfold Receiver.run.
  induction es as [|e es IH]; intros st H; [exact H|].
  cbn [fold_left]. apply IH. now apply modes_in_step_step.
Qed.

(** The receive thread writes [current_mode] and the mode of the store in
    two steps, and the main loop can run between them.  Along every
    interleaving that starts from a store in DISABLED mode: between two
    messages the mode kept by the store equals [current_mode]; while the
    call of [set_robot_mode] is pending, [current_mode] already holds the
    new mode; a loop iteration that leaves the process alive ends with
    [last_mode] equal to [current_mode].  The store can lag: after the
    first write of an autonomous message and one loop iteration,
    [last_mode] is AUTONOMOUS and a thread runs while the store still says
    DISABLED.  When nothing runs between the two writes they amount to one
    call of [on_mode_change]. *)
Theorem store_mode_follows_current_mode :
  forall (h : HAL) (es : list Receiver.event),
    get_robot_mode h = DISABLED ->
    let st := Receiver.run (Receiver.initial h) es in
    (Receiver.pending st = None ->
     get_robot_mode (hal (Receiver.main st)) = current_mode (Receiver.main st)) /\
    (forall X, Receiver.pending st = Some X -> current_mode (Receiver.main st) = X) /\
    (terminated (tick (Receiver.main st)) = false ->
     last_mode (tick (Receiver.main st)) = current_mode (Receiver.main st)) /\
    (let lag := Receiver.run (Receiver.initial h)
                  [Receiver.StoreCurrentMode "autonomous"; Receiver.Tick] in
     last_mode (Receiver.main lag) = AUTONOMOUS /\
     alive (Receiver.main lag) = 1%nat /\
     get_robot_mode (hal (Receiver.main lag)) = DISABLED /\
     Receiver.pending lag = Some AUTONOMOUS) /\
    (forall mode,
       Receiver.pending st = None ->
       Receiver.main
         (Receiver.step (Receiver.step st (Receiver.StoreCurrentMode mode))
                        Receiver.CallSetRobotMode)
       = on_mode_change mode (Receiver.main st)).
Proof.
  intros h es Hh st.
  assert (Hinv : Receiver.modes_in_step st).
  { apply modes_in_step_run. exact Hh. }
  unfold Receiver.modes_in_step in Hinv.
  split; [intros Hp; now rewrite Hp in Hinv|].
  split; [intros X Hp; now rewrite Hp in Hinv|].
  split.
  { intros Halive. rewrite (tick_settles _ Halive).
    apply (proj2 (tick_keeps_modes _)). }
  split.
  { cbv zeta. cbn. repeat split. exact Hh. }
  intros mode Hp. destruct st as [m p]. cbn [Receiver.pending] in Hp. subst p.
  cbn [Receiver.step]. unfold Receiver.store_current_mode, on_mode_change.
  cbn [Receiver.main Receiver.pending].
  destruct m as [h' cm lm mt ths dc tm]. cbn [terminated].
  destruct tm.
  { cbn. reflexivity. }
  unfold Receiver.mode_of_name.
  destruct (String.eqb mode "disabled"); [reflexivity|].
  destruct (String.eqb mode "autonomous"); [reflexivity|].
  destruct (String.eqb mode "opcontrol"); reflexivity.
Qed.

Lemma store_mode_follows_current_mode_witness :
  get_robot_mode
    (hal (Receiver.main
            (Receiver.run (Receiver.initial constructed)
               [Receiver.StoreCurrentMode "autonomous"; Receiver.Tick;
                Receiver.CallSetRobotMode])))
  = current_mode
      (Receiver.main
         (Receiver.run (Receiver.initial constructed)
            [Receiver.StoreCurrentMode "autonomous"; Receiver.Tick;
             Receiver.CallSetRobotMode])).
Proof.
  exact (proj1 (store_mode_follows_current_mode constructed
                  [Receiver.StoreCurrentMode "autonomous"; Receiver.Tick;
                   Receiver.CallSetRobotMode] eq_refl) eq_refl).
Defined.

(** Once a mode-execution thread has been started, whether or not its
    function has returned, the next switch to autonomous or operator
    control that the loop observes ends the process: the loop deletes the
    thread object without joining it.  A second mode-execution thread is
    never started. *)
Theorem second_mode_thread_terminates :
  forall (h : HAL) (before : list event) (mode : string),
    terminated (run (initial h) before) = false ->
    threads (run (initial h) before) <> [] ->
    (mode = "autonomous" /\ last_mode (run (initial h) before) <> AUTONOMOUS) \/
    (mode = "opcontrol" /\ last_mode (run (initial h) before) <> OPCONTROL) ->
    terminated (tick (on_mode_change mode (run (initial h) before))) = true /\
    threads (tick (on_mode_change mode (run (initial h) before)))
      = threads (run (initial h) before).
Proof.
  intros h before mode Halive Hths Hmode.
  pose proof (single_owner_run before _ (single_owner_initial h)) as Hown.
  destruct (run (initial h) before) as [h' cm lm mt ths dc tm].
  cbn [terminated threads last_mode] in *. subst tm.
  destruct Hown as [H|[[_ H]|[H _]]]; cbn in H; [discriminate | contradiction |].
  subst mt.
  destruct Hmode as [[-> Hl]|[-> Hl]]; destruct lm; try contradiction;
    cbv -[update]; auto.
Qed.

Lemma second_mode_thread_terminates_witness :
  terminated
    (run (initial constructed)
       [ModeMessage "autonomous"; Tick; ThreadReturns 0;
        ModeMessage "disabled"; Tick; ModeMessage "opcontrol"; Tick]) = true.
Proof.
  apply (second_mode_thread_terminates constructed
           [ModeMessage "autonomous"; Tick; ThreadReturns 0;
            ModeMessage "disabled"; Tick] "opcontrol");
    [reflexivity | discriminate | right; split; [reflexivity | discriminate]].
Defined.

End Orchestrator_runs.

(** * Properties of the motor wrapper *)

Section Motor_properties.
Import HAL Motor.
Local Open Scope Z_scope.

Lemma wf_setters h port :
  wf h ->
  (forall g, wf (set_motor_gearset h port g)) /\
  (forall r, wf (set_motor_reversed h port r)) /\
  (forall c, wf (set_motor_connected h port c)).
Proof.
  intros Hwf.
  unfold set_motor_gearset, set_motor_reversed, set_motor_connected.
  destruct (bad_port port); (split; [|split]); intros;
    try assumption; now apply wf_modify_motor.
Qed.

Lemma new_port_range port :
  -128 <= port <= 127 ->
  let p := if port <? 0 then to_int8 (- port) else port in
  let p := if p <? 1 then 1 else p in
  let p := if 21 <? p then 21 else p in
  1 <= p <= 21 /\ (1 <= Z.abs port <= 21 -> p = Z.abs port) /\
  (port = 0 \/ port = -128 -> p = 1) /\ (21 < Z.abs port < 128 -> p = 21).
Proof.
  intros Hp. cbv zeta. unfold to_int8.
  destruct (port <? 0) eqn:E0.
  - assert (Hm : (- port + 128) mod 256 - 128 = if port =? -128 then -128 else - port).
    { destruct (port =? -128) eqn:E; [apply Z.eqb_eq in E; subst; reflexivity|].
      apply Z.eqb_neq in E. rewrite Z.mod_small by lia. lia. }
    rewrite Hm.
    destruct (port =? -128) eqn:E; [apply Z.eqb_eq in E; subst; cbn; lia|].
    apply Z.eqb_neq in E.
    destruct (- port <? 1) eqn:E1; [lia|].
    destruct (21 <? - port) eqn:E2; lia.
  - destruct (port <? 1) eqn:E1.
    + cbn. lia.
    + destruct (21 <? port) eqn:E2; lia.
Qed.

(** Constructing a motor for any [int8_t] port gives an object whose port
    lies in 1..21: the magnitude of the port when that is in 1..21, port 1
    for 0 and for -128, port 21 for a magnitude above 21.  A negative port
    flips the reversal flag.  In the store the motor of that port becomes
    connected with the requested gearset and the object's reversal flag,
    its command and its motion are untouched, and no other motor
    changes. *)
Theorem motor_constructor_registers_port :
  forall (h : HAL) (port : Z) (g : motor_gearset_e_t) (reverse : bool),
    wf h -> -128 <= port <= 127 ->
    let m := fst (new h port g reverse) in
    let h' := snd (new h port g reverse) in
    1 <= _port m <= 21 /\
    (1 <= Z.abs port <= 21 -> _port m = Z.abs port) /\
    (port = 0 \/ port = -128 -> _port m = 1) /\
    (21 < Z.abs port < 128 -> _port m = 21) /\
    _reversed m = xorb reverse (port <? 0) /\
    motor_at h' (_port m)
      = set_connected true
          (set_reversed (_reversed m) (set_gearset g (motor_at h (_port m)))) /\
    is_motor_connected h' (_port m) = true /\
    get_motor_gearset h' (_port m) = g /\
    get_motor_reversed h' (_port m) = _reversed m /\
    (forall q, 1 <= q <= 21 -> q <> _port m -> motor_at h' q = motor_at h q) /\
    wf h'.
Proof.
  intros h port g reverse Hwf Hport m h'.
  destruct (new_port_range port Hport) as (Hr & Habs & Hedge & Hbig).
  cbv zeta in Hr, Habs, Hedge, Hbig.
  subst m h'. unfold new. cbn [fst snd _port _reversed].
  set (p := if 21 <? _ then 21 else _) in *.
  set (r := if port <? 0 then negb reverse else reverse).
  pose proof (bad_port_false p Hr) as Hb.
  destruct (wf_setters h p Hwf) as (Hw1 & _ & _).
  destruct (wf_setters _ p (Hw1 g)) as (_ & Hw2 & _).
  destruct (wf_setters _ p (Hw2 r)) as (_ & _ & Hw3).
  assert (Hat : motor_at
                  (set_motor_connected
                     (set_motor_reversed (set_motor_gearset h p g) p r) p true) p
                = set_connected true (set_reversed r (set_gearset g (motor_at h p)))).
  { unfold set_motor_connected, set_motor_reversed, set_motor_gearset.
    rewrite !Hb.
    rewrite motor_at_modify by
      (try assumption; repeat apply wf_modify_motor; assumption).
    rewrite motor_at_modify by
      (try assumption; repeat apply wf_modify_motor; assumption).
    rewrite motor_at_modify by assumption. reflexivity. }
  split; [exact Hr|]. split; [exact Habs|]. split; [exact Hedge|].
  split; [exact Hbig|].
  split; [subst r; destruct (port <? 0), reverse; reflexivity|].
  split; [exact Hat|].
  unfold is_motor_connected, get_motor_gearset, get_motor_reversed.
  rewrite !Hb, !Hat.
  split; [reflexivity|]. split; [reflexivity|]. split; [reflexivity|].
  split; [|apply Hw3].
  intros q Hq Hne.
  unfold set_motor_connected, set_motor_reversed, set_motor_gearset.
  rewrite !Hb.
  rewrite !motor_at_modify_ne by (try assumption; congruence). reflexivity.
Qed.

Lemma motor_constructor_registers_port_witness :
  _port (fst (new constructed (-3) E_MOTOR_GEARSET_06 false)) = 3 /\
  _reversed (fst (new constructed (-3) E_MOTOR_GEARSET_06 false)) = true.
Proof.
  destruct (motor_constructor_registers_port constructed (-3) E_MOTOR_GEARSET_06
              false wf_constructed ltac:(lia))
    as (_ & H & _ & _ & Hr & _).
  split; [apply H; cbn; lia | exact Hr].
Defined.


Lemma get_voltage_after_set_motor h port v :
  wf h -> 1 <= port <= 21 ->
  get_motor_voltage (set_motor h port v) port = clamp v (-127) 127.
Proof.
  intros Hwf Hp. unfold get_motor_voltage, set_motor.
  rewrite (bad_port_false port Hp), motor_at_modify by assumption. reflexivity.
Qed.

Lemma clamp_id v lo hi : lo <= v <= hi -> clamp v lo hi = v.
Proof.
  intros H. unfold clamp.
  destruct (v <? lo) eqn:E1; [lia|]. destruct (hi <? v) eqn:E2; lia.
Qed.

(** A voltage in millivolts commanded with [move_voltage] is read back by
    [get_voltage] within 95 mV of the commanded value clamped to
    [-12000, 12000], never larger in magnitude and never of the opposite
    sign; for a reversed motor the value read back is the negated one,
    because [get_voltage] does not undo the reversal that [move]
    applies. *)
Theorem move_voltage_reads_back_within_95mV :
  forall (m : Motor) (h : HAL) (mv : Z),
    wf h -> 1 <= _port m <= 21 ->
    exists r : Z,
      get_voltage m (move_voltage m h mv) = Some r /\
      let c := clamp mv (-12000) 12000 in
      let s := if _reversed m then - r else r in
      Z.abs (c - s) <= 95 /\ Z.abs s <= Z.abs c /\ 0 <= s * c /\
      (c = 0 \/ c = 12000 \/ c = -12000 -> s = c).
Proof.
  intros m h mv Hwf Hp.
  unfold get_voltage, move_voltage, move.
  pose proof (clamp_range mv (-12000) 12000 ltac:(lia)) as Hc.
  set (c := clamp mv (-12000) 12000) in *.
  set (scaled := Z.quot (c * 127) 12000).
  assert (Hs : -127 <= scaled <= 127).
  { subst scaled. Z.to_euclidean_division_equations. lia. }
  rewrite (clamp_id scaled) by exact Hs.
  rewrite get_voltage_after_set_motor by assumption.
  destruct (_reversed m).
  - rewrite clamp_id by lia.
    replace (in_int32 (- scaled * 12000)) with true
      by (symmetry; unfold in_int32; apply andb_true_iff; lia).
    eexists. split; [reflexivity|]. cbv zeta.
    subst scaled. Z.to_euclidean_division_equations. nia.
  - rewrite clamp_id by lia.
    replace (in_int32 (scaled * 12000)) with true
      by (symmetry; unfold in_int32; apply andb_true_iff; lia).
    eexists. split; [reflexivity|]. cbv zeta.
    subst scaled. Z.to_euclidean_division_equations. nia.
Qed.

Lemma move_voltage_reads_back_within_95mV_witness :
  exists r : Z,
    get_voltage (fst (new constructed 2 E_MOTOR_GEARSET_18 false))
      (move_voltage (fst (new constructed 2 E_MOTOR_GEARSET_18 false))
                    (snd (new constructed 2 E_MOTOR_GEARSET_18 false)) 6000)
      = Some r /\
    Z.abs (clamp 6000 (-12000) 12000 - r) <= 95.
Proof.
  destruct (move_voltage_reads_back_within_95mV
              (fst (new constructed 2 E_MOTOR_GEARSET_18 false))
              (snd (new constructed 2 E_MOTOR_GEARSET_18 false)) 6000)
    as (r & Hr & Hbound & _).
  - repeat split.
  - cbn. lia.
  - exists r. split; [exact Hr | exact Hbound].
Defined.


End Motor_properties.

(** * Properties of the motor wrapper in binary64 *)

Section Motor64_properties.
Import Binary64 HAL64.
Local Open Scope Z_scope.

Lemma update_motor_mirrored m m' :
  mirrored m m' ->
  match update_motor m, update_motor m' with
  | Some r, Some r' => mirrored r r'
  | None, None => True
  | _, _ => False
  end.
Proof.
  intros (Hv & Ha & Hg & Hc). unfold update_motor. rewrite Hc, Hg, Hv.
  destruct (connected m) eqn:Hcm; cbn [negb];
    [|unfold mirrored; repeat split; solve [assumption | congruence]].
  set (mx := max_velocity_of (gearset m)).
  set (c9 := sub (of_int 1) one_tenth).
  assert (Ht : opposite (mul (mul (div (of_int (voltage m)) (of_int 127)) mx) one_tenth)
                        (mul (mul (div (of_int (- voltage m)) (of_int 127)) mx) one_tenth)).
  { apply opposite_mul, opposite_mul, opposite_div, opposite_of_int. }
  assert (Ha' : opposite
                  (add (mul (actual_velocity m) c9)
                       (mul (mul (div (of_int (voltage m)) (of_int 127)) mx) one_tenth))
                  (add (mul (actual_velocity m') c9)
                       (mul (mul (div (of_int (- voltage m)) (of_int 127)) mx) one_tenth))).
  { apply opposite_add; [apply opposite_mul; exact Ha|exact Ht]. }
  rewrite (fabs_opposite _ _ (opposite_div _ _ mx Ha')).
  destruct (static_cast_int32 _); [|exact I].
  repeat split; cbn; auto.
Qed.

Lemma update_mirrored_at i ms ms' :
  mirrored_at i ms ms' ->
  match update ms, update ms' with
  | Some r, Some r' => mirrored_at i r r'
  | None, None => True
  | _, _ => False
  end.
Proof.
  induction 1 as [m m' rest Hm|i m rest rest' _ IH]; cbn [update].
  - pose proof (update_motor_mirrored m m' Hm) as H.
    destruct (update_motor m), (update_motor m'); try contradiction; [|exact I].
    destruct (update rest); [|exact I]. now constructor.
  - destruct (update_motor m); [|exact I].
    destruct (update rest), (update rest'); try contradiction; [|exact I].
    now constructor.
Qed.

Lemma updates_mirrored_at n i ms ms' :
  mirrored_at i ms ms' ->
  match updates n ms, updates n ms' with
  | Some r, Some r' => mirrored_at i r r'
  | None, None => True
  | _, _ => False
  end.
Proof.
  revert ms ms'. induction n as [|n IH]; intros ms ms' H; cbn [updates]; [exact H|].
  pose proof (update_mirrored_at i ms ms' H) as H1.
  destruct (update ms), (update ms'); try contradiction; [|exact I].
  now apply IH.
Qed.

Lemma mirrored_at_lookup i ms ms' :
  mirrored_at i ms ms' ->
  exists m m', ms !! i = Some m /\ ms' !! i = Some m' /\ mirrored m m'.
Proof.
  induction 1 as [m m' rest Hm|i m rest rest' _ IH]; cbn [lookup list_lookup]; eauto.
Qed.

Lemma alter_mirrored_at f g i ms m :
  ms !! i = Some m -> mirrored (f m) (g m) ->
  mirrored_at i (alter f i ms) (alter g i ms).
Proof.
  revert i. induction ms as [|x ms IH]; intros [|i]; cbn; try discriminate.
  - intros [= ->] H. now constructor.
  - intros Hl H. constructor. now apply IH.
Qed.

(** Reversal is transparent: for a motor at rest, the velocity that a
    reversed [Motor] object reports after [move(v)] and [n] ticks is the
    same number as the velocity an unreversed one reports; the two sign
    flips, in [move] and in [get_actual_velocity], cancel exactly in
    binary64.  The ticks of the two runs are defined together. *)
Theorem reversal_is_transparent :
  forall (forward backward : Motor.Motor) (motors : list MotorState)
         (v : Z) (n : nat),
    Motor._reversed forward = false ->
    Motor._reversed backward = true ->
    Motor._port backward = Motor._port forward ->
    1 <= Motor._port forward <= Z.of_nat (length motors) ->
    Motor._port forward <= 21 ->
    is_zero (actual_velocity (motor_at motors (Motor._port forward))) = true ->
    match updates n (move forward motors v), updates n (move backward motors v) with
    | Some f, Some b =>
        same_number (get_actual_velocity backward b) (get_actual_velocity forward f)
    | None, None => True
    | _, _ => False
    end.
Proof.
  intros fw bw motors v n Hf Hb Hp Hport H21 Hrest.
  unfold move, get_actual_velocity, get_motor_actual_velocity, set_motor.
  rewrite Hf, Hb, Hp.
  assert (Hbad : HAL.bad_port (Motor._port fw) = false).
  { unfold HAL.bad_port. apply orb_false_iff. split; apply Z.ltb_ge; lia. }
  rewrite Hbad. set (i := Z.to_nat (Motor._port fw - 1)).
  destruct (motors !! i) as [m|] eqn:Hm.
  2:{ apply lookup_ge_None in Hm. subst i. lia. }
  set (c := clamp v (-127) 127).
  assert (Hc : clamp (- c) (-127) 127 = - c).
  { subst c. unfold clamp.
    destruct (v <? -127) eqn:E1; [reflexivity|].
    destruct (127 <? v) eqn:E2; [reflexivity|].
    apply Z.ltb_ge in E1, E2.
    destruct (- v <? -127) eqn:E3; [apply Z.ltb_lt in E3; lia|].
    destruct (127 <? - v) eqn:E4; [apply Z.ltb_lt in E4; lia|]. reflexivity. }
  assert (Hcc : clamp c (-127) 127 = c).
  { subst c. unfold clamp.
    destruct (v <? -127) eqn:E1; [reflexivity|].
    destruct (127 <? v) eqn:E2; [reflexivity|].
    rewrite E1, E2. reflexivity. }
  rewrite Hc, Hcc.
  assert (Hmir : mirrored_at i (alter (set_voltage c) i motors)
                              (alter (set_voltage (- c)) i motors)).
  { apply alter_mirrored_at with m; [exact Hm|].
    unfold motor_at in Hrest. fold i in Hrest. rewrite Hm in Hrest. cbn in Hrest.
    repeat split; cbn; auto. right. split; exact Hrest. }
  pose proof (updates_mirrored_at n i _ _ Hmir) as H.
  destruct (updates n (alter (set_voltage c) i motors)) as [f|],
           (updates n (alter (set_voltage (- c)) i motors)) as [b|];
    try contradiction; [|exact I].
  destruct (mirrored_at_lookup _ _ _ H) as (mf & mb & Hlf & Hlb & _ & Ho & _).
  unfold motor_at. fold i. rewrite Hlf, Hlb. cbn.
  now apply opposite_same_number.
Qed.

Lemma reversal_is_transparent_witness :
  match updates 3 (move (fst (Motor.new HAL.constructed 2 HAL.E_MOTOR_GEARSET_18 false))
                        (set_motor_connected constructed 2 true) 127),
        updates 3 (move (fst (Motor.new HAL.constructed (-2) HAL.E_MOTOR_GEARSET_18 false))
                        (set_motor_connected constructed 2 true) 127) with
  | Some f, Some b =>
      same_number
        (get_actual_velocity
           (fst (Motor.new HAL.constructed (-2) HAL.E_MOTOR_GEARSET_18 false)) b)
        (get_actual_velocity
           (fst (Motor.new HAL.constructed 2 HAL.E_MOTOR_GEARSET_18 false)) f)
  | None, None => True
  | _, _ => False
  end.
Proof.
  apply (reversal_is_transparent
           (fst (Motor.new HAL.constructed 2 HAL.E_MOTOR_GEARSET_18 false))
           (fst (Motor.new HAL.constructed (-2) HAL.E_MOTOR_GEARSET_18 false))
           (set_motor_connected constructed 2 true) 127 3).
  - reflexivity.
  - reflexivity.
  - reflexivity.
  - vm_compute. split; discriminate.
  - vm_compute. discriminate.
  - reflexivity.
Defined.

End Motor64_properties.

(** * Properties of the controller wrapper *)

Section Controller_properties.
Import HAL Controller.
Local Open Scope Z_scope.

Lemma new_press_step self h button :
  0 <= button < 18 ->
  length (_last_digital_state self) = 18%nat ->
  let last := default 0 (_last_digital_state self !! Z.to_nat button) in
  let r := get_digital_new_press self h button in
  fst r = (if get_controller_digital h (_id self) button
           then (if last =? 0 then 1 else 0) else 0) /\
  _id (snd r) = _id self /\
  length (_last_digital_state (snd r)) = 18%nat /\
  default 0 (_last_digital_state (snd r) !! Z.to_nat button)
    = get_digital self h button /\
  (forall other, other <> button -> 0 <= other ->
     _last_digital_state (snd r) !! Z.to_nat other
       = _last_digital_state self !! Z.to_nat other).
Proof.
  intros Hb Hlen. cbv zeta. unfold get_digital_new_press.
  replace ((button <? 0) || (18 <=? button)) with false
    by (symmetry; apply orb_false_iff; lia).
  cbn [fst snd _id _last_digital_state].
  split; [|split; [reflexivity|split; [|split]]].
  - unfold get_digital.
    destruct (get_controller_digital h (_id self) button); reflexivity.
  - now rewrite length_insert.
  - rewrite list_lookup_insert_eq by lia. reflexivity.
  - intros other Hne Ho. apply list_lookup_insert_ne. lia.
Qed.

(** A press is reported once: polling a button twice, with any polling of
    other buttons in between, the second poll reports a new press exactly
    when the button is down at the second poll and was up at the first; so
    a button that is held reports nothing.  The first poll of a fresh
    controller object reports a press exactly when the button is down.  A
    button index outside 0..17 reports nothing and leaves the object
    unchanged. *)
Theorem new_press_is_reported_once :
  forall (self : Controller) (h1 h2 h3 : HAL) (button other : Z),
    0 <= button < 18 -> 0 <= other -> other <> button ->
    length (_last_digital_state self) = 18%nat ->
    let s1 := snd (get_digital_new_press self h1 button) in
    let s2 := snd (get_digital_new_press s1 h2 other) in
    let down h := get_controller_digital h (_id self) button in
    fst (get_digital_new_press s2 h3 button)
      = (if down h3 && negb (down h1) then 1 else 0) /\
    fst (get_digital_new_press (new (_id self)) h1 button)
      = (if down h1 then 1 else 0) /\
    (forall idx, ~ 0 <= idx < 18 ->
       get_digital_new_press self h1 idx = (0, self)).
Proof.
  intros self h1 h2 h3 button other Hb Ho Hne Hlen s1 s2 down.
  destruct (new_press_step self h1 button Hb Hlen)
    as (_ & Hid1 & Hlen1 & Hlast1 & _).
  fold s1 in Hid1, Hlen1, Hlast1.
  assert (H2 : _id s2 = _id self /\
               length (_last_digital_state s2) = 18%nat /\
               _last_digital_state s2 !! Z.to_nat button
                 = _last_digital_state s1 !! Z.to_nat button).
  { subst s2. unfold get_digital_new_press.
    destruct ((other <? 0) || (18 <=? other)) eqn:E; cbn [snd].
    - auto.
    - cbn [_id _last_digital_state]. rewrite length_insert.
      split; [exact Hid1|]. split; [exact Hlen1|].
      apply list_lookup_insert_ne. lia. }
  destruct H2 as (Hid2 & Hlen2 & Hsame).
  destruct (new_press_step s2 h3 button Hb Hlen2) as (Hr & _).
  split; [|split].
  - rewrite Hr, Hid2, Hsame, Hlast1. unfold get_digital. fold (down h1) (down h3).
    destruct (down h3), (down h1); reflexivity.
  - destruct (new_press_step (new (_id self)) h1 button Hb eq_refl) as (Hn & _).
    rewrite Hn. cbn [new _id _last_digital_state]. fold (down h1).
    assert (Hz : default 0 (replicate 18 0 !! Z.to_nat button) = 0).
    { destruct (replicate 18 0 !! Z.to_nat button) as [z|] eqn:E; [|reflexivity].
      apply lookup_replicate in E as [-> _]. reflexivity. }
    rewrite Hz. reflexivity.
  - intros idx Hidx. unfold get_digital_new_press.
    replace ((idx <? 0) || (18 <=? idx)) with true; [reflexivity|].
    symmetry. apply orb_true_iff.
    destruct (idx <? 0) eqn:E; [now left | right; lia].
Qed.

Lemma new_press_is_reported_once_witness :
  fst (get_digital_new_press
         (snd (get_digital_new_press
                 (snd (get_digital_new_press (new 0)
                         (set_controller_digital constructed 0 17 true) 17))
                 constructed 15))
         (set_controller_digital constructed 0 17 true) 17) = 0.
Proof.
  apply (new_press_is_reported_once (new 0)
           (set_controller_digital constructed 0 17 true) constructed
           (set_controller_digital constructed 0 17 true) 17 15);
    [lia | lia | lia | reflexivity].
Defined.

End Controller_properties.

(** * Properties of the legacy LCD emulator *)

Section LLEMU_properties.
Import HAL LLEMU.
Local Open Scope Z_scope.

Lemma refused_spec s line :
  refused s line = false <-> lcd_initialized s = true /\ 0 <= line <= 7.
Proof.
  unfold refused. rewrite !orb_false_iff, negb_false_iff, !Z.ltb_ge. tauto.
Qed.

Lemma lcd_get_text_clear h line :
  wf h -> lcd_get_text (lcd_clear h) line = EmptyString.
Proof.
  intros Hwf. unfold lcd_get_text, lcd_clear.
  destruct (bad_line line) eqn:Hb; [reflexivity|]. cbn [_lcd_lines with_lcd].
  rewrite list_lookup_fmap.
  destruct (_lcd_lines h !! Z.to_nat line); reflexivity.
Qed.

Lemma lcd_get_text_set h line text :
  wf h -> 0 <= line <= 7 ->
  lcd_get_text (lcd_set_text h line text) line = text /\
  (forall line', line' <> line -> 0 <= line' ->
     lcd_get_text (lcd_set_text h line text) line' = lcd_get_text h line').
Proof.
  intros Hwf Hl. unfold lcd_get_text, lcd_set_text.
  rewrite (bad_line_false line Hl). cbn [_lcd_lines with_lcd]. split.
  - rewrite list_lookup_insert_eq by now apply lcd_line_lt. reflexivity.
  - intros line' Hne Hl'. destruct (bad_line line'); [reflexivity|].
    rewrite list_lookup_insert_ne by lia. reflexivity.
Qed.

(** The emulator accepts a text exactly when it has been initialised and
    the line is in 0..7; an accepted text is read back from the store on
    that line and no other line changes; a refused call leaves the store
    as it is.  Initialising empties every line.  After [shutdown] every
    write is refused and the buttons read as 0, while the text written
    before stays in the store. *)
Theorem llemu_text_is_gated :
  forall (s : state) (h : HAL) (line : Z) (text : string),
    wf h ->
    (fst (set_text s h line text) = true
       <-> lcd_initialized s = true /\ 0 <= line <= 7) /\
    (fst (set_text s h line text) = true ->
       lcd_get_text (snd (set_text s h line text)) line = text /\
       (forall line', line' <> line -> 0 <= line' ->
          lcd_get_text (snd (set_text s h line text)) line'
            = lcd_get_text h line')) /\
    (fst (set_text s h line text) = false -> snd (set_text s h line text) = h) /\
    (forall line',
       lcd_get_text (snd (initialize s h)) line' = EmptyString) /\
    is_initialized (fst (initialize s h)) = true /\
    set_text (shutdown s) h line text = (false, h) /\
    clear (shutdown s) h = (false, h) /\
    clear_line (shutdown s) h line = (false, h) /\
    read_buttons (shutdown s) h = 0.
Proof.
  intros s h line text Hwf.
  pose proof (refused_spec s line) as Hspec.
  unfold set_text.
  destruct (refused s line) eqn:Hr; cbn [fst snd].
  - split.
    { split; [discriminate|]. intros H. apply Hspec in H. discriminate. }
    split; [discriminate|]. split; [reflexivity|].
    split; [intros; now apply lcd_get_text_clear|].
    repeat split.
  - destruct (proj1 Hspec eq_refl) as [Hi Hl].
    split; [split; auto|].
    split; [intros _; now apply lcd_get_text_set|].
    split; [discriminate|].
    split; [intros; now apply lcd_get_text_clear|].
    repeat split.
Qed.

Lemma llemu_text_is_gated_witness :
  fst (set_text (fst (initialize start constructed))
                (snd (initialize start constructed)) 2 "ready") = true.
Proof.
  assert (Hwf : wf (snd (initialize start constructed))) by (repeat split).
  destruct (llemu_text_is_gated (fst (initialize start constructed))
              (snd (initialize start constructed)) 2 "ready" Hwf)
    as ((_ & H) & _).
  apply H. split; [reflexivity | lia].
Defined.

Lemma testbit_of_mask (v : Z) (k : Z) :
  0 <= k -> negb (Z.land v (2 ^ k) =? 0) = Z.testbit v k.
Proof.
  intros Hk.
  destruct (Z.testbit v k) eqn:E.
  - apply negb_true_iff, Z.eqb_neq. intros H0.
    assert (Hb : Z.testbit (Z.land v (2 ^ k)) k = true)
      by (rewrite Z.land_spec, E, Z.pow2_bits_true by lia; reflexivity).
    rewrite H0, Z.bits_0 in Hb. discriminate.
  - apply negb_false_iff, Z.eqb_eq. apply Z.bits_inj'. intros n Hn.
    rewrite Z.land_spec, Z.bits_0.
    destruct (Z.eq_dec n k) as [->|Hne].
    + now rewrite E.
    + rewrite Z.pow2_bits_false by lia. apply andb_false_r.
Qed.

Lemma new_presses_bit buttons last k :
  0 <= k < 8 ->
  Z.testbit (Z.land buttons (Z.lnot last) mod 256) k
    = Z.testbit buttons k && negb (Z.testbit last k).
Proof.
  intros Hk. change 256 with (2 ^ 8).
  rewrite Z.mod_pow2_bits_low by lia.
  rewrite Z.land_spec, Z.lnot_spec by lia. reflexivity.
Qed.

(** A display-button callback is called exactly when it is registered and
    its button is down now and was up at the previous check; the left,
    centre and right callbacks are called in that order.  Checking again
    while the same buttons are held calls nothing. *)
Theorem lcd_button_callbacks_fire_once :
  forall (s : state) (h : HAL),
    let buttons := read_buttons s h in
    let pressed k := Z.testbit buttons k && negb (Z.testbit (last_buttons s) k) in
    let calls k cb :=
      match cb with
      | Some f => if pressed k then [f] else []
      | None => []
      end in
    fst (lcd_check_buttons s h)
      = calls 2 (btn0_callback s) ++ calls 1 (btn1_callback s)
          ++ calls 0 (btn2_callback s) /\
    last_buttons (snd (lcd_check_buttons s h)) = buttons /\
    fst (lcd_check_buttons (snd (lcd_check_buttons s h)) h) = [].
Proof.
  intros s h buttons pressed calls.
  assert (Hfire : forall last k cb,
             0 <= k < 8 ->
             fire (Z.land buttons (Z.lnot last) mod 256) (2 ^ k) cb
             = match cb with
               | Some f =>
                   if Z.testbit buttons k && negb (Z.testbit last k)
                   then [f] else []
               | None => []
               end).
  { intros last k cb Hk. unfold fire.
    rewrite testbit_of_mask, new_presses_bit by lia.
    destruct (Z.testbit buttons k && negb (Z.testbit last k)), cb; reflexivity. }
  split; [|split].
  - unfold lcd_check_buttons. cbn [fst]. fold buttons.
    change LCD_BTN_LEFT with (2 ^ 2). change LCD_BTN_CENTER with (2 ^ 1).
    change LCD_BTN_RIGHT with (2 ^ 0).
    rewrite !Hfire by lia. reflexivity.
  - reflexivity.
  - unfold lcd_check_buttons at 1. cbn [fst].
    assert (Hsame : read_buttons (snd (lcd_check_buttons s h)) h = buttons)
      by reflexivity.
    rewrite Hsame.
    change (last_buttons (snd (lcd_check_buttons s h))) with buttons.
    change LCD_BTN_LEFT with (2 ^ 2). change LCD_BTN_CENTER with (2 ^ 1).
    change LCD_BTN_RIGHT with (2 ^ 0).
    rewrite !Hfire by lia.
    cbn [btn0_callback btn1_callback btn2_callback lcd_check_buttons snd].
    rewrite !andb_negb_r.
    destruct (btn0_callback s), (btn1_callback s), (btn2_callback s); reflexivity.
Qed.

End LLEMU_properties.

(** * Properties of the task timing *)

Section Task_properties.
Import Task.
Local Open Scope Z_scope.

Lemma to_uint32_add_l a b : to_uint32 (to_uint32 a + b) = to_uint32 (a + b).
Proof. unfold to_uint32. apply Zplus_mod_idemp_l. Qed.

Lemma delay_until_fold delta (clock : list Z) :
  forall prev,
    fold_left (fun p elapsed => snd (delay_until p delta elapsed)) clock
              (to_uint32 prev)
    = to_uint32 (prev + Z.of_nat (length clock) * delta).
Proof.
  induction clock as [|e clock IH]; intros prev.
  - cbn [fold_left length]. f_equal. lia.
  - cbn [fold_left length]. unfold delay_until at 2. cbn [snd].
    rewrite to_uint32_add_l, IH. f_equal. lia.
Qed.

(** [delay_until] keeps a fixed period: whatever the clock reads at each
    call, after any number of calls the stored time is the start time plus
    that many periods, modulo [2 ^ 32], so lateness never accumulates.  A
    call never sleeps a negative time, wakes no earlier than the target,
    sleeps exactly until the target when it is ahead of it and does not
    sleep when it is late. *)
Theorem delay_until_keeps_period :
  forall (prev delta : Z) (clock : list Z),
    0 <= prev < 2 ^ 32 ->
    fold_left (fun p elapsed => snd (delay_until p delta elapsed)) clock prev
      = to_uint32 (prev + Z.of_nat (length clock) * delta) /\
    (forall elapsed,
       let target := to_uint32 (prev + delta) in
       let slept := fst (delay_until prev delta elapsed) in
       snd (delay_until prev delta elapsed) = target /\
       0 <= slept /\ target <= elapsed + slept /\
       (elapsed < target -> elapsed + slept = target) /\
       (target <= elapsed -> slept = 0)).
Proof.
  intros prev delta clock Hp. split.
  - rewrite <- delay_until_fold. f_equal. unfold to_uint32.
    symmetry. apply Z.mod_small. exact Hp.
  - intros elapsed. cbv zeta. unfold delay_until. cbn [fst snd].
    destruct (elapsed <? to_uint32 (prev + delta)) eqn:E; lia.
Qed.

Lemma delay_until_keeps_period_witness :
  fold_left (fun p elapsed => snd (delay_until p 20 elapsed)) [7; 300; 301] 0
    = to_uint32 (0 + Z.of_nat (length [7; 300; 301]) * 20).
Proof.
  apply (delay_until_keeps_period 0 20 [7; 300; 301]). lia.
Defined.

End Task_properties.

(** * Properties of the autonomous selector *)

Section Selector_properties.
Import LVGL Widgets Selector.
Local Open Scope Z_scope.

Lemma to_coord_id v : -32768 <= v <= 32767 -> to_coord v = v.
Proof. intros H. unfold to_coord. rewrite Z.mod_small; lia. Qed.

(** The button of the routine of index [i] in a grid of three columns. *)
Lemma place_button_spec selected i :
  0 <= i <= 1964 ->
  let x := 10 + 150 * (i mod 3) in
  let y := 10 + 50 * (i / 3) in
  let btn := fst (place_button selected i x y) in
  coords btn = mk_area x y (x + 140) (y + 40) /\
  user_data btn = i /\
  lv_obj_has_state btn LV_STATE_CHECKED = (i =? selected) /\
  snd (place_button selected i x y)
    = (10 + 150 * ((i + 1) mod 3), 10 + 50 * ((i + 1) / 3)).
Proof.
  intros Hi x y btn.
  assert (Hx : 10 <= x <= 310) by (subst x; Z.div_mod_to_equations; lia).
  assert (Hy : 10 <= y <= 32710) by (subst y; Z.div_mod_to_equations; lia).
  subst btn. unfold place_button.
  assert (Hbtn :
    lv_obj_set_user_data
      (lv_obj_set_size (lv_obj_set_pos lv_btn_create (to_coord x) (to_coord y))
                       140 40) i
    = mk_obj (mk_area x y (x + 140) (y + 40)) i 0
             (Z.lor (Z.lor LV_OBJ_FLAG_CLICKABLE LV_OBJ_FLAG_SCROLLABLE)
                    LV_OBJ_FLAG_CLICKABLE)).
  { unfold lv_obj_set_user_data, lv_obj_set_size, lv_obj_set_pos, lv_btn_create,
      lv_obj_create.
    cbn [coords x1 y1 x2 y2 user_data state flags lv_obj_set_size].
    rewrite !(to_coord_id x), !(to_coord_id y) by lia.
    rewrite !(to_coord_id (x + 140)), !(to_coord_id (y + 40)) by lia.
    reflexivity. }
  rewrite Hbtn.
  assert (Hnext :
    (if 470 <? x + 140 + 10 + 140 then (10, y + 40 + 10) else (x + 140 + 10, y))
    = (10 + 150 * ((i + 1) mod 3), 10 + 50 * ((i + 1) / 3))).
  { destruct (470 <? x + 140 + 10 + 140) eqn:E; subst x y; f_equal;
      Z.div_mod_to_equations; lia. }
  destruct (i =? selected) eqn:Es;
    destruct (470 <? x + 140 + 10 + 140) eqn:E; cbn [fst snd];
    cbn [coords user_data lv_obj_add_state lv_obj_has_state state];
    rewrite <- Hnext; repeat split.
Qed.

Lemma place_buttons_spec selected autos :
  forall (i : Z) (k : nat),
    0 <= i -> i + Z.of_nat (length autos) <= 1965 ->
    (k < length autos)%nat ->
    exists btn,
      place_buttons selected autos i (10 + 150 * (i mod 3)) (10 + 50 * (i / 3)) !! k
        = Some btn /\
      let j := i + Z.of_nat k in
      coords btn = mk_area (10 + 150 * (j mod 3)) (10 + 50 * (j / 3))
                           (10 + 150 * (j mod 3) + 140) (10 + 50 * (j / 3) + 40) /\
      user_data btn = j /\
      lv_obj_has_state btn LV_STATE_CHECKED = (j =? selected).
Proof.
  induction autos as [|a autos IH]; intros i k Hi Hlen Hk; [cbn in Hk; lia|].
  cbn [length] in Hlen, Hk.
  destruct (place_button_spec selected i ltac:(lia)) as (Hc & Hu & Hs & Hnext).
  cbn [place_buttons].
  destruct (place_button selected i (10 + 150 * (i mod 3)) (10 + 50 * (i / 3)))
    as [btn [x' y']].
  cbn [fst snd] in Hc, Hu, Hs, Hnext. injection Hnext as -> ->.
  destruct k as [|k].
  - exists btn. split; [reflexivity|]. cbv zeta.
    replace (i + Z.of_nat 0) with i by lia. auto.
  - destruct (IH (i + 1) k ltac:(lia) ltac:(lia) ltac:(lia)) as (b & Hb & Hspec).
    exists b. split; [exact Hb|]. cbv zeta in Hspec |- *.
    replace (i + Z.of_nat (S k)) with (i + 1 + Z.of_nat k) by lia. exact Hspec.
Qed.

Lemma length_place_buttons selected autos :
  forall i x y, length (place_buttons selected autos i x y) = length autos.
Proof.
  induction autos as [|a autos IH]; intros i x y; [reflexivity|].
  cbn [place_buttons]. destruct (place_button selected i x y) as [btn [x' y']].
  cbn [length]. now rewrite IH.
Qed.

(** [update_buttons] lays the match buttons out in rows of three: there is
    one button per routine, and with at most 1965 routines the button of
    routine [k] is 140 by 40, at column [k mod 3] (x = 10, 160 or 310) and
    row [k / 3] (y = 10 + 50 * row); it carries [k] as user data and is
    checked exactly when [k] is the selected routine.  So every button ends
    at most at x = 450, two different buttons never overlap, and the
    routine of a checked button is the one [run_selected_match] runs. *)
Theorem selector_buttons_form_a_grid :
  forall (self : Selector) (ipc : IPC.IPCClient),
    (length (_match_autos self) <= 1965)%nat ->
    let buttons := _match_buttons (fst (update_buttons self ipc)) in
    length buttons = length (_match_autos self) /\
    (forall (k : nat),
       (k < length (_match_autos self))%nat ->
       exists btn,
         buttons !! k = Some btn /\
         lv_obj_get_x btn = 10 + 150 * (Z.of_nat k mod 3) /\
         lv_obj_get_y btn = 10 + 50 * (Z.of_nat k / 3) /\
         lv_obj_get_width btn = 140 /\ lv_obj_get_height btn = 40 /\
         x2 (coords btn) <= 450 /\
         user_data btn = Z.of_nat k /\
         lv_obj_has_state btn LV_STATE_CHECKED
           = (Z.of_nat k =? _selected_match self)) /\
    (forall (k k' : nat) (b b' : lv_obj_t),
       k <> k' -> buttons !! k = Some b -> buttons !! k' = Some b' ->
       x2 (coords b) < x1 (coords b') \/ x2 (coords b') < x1 (coords b) \/
       y2 (coords b) < y1 (coords b') \/ y2 (coords b') < y1 (coords b)) /\
    (forall (k : nat) (b : lv_obj_t) (r : AutonRoutine),
       buttons !! k = Some b -> _match_autos self !! k = Some r ->
       lv_obj_has_state b LV_STATE_CHECKED = true ->
       run_selected_match (fst (update_buttons self ipc)) = Some (func r)).
Proof.
  intros self ipc Hlen buttons.
  assert (Hb : buttons
               = place_buttons (_selected_match self) (_match_autos self) 0
                   (10 + 150 * (0 mod 3)) (10 + 50 * (0 / 3))) by reflexivity.
  assert (Hl : length buttons = length (_match_autos self))
    by (rewrite Hb; apply length_place_buttons).
  assert (Hgrid : forall k : nat,
             (k < length (_match_autos self))%nat ->
             exists btn,
               buttons !! k = Some btn /\
               coords btn
                 = mk_area (10 + 150 * (Z.of_nat k mod 3)) (10 + 50 * (Z.of_nat k / 3))
                           (10 + 150 * (Z.of_nat k mod 3) + 140)
                           (10 + 50 * (Z.of_nat k / 3) + 40) /\
               user_data btn = Z.of_nat k /\
               lv_obj_has_state btn LV_STATE_CHECKED
                 = (Z.of_nat k =? _selected_match self)).
  { intros k Hk. rewrite Hb.
    destruct (place_buttons_spec (_selected_match self) (_match_autos self) 0 k)
      as (btn & Hbtn & Hspec); [lia | lia | exact Hk |].
    exists btn. split; [exact Hbtn|]. cbv zeta in Hspec.
    replace (0 + Z.of_nat k) with (Z.of_nat k) in Hspec by lia. exact Hspec. }
  split; [exact Hl|]. split; [|split].
  - intros k Hk. destruct (Hgrid k Hk) as (btn & Hbtn & Hc & Hu & Hs).
    exists btn. split; [exact Hbtn|].
    unfold lv_obj_get_x, lv_obj_get_y, lv_obj_get_width, lv_obj_get_height.
    rewrite Hc. cbn [x1 y1 x2 y2].
    replace (10 + 150 * (Z.of_nat k mod 3) + 140 - (10 + 150 * (Z.of_nat k mod 3)))
      with 140 by lia.
    replace (10 + 50 * (Z.of_nat k / 3) + 40 - (10 + 50 * (Z.of_nat k / 3)))
      with 40 by lia.
    repeat split; try assumption; try reflexivity.
    Z.div_mod_to_equations; lia.
  - intros k k' b b' Hne Hk Hk'.
    assert (Hkl : (k < length (_match_autos self))%nat)
      by (rewrite <- Hl; eapply lookup_lt_Some; eassumption).
    assert (Hkl' : (k' < length (_match_autos self))%nat)
      by (rewrite <- Hl; eapply lookup_lt_Some; eassumption).
    destruct (Hgrid k Hkl) as (c & Hc & Hcc & _).
    destruct (Hgrid k' Hkl') as (c' & Hc' & Hcc' & _).
    assert (c = b) by congruence. assert (c' = b') by congruence. subst c c'.
    rewrite Hcc, Hcc'. cbn [x1 y1 x2 y2].
    assert (Hz : Z.of_nat k <> Z.of_nat k') by lia.
    revert Hz. generalize (Z.of_nat k) (Z.of_nat k'). intros a a' Hz.
    Z.div_mod_to_equations. lia.
  - intros k b r Hk Hr Hchecked.
    assert (Hkl : (k < length (_match_autos self))%nat)
      by (eapply lookup_lt_Some; eassumption).
    destruct (Hgrid k Hkl) as (c & Hc & _ & _ & Hs).
    assert (c = b) by congruence. subst c.
    rewrite Hchecked in Hs. symmetry in Hs. apply Z.eqb_eq in Hs.
    unfold run_selected_match, update_buttons, routine_at.
    cbn [fst _match_autos _selected_match]. rewrite <- Hs.
    replace ((0 <=? Z.of_nat k) && (Z.of_nat k <? Z.of_nat (length (_match_autos self))))
      with true by (symmetry; apply andb_true_iff; lia).
    rewrite Nat2Z.id, Hr. reflexivity.
Qed.

Lemma selector_buttons_form_a_grid_witness :
  length (_match_buttons
            (fst (update_buttons
                    (fst (register_match_auto constructed
                            (IPC.mkIPCClient false false [])
                            (mkAutonRoutine "Safe" "Just touch the ladder" 3)))
                    (IPC.mkIPCClient false false [])))) = 1%nat.
Proof.
  apply (selector_buttons_form_a_grid
           (fst (register_match_auto constructed
                   (IPC.mkIPCClient false false [])
                   (mkAutonRoutine "Safe" "Just touch the ladder" 3)))
           (IPC.mkIPCClient false false [])).
  cbn. lia.
Defined.

End Selector_properties.

(** * Further properties of the display driver *)

Section Display_records.
Import LVGL Display.
Local Open Scope Z_scope.

Lemma gather_row_content fb y :
  Z.of_nat (length fb) = BUFFER_SIZE ->
  forall (n : nat) (a : Z) (px : list Z),
    (forall x, a <= x < a + Z.of_nat n -> in_canvas x y = true) ->
    for_each (seqZ a (Z.of_nat n)) (gather_cell fb y) px
      = Some (px ++ map (fun x => default 0 (fb !! cell_index x y))
                        (seqZ a (Z.of_nat n))).
Proof.
  intros Hlen. induction n as [|n IH]; intros a px Hall.
  - cbn. now rewrite app_nil_r.
  - rewrite seqZ_succ, for_each_cons. unfold gather_cell at 1.
    rewrite (Hall a) by lia.
    destruct (load_in_canvas fb a y Hlen (Hall a ltac:(lia))) as (v & Hv & Hlook).
    rewrite Hv, IH by (intros x Hx; apply Hall; lia).
    cbn [map]. rewrite Hlook. cbn [default]. rewrite <- app_assoc. reflexivity.
Qed.

Lemma gather_rows_content fb (a : Z) (k : nat) :
  Z.of_nat (length fb) = BUFFER_SIZE ->
  forall (m : nat) (b : Z) (px : list Z),
    (forall x y, b <= y < b + Z.of_nat m -> a <= x < a + Z.of_nat k ->
                 in_canvas x y = true) ->
    for_each (seqZ b (Z.of_nat m))
      (fun y px => for_each (seqZ a (Z.of_nat k)) (gather_cell fb y) px) px
    = Some (px ++ flat_map
                    (fun y => map (fun x => default 0 (fb !! cell_index x y))
                                  (seqZ a (Z.of_nat k)))
                    (seqZ b (Z.of_nat m))).
Proof.
  intros Hlen. induction m as [|m IH]; intros b px Hall.
  - cbn. now rewrite app_nil_r.
  - rewrite seqZ_succ, for_each_cons.
    rewrite gather_row_content by (try assumption; intros x Hx; apply Hall; lia).
    rewrite IH by (intros x y Hy Hx; apply Hall; lia).
    cbn [flat_map]. rewrite <- app_assoc. reflexivity.
Qed.

Lemma flat_map_ext_in {A B : Type} (f g : A -> list B) (l : list A) :
  (forall a, In a l -> f a = g a) -> flat_map f l = flat_map g l.
Proof.
  induction l as [|a l IH]; intros H; [reflexivity|].
  cbn [flat_map]. rewrite (H a) by now left.
  rewrite IH; [reflexivity|]. intros b Hb. apply H. now right.
Qed.

Lemma In_seqZ x a n : In x (seqZ a n) -> a <= x < a + n.
Proof. intros H. apply list_elem_of_In, elem_of_seqZ in H. exact H. Qed.

(** The source pixels of a rectangle, listed row by row, are the first
    [width * height] entries of the pixel buffer. *)
Lemma map_offsets (f : nat -> Z) (c : nat) :
  forall (k : nat) (a : Z),
    map (fun x => f (c + Z.to_nat (x - a))%nat) (seqZ a (Z.of_nat k))
      = map f (seq c k).
Proof.
  intros k. revert c. induction k as [|k IH]; intros c a; [reflexivity|].
  rewrite seqZ_succ. cbn [map seq].
  replace (c + Z.to_nat (a - a))%nat with c by lia. f_equal.
  rewrite <- (IH (S c) (a + 1)).
  apply map_ext_in. intros x Hx. apply In_seqZ in Hx. f_equal. lia.
Qed.

Lemma source_pixels_rows color_p (a : Z) (k : nat) :
  forall (m : nat) (b b0 : Z) (c : nat),
    b0 <= b -> c = (Z.to_nat (b - b0) * k)%nat ->
    flat_map
      (fun y => map (fun x => color_at color_p
                                (Z.to_nat ((y - b0) * Z.of_nat k + (x - a))))
                    (seqZ a (Z.of_nat k)))
      (seqZ b (Z.of_nat m))
    = map (color_at color_p) (seq c (m * k)).
Proof.
  induction m as [|m IH]; intros b b0 c Hb Hc; [reflexivity|].
  rewrite seqZ_succ. cbn [flat_map].
  replace (S m * k)%nat with (k + m * k)%nat by lia.
  rewrite seq_app, map_app. f_equal.
  - rewrite <- (map_offsets (color_at color_p) c k a).
    apply map_ext_in. intros x Hx. apply In_seqZ in Hx. f_equal. subst c. nia.
  - apply IH; [lia|]. subst c. nia.
Qed.

Lemma map_color_at_take color_p n :
  (n <= length color_p)%nat ->
  map (color_at color_p) (seq 0 n) = take n color_p.
Proof.
  intros Hn. apply list_eq. intros i.
  rewrite list_lookup_fmap.
  destruct (decide (i < n)%nat) as [Hi|Hi].
  - rewrite lookup_seq_lt by lia. cbn. rewrite lookup_take_lt by lia.
    unfold color_at.
    destruct (lookup_lt_is_Some_2 color_p i ltac:(lia)) as [v Hv].
    now rewrite Hv.
  - rewrite lookup_seq_ge by lia. cbn. symmetry.
    apply lookup_ge_None. rewrite length_take. lia.
Qed.

(** For a rectangle inside the canvas and a connected transport, the
    record handed to [send_screen_update] keeps the rectangle and carries
    exactly the caller's pixels, in the caller's order: the first
    [width * height] entries of the pixel buffer. *)
Theorem flush_record_carries_source_pixels :
  forall (self : Display) (area : lv_area_t) (color_p : list Z),
    Z.of_nat (length (_framebuffer self)) = BUFFER_SIZE ->
    0 <= x1 area <= x2 area -> x2 area < WIDTH ->
    0 <= y1 area <= y2 area -> y2 area < HEIGHT ->
    (x2 area - x1 area + 1) * (y2 area - y1 area + 1)
      <= Z.of_nat (length color_p) ->
    emitted (disp_flush_cb self true area color_p)
      = Some (IPC.mkScreenUpdate (x1 area) (y1 area) (x2 area) (y2 area)
                (take (Z.to_nat ((x2 area - x1 area + 1) * (y2 area - y1 area + 1)))
                      color_p)).
Proof.
  intros self area color_p Hlen Hx Hx2 Hy Hy2 Hsrc.
  destruct (copy_to_framebuffer_spec area color_p (_framebuffer self) Hlen)
    as (fb' & p & Hcopy & Hl & Hin & _).
  assert (Hlen' : Z.of_nat (length fb') = BUFFER_SIZE) by now rewrite Hl.
  set (k := Z.to_nat (x2 area - x1 area + 1)).
  set (m := Z.to_nat (y2 area - y1 area + 1)).
  assert (Hcanvas : forall x y,
             y1 area <= y < y1 area + Z.of_nat m ->
             x1 area <= x < x1 area + Z.of_nat k -> in_canvas x y = true).
  { intros x y Hyy Hxx. apply in_canvas_spec. subst k m. lia. }
  assert (Hsp : source_pixels area color_p
                = take (Z.to_nat ((x2 area - x1 area + 1) * (y2 area - y1 area + 1)))
                       color_p).
  { unfold source_pixels, source_offset. rewrite !range_seqZ. fold k m.
    replace (x2 area - x1 area + 1) with (Z.of_nat k) by (subst k; lia).
    rewrite (source_pixels_rows color_p (x1 area) k m (y1 area) (y1 area) 0)
      by lia.
    replace (Z.to_nat (Z.of_nat k * (y2 area - y1 area + 1))) with (m * k)%nat
      by (subst k m; nia).
    apply map_color_at_take. subst k m. nia. }
  unfold disp_flush_cb. rewrite Hcopy.
  unfold gather_pixels. rewrite !range_seqZ. fold k m.
  rewrite (gather_rows_content fb' (x1 area) k Hlen' m (y1 area) [] Hcanvas).
  cbn [emitted app]. do 2 f_equal. rewrite <- Hsp.
  unfold source_pixels. rewrite !range_seqZ. fold k m.
  apply flat_map_ext_in. intros y Hyy. apply In_seqZ in Hyy.
  apply map_ext_in. intros x Hxx. apply In_seqZ in Hxx.
  rewrite (Hin x y); [reflexivity | | now apply Hcanvas].
  unfold covers. subst k m. lia.
Qed.

Lemma flush_record_carries_source_pixels_witness :
  emitted (disp_flush_cb constructed true (mk_area 3 4 4 5) [10; 20; 30; 40; 50])
    = Some (IPC.mkScreenUpdate 3 4 4 5
              (take (Z.to_nat ((4 - 3 + 1) * (5 - 4 + 1))) [10; 20; 30; 40; 50])).
Proof.
  refine (flush_record_carries_source_pixels constructed (mk_area 3 4 4 5)
            [10; 20; 30; 40; 50] framebuffer_constructed_size _ _ _ _ _);
    cbn [x1 y1 x2 y2]; unfold WIDTH, HEIGHT; cbn [length]; lia.
Defined.

End Display_records.

(** * From the screen record to the canvas of the user interface *)

Section Screen_pipeline.
Import IPC Widgets UI.
Local Open Scope Z_scope.

Lemma pixel_bytes_range px :
  Forall (fun b => 0 <= b < 256) (pixel_bytes px).
Proof.
  induction px as [|p px IH]; [constructor|].
  cbn [pixel_bytes flat_map app]. fold (pixel_bytes px).
  assert (H : forall v, 0 <= Z.land v 255 < 256).
  { intros v. change 255 with (Z.ones 8). rewrite Z.land_ones by lia.
    apply Z.mod_pos_bound. reflexivity. }
  repeat constructor; try apply H. exact IH.
Qed.

Lemma pixel_of_bytes p :
  0 <= p < 65536 ->
  Z.lor (Z.land p 255) (Z.shiftl (Z.land (Z.shiftr p 8) 255) 8) = p.
Proof.
  intros Hp. rewrite Z.lor_comm.
  change 255 with (Z.ones 8). rewrite !Z.land_ones, Z.shiftr_div_pow2 by lia.
  rewrite lor_shiftl_add by (try apply Z.mod_pos_bound; lia).
  change (2 ^ 8) with 256. Z.div_mod_to_equations. lia.
Qed.

Lemma store_pixel_fresh pre p rest :
  store_pixel (length pre) p (pre ++ 0 :: 0 :: 0 :: 0 :: rest)
  = (pre ++ rgba_of_pixel p) ++ rest.
Proof.
  unfold store_pixel, rgba_of_pixel. cbv zeta.
  rewrite <- (Nat.add_0_r (length pre)) at 4.
  rewrite !insert_app_r. cbn. rewrite <- app_assoc. reflexivity.
Qed.

Lemma convert_pixel_bytes px pre rest :
  Forall (fun p => 0 <= p < 65536) px ->
  convert (pixel_bytes px) (length pre) (pre ++ replicate (4 * length px) 0 ++ rest)
  = pre ++ flat_map rgba_of_pixel px ++ rest.
Proof.
  intros Hpx. revert pre. induction Hpx as [|p px Hp _ IH]; intros pre.
  - reflexivity.
  - cbn [pixel_bytes flat_map app convert]. fold (pixel_bytes px).
    rewrite pixel_of_bytes by exact Hp.
    replace (4 * length (p :: px))%nat
      with (S (S (S (S (4 * length px))))) by (cbn [length]; lia).
    cbn [replicate app]. rewrite store_pixel_fresh.
    replace (length pre + 4)%nat with (length (pre ++ rgba_of_pixel p))
      by (rewrite length_app; reflexivity).
    rewrite IH, <- !app_assoc. reflexivity.
Qed.

Lemma lv_color_make_value r g b :
  0 <= r < 256 -> 0 <= g < 256 -> 0 <= b < 256 ->
  lv_color_make r g b = r / 8 * 2048 + g / 4 * 32 + b / 8.
Proof.
  intros Hr Hg Hb. unfold lv_color_make.
  rewrite !Z.shiftr_div_pow2 by lia.
  change (2 ^ 3) with 8. change (2 ^ 2) with 4.
  assert (HR : 0 <= r / 8 < 32) by (Z.div_mod_to_equations; lia).
  assert (HG : 0 <= g / 4 < 64) by (Z.div_mod_to_equations; lia).
  assert (HB : 0 <= b / 8 < 32) by (Z.div_mod_to_equations; lia).
  rewrite (Z.shiftl_mul_pow2 (g / 4) 5) by lia. change (2 ^ 5) with 32.
  rewrite lor_shiftl_add by (change (2 ^ 11) with 2048; lia).
  change (2 ^ 11) with 2048.
  set (R := r / 8) in *. set (G := g / 4) in *. set (B := b / 8) in *.
  replace (R * 2048 + G * 32) with ((R * 64 + G) * 2 ^ 5)
    by (change (2 ^ 5) with 32; lia).
  rewrite <- Z.shiftl_mul_pow2 by lia.
  rewrite lor_shiftl_add by (change (2 ^ 5) with 32; lia).
  rewrite Z.shiftl_mul_pow2 by lia. reflexivity.
Qed.

(** The pixels of a screen record reach the canvas when the record is
    complete: for a rectangle of width and height at least 1 that carries
    exactly width times height 16-bit pixels, the user interface draws at
    the rectangle's corner an image of that size whose bytes are the colour
    bytes of the record's pixels, in order, every pixel opaque.  A record
    with fewer pixels than its rectangle leaves the rest of the image
    transparent black, and a rectangle of width zero makes
    [createImageData] throw.  A colour made from 8-bit channels with
    [lv_color_make] is drawn with each channel rounded down to a multiple of
    8 (red, blue) or 4 (green), so never brighter and at most 7 (green: 3)
    darker per channel. *)
Theorem screen_pixels_reach_canvas :
  forall (u : ScreenUpdate),
    Forall (fun p => 0 <= p < 65536) (pixels u) ->
    1 <= x2 u - x1 u + 1 ->
    1 <= y2 u - y1 u + 1 ->
    Z.of_nat (length (pixels u)) = (x2 u - x1 u + 1) * (y2 u - y1 u + 1) ->
    updateScreen (x1 u) (y1 u) (x2 u) (y2 u)
                 (base64_encode (pixel_bytes (pixels u)))
      = Some (x1 u, y1 u,
              mkImageData (x2 u - x1 u + 1) (y2 u - y1 u + 1)
                          (flat_map rgba_of_pixel (pixels u))) /\
    updateScreen 478 0 481 1 (base64_encode (pixel_bytes [1; 2; 5; 6]))
      = Some (478, 0,
              mkImageData 4 2
                (flat_map rgba_of_pixel [1; 2; 5; 6] ++ replicate 16 0)) /\
    updateScreen 10 0 9 0 (base64_encode (pixel_bytes [])) = None /\
    (forall r g b,
       0 <= r < 256 -> 0 <= g < 256 -> 0 <= b < 256 ->
       rgba_of_pixel (lv_color_make r g b)
         = [8 * (r / 8); 4 * (g / 4); 8 * (b / 8); 255] /\
       0 <= lv_color_make r g b < 65536 /\
       0 <= r - 8 * (r / 8) <= 7 /\ 0 <= g - 4 * (g / 4) <= 3 /\
       0 <= b - 8 * (b / 8) <= 7).
Proof.
  intros u Hpx Hw Hh Hlen. split; [|split; [reflexivity|split; [reflexivity|]]].
  - unfold updateScreen, createImageData.
    destruct (base64_decode_encode _ (pixel_bytes_range (pixels u))) as [-> _].
    assert (Hz : (x2 u - x1 u + 1 =? 0) || (y2 u - y1 u + 1 =? 0) = false).
    { apply orb_false_iff. split; apply Z.eqb_neq; lia. }
    rewrite Hz. cbn [image_width image_height image_data].
    rewrite !Z.abs_eq by lia.
    replace (Z.to_nat (4 * (x2 u - x1 u + 1) * (y2 u - y1 u + 1)))
      with (4 * length (pixels u))%nat by lia.
    pose proof (convert_pixel_bytes (pixels u) [] [] Hpx) as Hc.
    cbn [length app] in Hc. rewrite !app_nil_r in Hc. rewrite Hc. reflexivity.
  - intros r g b Hr Hg Hb.
    rewrite lv_color_make_value by assumption.
    assert (HR : 0 <= r / 8 < 32) by (Z.div_mod_to_equations; lia).
    assert (HG : 0 <= g / 4 < 64) by (Z.div_mod_to_equations; lia).
    assert (HB : 0 <= b / 8 < 32) by (Z.div_mod_to_equations; lia).
    set (R := r / 8) in *. set (G := g / 4) in *. set (B := b / 8) in *.
    split; [|split; [lia|subst R G B; Z.div_mod_to_equations; lia]].
    unfold rgba_of_pixel.
    change 31 with (Z.ones 5). change 63 with (Z.ones 6).
    rewrite !Z.land_ones, !Z.shiftr_div_pow2, !Z.shiftl_mul_pow2 by lia.
    change (2 ^ 11) with 2048. change (2 ^ 5) with 32. change (2 ^ 6) with 64.
    change (2 ^ 3) with 8. change (2 ^ 2) with 4.
    f_equal; [|f_equal; [|f_equal]]; Z.div_mod_to_equations; lia.
Qed.

Lemma screen_pixels_reach_canvas_witness :
  updateScreen 0 0 1 0 (base64_encode (pixel_bytes [63488; 31]))
    = Some (0, 0, mkImageData (1 - 0 + 1) (0 - 0 + 1)
                              (flat_map rgba_of_pixel [63488; 31])).
Proof.
  refine (proj1 (screen_pixels_reach_canvas (mkScreenUpdate 0 0 1 0 [63488; 31]) _ _ _ _)).
  - repeat constructor; cbn; lia.
  - cbn. lia.
  - cbn. lia.
  - reflexivity.
Defined.

End Screen_pipeline.

(** * Properties of the input handlers *)

Section Main_properties.
Import HAL IPC Main.
Local Open Scope Z_scope.

Lemma wf_modify_controller h id f : wf h -> wf (modify_controller h id f).
Proof.
  intros (Hm & Hc & Hl). unfold wf, modify_controller. simpl.
  rewrite length_alter. auto.
Qed.

Lemma button_bit_testbit buttons k :
  0 <= k -> button_bit buttons (2 ^ k) = Z.testbit buttons k.
Proof. intros Hk. unfold button_bit. now apply testbit_of_mask. Qed.

Lemma on_controller_at input h :
  wf h ->
  controller_at (on_controller input h) 1 = controller_at h 1 /\
  controller_at (on_controller input h) 0
  = set_digital 9 (button_bit (buttons input) 2048)
     (set_digital 8 (button_bit (buttons input) 1024)
      (set_digital 7 (button_bit (buttons input) 512)
       (set_digital 6 (button_bit (buttons input) 256)
        (set_digital 13 (button_bit (buttons input) 128)
         (set_digital 12 (button_bit (buttons input) 64)
          (set_digital 11 (button_bit (buttons input) 32)
           (set_digital 10 (button_bit (buttons input) 16)
            (set_digital 16 (button_bit (buttons input) 8)
             (set_digital 14 (button_bit (buttons input) 4)
              (set_digital 15 (button_bit (buttons input) 2)
               (set_digital 17 (button_bit (buttons input) 1)
                (set_analog 3 (clamp (ry input) (-127) 127)
                 (set_analog 2 (clamp (rx input) (-127) 127)
                  (set_analog 1 (clamp (ly input) (-127) 127)
                   (set_analog 0 (clamp (lx input) (-127) 127)
                      (controller_at h 0)))))))))))))))).
Proof.
  intros Hwf. unfold on_controller.
  cbv [E_CONTROLLER_MASTER E_CONTROLLER_ANALOG_LEFT_X E_CONTROLLER_ANALOG_LEFT_Y
       E_CONTROLLER_ANALOG_RIGHT_X E_CONTROLLER_ANALOG_RIGHT_Y
       E_CONTROLLER_DIGITAL_L1 E_CONTROLLER_DIGITAL_L2 E_CONTROLLER_DIGITAL_R1
       E_CONTROLLER_DIGITAL_R2 E_CONTROLLER_DIGITAL_UP E_CONTROLLER_DIGITAL_DOWN
       E_CONTROLLER_DIGITAL_LEFT E_CONTROLLER_DIGITAL_RIGHT E_CONTROLLER_DIGITAL_X
       E_CONTROLLER_DIGITAL_B E_CONTROLLER_DIGITAL_Y E_CONTROLLER_DIGITAL_A].
  cbv zeta. unfold set_controller_analog, set_controller_digital.
  cbn [Z.ltb Z.leb Z.compare Pos.compare Pos.compare_cont orb].
  split.
  - rewrite !controller_at_modify_ne by lia. reflexivity.
  - rewrite !controller_at_modify
      by (try lia; repeat apply wf_modify_controller; exact Hwf).
    reflexivity.
Qed.


Lemma get_controller_digital_at h button :
  0 <= button < 18 ->
  get_controller_digital h 0 button
    = default false (digital (controller_at h 0) !! Z.to_nat button).
Proof.
  intros Hb. unfold get_controller_digital.
  replace ((1 <? 0) || (18 <=? button)) with false
    by (symmetry; apply orb_false_iff; lia).
  reflexivity.
Qed.

Lemma get_controller_analog_at h channel :
  0 <= channel <= 3 ->
  get_controller_analog h 0 channel
    = default 0 (analog (controller_at h 0) !! Z.to_nat channel).
Proof.
  intros Hc. unfold get_controller_analog.
  replace ((1 <? 0) || (3 <? channel)) with false
    by (symmetry; apply orb_false_iff; lia).
  reflexivity.
Qed.

(** [on_controller] writes the four stick values, clamped to [-127, 127],
    to the four analog channels of the master controller and bit [k] of the
    button mask, for [k] from 0 to 11, to the buttons A, B, X, Y, up, down,
    left, right, L1, L2, R1 and R2; the partner controller is not touched.
    The input that [parse_message] delivers for a controller message of the
    user interface is all zero, whatever sticks and buttons the message
    carries; so after such a message every stick of the master controller
    reads 0 and every one of the twelve buttons reads released. *)
Theorem controller_message_resets_inputs :
  forall (h : HAL),
    wf h -> wf_controllers h ->
    (forall (input : ControllerInput),
       let h' := on_controller input h in
       get_controller_analog h' 0 0 = clamp (lx input) (-127) 127 /\
       get_controller_analog h' 0 1 = clamp (ly input) (-127) 127 /\
       get_controller_analog h' 0 2 = clamp (rx input) (-127) 127 /\
       get_controller_analog h' 0 3 = clamp (ry input) (-127) 127 /\
       (forall k, 0 <= k < 12 ->
          get_controller_digital h' 0 (button_of_bit k)
            = Z.testbit (buttons input) k) /\
       controller_at h' 1 = controller_at h 1) /\
    (forall (cb : Callbacks) (lx ly rx ry digital : Z),
       _controller_callback cb = true ->
       exists input : ControllerInput,
         parse_message cb (ui_controller_text lx ly rx ry digital)
           = Ok (Some (controller_callback input)) /\
         (forall channel, 0 <= channel <= 3 ->
            get_controller_analog (on_controller input h) 0 channel = 0) /\
         (forall k, 0 <= k < 12 ->
            get_controller_digital (on_controller input h) 0 (button_of_bit k)
              = false)).
Proof.
  intros h Hwf Hwc.
  assert (Hmap : forall input : ControllerInput,
             let h' := on_controller input h in
             get_controller_analog h' 0 0 = clamp (lx input) (-127) 127 /\
             get_controller_analog h' 0 1 = clamp (ly input) (-127) 127 /\
             get_controller_analog h' 0 2 = clamp (rx input) (-127) 127 /\
             get_controller_analog h' 0 3 = clamp (ry input) (-127) 127 /\
             (forall k, 0 <= k < 12 ->
                get_controller_digital h' 0 (button_of_bit k)
                  = Z.testbit (buttons input) k) /\
             controller_at h' 1 = controller_at h 1).
  { intros input h'. subst h'.
    destruct (on_controller_at input h Hwf) as [Hother Hat].
    destruct (controller_at_sizes h 0 Hwf Hwc ltac:(lia)) as [Ha Hd].
    rewrite !get_controller_analog_at by lia. rewrite Hat.
    destruct (controller_at h 0) as [an dg cc bc bl ll].
    cbn [analog digital] in Ha, Hd.
    do 4 (destruct an as [|? an]; [discriminate Ha|]).
    destruct an; [|discriminate Ha].
    do 18 (destruct dg as [|? dg]; [discriminate Hd|]).
    destruct dg; [|discriminate Hd].
    split; [reflexivity|]. split; [reflexivity|]. split; [reflexivity|].
    split; [reflexivity|]. split; [|exact Hother].
    intros k Hk.
    assert (Hcases : k = 0 \/ k = 1 \/ k = 2 \/ k = 3 \/ k = 4 \/ k = 5 \/
                     k = 6 \/ k = 7 \/ k = 8 \/ k = 9 \/ k = 10 \/ k = 11) by lia.
    rewrite <- (button_bit_testbit (buttons input) k) by lia.
    repeat (destruct Hcases as [->|Hcases];
            [rewrite get_controller_digital_at
               by (vm_compute; split; [discriminate | reflexivity]);
             rewrite Hat; reflexivity|]).
    subst k.
    rewrite get_controller_digital_at
      by (vm_compute; split; [discriminate | reflexivity]).
    rewrite Hat. reflexivity. }
  split; [exact Hmap|].
  intros cb lx ly rx ry digital Hcb.
  exists (mkControllerInput 0 0 0 0 0).
  split; [now apply controller_text_decodes|].
  destruct (Hmap (mkControllerInput 0 0 0 0 0)) as (H0 & H1 & H2 & H3 & Hb & _).
  split.
  - intros channel Hc.
    assert (Hcases : channel = 0 \/ channel = 1 \/ channel = 2 \/ channel = 3) by lia.
    destruct Hcases as [-> | [-> | [-> | ->]]]; assumption.
  - intros k Hk. rewrite (Hb k Hk). cbn [buttons]. apply Z.bits_0.
Qed.

Lemma controller_message_resets_inputs_witness :
  get_controller_digital
    (on_controller (mkControllerInput 0 0 0 0 5) constructed) 0 (button_of_bit 2)
    = Z.testbit 5 2.
Proof.
  destruct (controller_message_resets_inputs constructed wf_constructed
              wf_controllers_constructed) as (H & _).
  destruct (H (mkControllerInput 0 0 0 0 5)) as (_ & _ & _ & _ & Hb & _).
  apply (Hb 2). lia.
Defined.

End Main_properties.
